(** * The engine's link systems and the entry-chunk generator

    A shallow embedding of [engine/linksystem.go] (the main, cache and vanilla
    link systems, [generateChunks], [isAdvertisement], [getCacheEntry]) and of
    the [contentsIter] iterator of the [pub] command, with the properties the
    specification states about them. *)

From Stdlib Require Import ZArith Lia.
From Stdlib Require Strings.Byte.
From stdpp Require Import base option list strings gmap.

Local Open Scope Z_scope.

(** ** Go values *)

(** The contents of a byte slice or of a reader. *)
Abbreviation bytes := (list Byte.byte).

(** A Go [[]byte]: [None] is the nil slice, [Some []] an empty one. *)
Definition slice : Type := option bytes.

Definition len (s : slice) : Z :=
  match s with
  | None => 0
  | Some b => Z.of_nat (length b)
  end.

(** [bytes.NewBuffer(val)] seen as the reader's contents. *)
Definition NewBuffer (val : slice) : bytes := default [] val.

(** [buf.Bytes()] of a buffer that started as [bytes.NewBuffer(nil)] and
    received [b]: nothing written leaves the nil slice. *)
Definition Buffer_Bytes (b : bytes) : slice :=
  match b with
  | [] => None
  | _ => Some b
  end.

(** Go [int] is 64 bits wide on the supported platforms. *)
Definition wrap64 (z : Z) : Z := (z + 2 ^ 63) mod 2 ^ 64 - 2 ^ 63.

(** The error values the code tells apart: [datastore.ErrNotFound],
    [provider.ErrNoCallback], [io.EOF]; any other error is [ErrOther]. *)
Inductive error : Type :=
| ErrNotFound
| ErrNoCallback
| EOF
| ErrOther (msg : string).

#[global] Instance error_eq_dec : EqDecision error.
Proof. solve_decision. Defined.

(** A Go [(value, error)] return where only one of the two is meaningful. *)
Inductive result (A : Type) : Type :=
| Ok (a : A)
| Err (e : error).
Arguments Ok {A} a.
Arguments Err {A} e.

(** ** Generic IPLD nodes, as [basicnode.Prototype.Any] builds them *)

#[warnings="-register-all"]
Inductive Node : Type :=
| NNull
| NBool (b : bool)
| NInt (i : Z)
| NFloat (bits : Z)
| NString (s : string)
| NBytes (b : bytes)
| NList (l : list Node)
| NMap (m : list (string * Node))
| NLink (c : bytes).

(** The value stored under [key] in a map node's entries. *)
Fixpoint mapLookup (m : list (string * Node)) (key : string) : option Node :=
  match m with
  | [] => None
  | (k, v) :: m' => if decide (k = key) then Some v else mapLookup m' key
  end.

(** [n.LookupByString(key)]: a map node answers with the stored node, which
    for a null value is the [NNull] node and not Go's nil; a missing key and
    every other kind of node answer nil together with an error. *)
Definition LookupByString (n : Node) (key : string) : option Node * option error :=
  match n with
  | NMap m =>
      match mapLookup m key with
      | Some v => (Some v, None)
      | None => (None, Some (ErrOther "key not found"))
      end
  | _ => (None, Some (ErrOther "wrong kind"))
  end.

(** [isAdvertisement], linksystem.go:265-268. *)
Definition isAdvertisement (n : Node) : bool :=
  let '(indexID, _) := LookupByString n "Signature" in
  match indexID with
  | Some _ => true
  | None => false
  end.

(** ** Datastores *)

(** The part of go-datastore's [Datastore] interface the engine calls. A
    [Get] returns the Go pair (value, error) and the store after the call. *)
Class Datastore (Key D : Type) : Type := {
  Get : D → Key → (slice * option error) * D;
  Put : D → Key → slice → option error * D
}.

(** go-datastore's [MapDatastore]: a Go map from keys to values. *)
#[global] Instance MapDatastore : Datastore string (gmap string slice) := {
  Get d k :=
    match d !! k with
    | Some v => ((v, None), d)
    | None => ((None, Some ErrNotFound), d)
    end;
  Put d k v := (None, <[k := v]> d)
}.

Module lrustore.
Section lrustore.
Context {Key : Type} `{EqDecision Key}.

(** Modelled from the spec: the Bounded Chunk Cache [lrustore.LRUStore]
    (engine/lrustore is not among the sources). It holds entries keyed by
    identifier, most recently used first, has a length and a capacity, and
    [Resize] to a smaller capacity evicts least-recently-used entries until
    [Len <= newCap] while a larger one never evicts. *)
Record LRUStore : Type := mkLRU {
  capacity : Z;
  entries : list (Key * slice)
}.

(** Modelled from the spec: [Len()] of the LRU store, its current length. *)
Definition Len (ls : LRUStore) : Z := Z.of_nat (length (entries ls)).

(** Modelled from the spec: [Cap()] of the LRU store, its capacity. *)
Definition Cap (ls : LRUStore) : Z := capacity ls.

(** The value held under a key, and the entries without a key. *)
Fixpoint find (k : Key) (es : list (Key * slice)) : option slice :=
  match es with
  | [] => None
  | (k', v) :: es' => if decide (k' = k) then Some v else find k es'
  end.

Fixpoint remove (k : Key) (es : list (Key * slice)) : list (Key * slice) :=
  match es with
  | [] => []
  | (k', v) :: es' =>
      if decide (k' = k) then remove k es' else (k', v) :: remove k es'
  end.

(** Keep the [n] most recently used entries. *)
Definition evictTo (n : Z) (es : list (Key * slice)) : list (Key * slice) :=
  take (Z.to_nat n) es.

(** Modelled from the spec: [Resize(newCap)] of the LRU store; a smaller
    capacity evicts least-recently-used entries until [Len <= newCap], a
    larger one never evicts. *)
Definition Resize (ls : LRUStore) (newCap : Z) : LRUStore :=
  mkLRU newCap (evictTo newCap (entries ls)).

(** Modelled from the spec: [Get(id)] of the LRU store, the bytes or
    NotFound; an entry that is read becomes the most recently used. *)
Definition lruGet (ls : LRUStore) (k : Key) : (slice * option error) * LRUStore :=
  match find k (entries ls) with
  | Some v => ((v, None), mkLRU (capacity ls) ((k, v) :: remove k (entries ls)))
  | None => ((None, Some ErrNotFound), ls)
  end.

(** Modelled from the spec: [Put(id, bytes)] of the LRU store; the entry
    becomes the most recently used and the store stays within its capacity
    by evicting least-recently-used entries. *)
Definition lruPut (ls : LRUStore) (k : Key) (v : slice) : option error * LRUStore :=
  (None, mkLRU (capacity ls) (evictTo (capacity ls) ((k, v) :: remove k (entries ls)))).

#[global] Instance LRUStore_Datastore : Datastore Key LRUStore := {
  Get := lruGet;
  Put := lruPut
}.
End lrustore.
Arguments LRUStore Key : clear implicits.
End lrustore.

(** ** Iterators *)

(** [provider.MultihashIterator]: [Next] answers a multihash or an error
    ([io.EOF] at the end) and advances the iterator; [None] is a call that
    panics. *)
Class MultihashIterator (Multihash I : Type) : Type := {
  Next : I → option (result Multihash * I)
}.

Section contentsIter.
Context {Multihash : Type}.
(** [multihash.Sum([]byte(s), multihash.SHA2_256, -1)], which does not fail. *)
Variable Sum : string → Multihash.

(** The iterator of the [pub] command. *)
Record contentsIter : Type := mkContentsIter {
  offset : Z;
  contents : list string
}.

Definition contentsIter_Next (c : contentsIter) : option (result Multihash * contentsIter) :=
  if offset c =? Z.of_nat (length (contents c)) then
    Some (Err EOF, c)
  else if offset c <? 0 then
    None
  else
    match contents c !! Z.to_nat (offset c) with
    | None => None
    | Some s => Some (Ok (Sum s), mkContentsIter (offset c + 1) (contents c))
    end.

Definition contentsIter_MultihashIterator :
  MultihashIterator Multihash contentsIter := {|
  Next := contentsIter_Next
|}.

(** The multihash lister that [pubCommand] registers, for the context
    identifier and the contents given on the command line. *)
Definition pubLister (ctxID : string) (contents : list string)
    (contextID : bytes) : result contentsIter :=
  if decide (ctxID = String.string_of_list_byte contextID) then
    Ok (mkContentsIter 0 contents)
  else Err (ErrOther "no content for context id").
End contentsIter.

(** ** The engine *)

(** The entry chunk node of the ingest schema: the multihashes and the link
    to the chunk written before it, if any. *)
Record EntryChunk (Multihash Cid : Type) : Type := mkEntryChunk {
  Entries : list Multihash;
  Next_ : option Cid
}.
Arguments mkEntryChunk {Multihash Cid} Entries Next_.
Arguments Entries {Multihash Cid} e.
Arguments Next_ {Multihash Cid} e.

(** The library functions the link systems are built from:
    [datastore.NewKey(c.String())], [dagjson.Decode] into a
    [basicnode.Prototype.Any] builder, the encoder of entry chunks, and the
    hash of [schema.Linkproto] that turns encoded bytes into a link. *)
Class Codecs (Multihash Cid Key : Type) : Type := {
  cidKey : Cid → Key;
  dagjsonDecode : bytes → result Node;
  encodeChunk : EntryChunk Multihash Cid → result bytes;
  cidOf : bytes → Cid
}.

Section engine.
Context {Multihash Cid Key : Type} `{EqDecision Key}.
Context {Iter : Type} `{MultihashIterator Multihash Iter}.
Context {DS : Type} `{Datastore Key DS}.
Context {D : Type} `{Datastore Key D}.
Context `{Codecs Multihash Cid Key}.

(** [e.cache] is a [datastore.Datastore]; the generator asks whether it is
    concretely a [*lrustore.LRUStore]. *)
Inductive Cache : Type :=
| CacheLRU (ls : lrustore.LRUStore Key)
| CacheOther (d : D).

(** A record of what a run did, in order: the calls made on the cache, the
    calls of the registered callback, and the entry chunks that
    [NewLinkedListOfMhs] stored together with the links it returned. *)
Inductive Event : Type :=
| EvCacheGet (k : Key)
| EvCachePut (k : Key) (v : slice)
| EvResize (newCap : Z)
| EvCallback (contextID : bytes)
| EvStored (chunk : EntryChunk Multihash Cid) (lnk : Cid).

Record Engine : Type := mkEngine {
  ds : DS;
  cache : Cache;
  cb : option (bytes → result Iter);
  linkedChunkSize : Z;
  contextIDs : Cid → option bytes;
  log : list Event
}.

Definition withDs (e : Engine) (d : DS) : Engine :=
  mkEngine d (cache e) (cb e) (linkedChunkSize e) (contextIDs e) (log e).

Definition withCache (e : Engine) (c : Cache) : Engine :=
  mkEngine (ds e) c (cb e) (linkedChunkSize e) (contextIDs e) (log e).

Definition logEvent (e : Engine) (ev : Event) : Engine :=
  mkEngine (ds e) (cache e) (cb e) (linkedChunkSize e) (contextIDs e) (log e ++ [ev]).

(** *** Computations on the engine *)

(** How a call on the engine ends: with a value, with a Go error, with a
    panic, or cut off when the iteration budget is used up. *)
Inductive Run (A : Type) : Type :=
| Return (a : A) (e : Engine)
| Fail (err : error) (e : Engine)
| Panic (e : Engine)
| OutOfFuel.
Arguments Return {A} a e.
Arguments Fail {A} err e.
Arguments Panic {A} e.
Arguments OutOfFuel {A}.

Definition M (A : Type) : Type := Engine → Run A.

Definition bind {A B : Type} (m : M A) (k : A → M B) : M B :=
  fun e =>
    match m e with
    | Return a e' => k a e'
    | Fail err e' => Fail err e'
    | Panic e' => Panic e'
    | OutOfFuel => OutOfFuel
    end.

Notation "'let*' x ':=' m 'in' k" := (bind m (fun x => k))
  (at level 10, x name, m at level 100, k at level 200, only parsing).

(** A store call returning the Go pair (value, error) unchanged. *)
Definition dsGet (k : Key) (e : Engine) : (slice * option error) * Engine :=
  let '(r, d) := Get (ds e) k in (r, withDs e d).

Definition cacheGet (k : Key) (e : Engine) : (slice * option error) * Engine :=
  match cache e with
  | CacheLRU ls =>
      let '(r, ls') := Get ls k in
      (r, logEvent (withCache e (CacheLRU ls')) (EvCacheGet k))
  | CacheOther d =>
      let '(r, d') := Get d k in
      (r, logEvent (withCache e (CacheOther d')) (EvCacheGet k))
  end.

Definition cachePut (k : Key) (v : slice) (e : Engine) : option error * Engine :=
  match cache e with
  | CacheLRU ls =>
      let '(r, ls') := Put ls k v in
      (r, logEvent (withCache e (CacheLRU ls')) (EvCachePut k v))
  | CacheOther d =>
      let '(r, d') := Put d k v in
      (r, logEvent (withCache e (CacheOther d')) (EvCachePut k v))
  end.

(** *** Link systems *)

(** An [ipld.LinkSystem] over the engine. The write opener hands out a
    buffer and a committer; here it takes the bytes written to the buffer
    and the link the committer is called with. *)
Record LinkSystem : Type := mkLinkSystemRecord {
  StorageReadOpener : nat → Cid → M bytes;
  StorageWriteOpener : bytes → Cid → M unit
}.

(** [getCacheEntry], linksystem.go:271-280. *)
Definition getCacheEntry (c : Cid) : M slice :=
  fun e =>
    let '((b, err), e) := cacheGet (cidKey c) e in
    match err with
    | Some er =>
        if decide (er = ErrNotFound) then Return None e else Fail er e
    | None => Return b e
    end.

(** [cacheLinkSystem], linksystem.go:200-223. *)
Definition cacheLinkSystem : LinkSystem := {|
  StorageReadOpener _ c := fun e =>
    let '((val, err), e) := cacheGet (cidKey c) e in
    match err with
    | Some er => Fail er e
    | None => Return (NewBuffer val) e
    end;
  StorageWriteOpener buf c := fun e =>
    let '(err, e) := cachePut (cidKey c) (Buffer_Bytes buf) e in
    match err with
    | Some er => Fail er e
    | None => Return tt e
    end
|}.

(** [vanillaLinkSystem], linksystem.go:230-248. *)
Definition vanillaLinkSystem : LinkSystem := {|
  StorageReadOpener _ c := fun e =>
    let '((val, err), e) := dsGet (cidKey c) e in
    match err with
    | Some er => Fail er e
    | None => Return (NewBuffer val) e
    end;
  StorageWriteOpener buf c := fun e =>
    let '(err, d) := Put (ds e) (cidKey c) (Buffer_Bytes buf) in
    match err with
    | Some er => Fail er (withDs e d)
    | None => Return tt (withDs e d)
    end
|}.

(** [schema.NewLinkedListOfMhs(lsys, mhs, next)]: build the chunk, encode
    and hash it, and store the bytes through [lsys] under the new link. A
    chunk that was stored is noted in the record with its link. *)
Definition NewLinkedListOfMhs (lsys : LinkSystem) (mhs : list Multihash)
    (next : option Cid) : M Cid :=
  fun e =>
    match encodeChunk (mkEntryChunk mhs next) with
    | Err er => Fail er e
    | Ok b =>
        let lnk := cidOf b in
        match StorageWriteOpener lsys b lnk e with
        | Return _ e' => Return lnk (logEvent e' (EvStored (mkEntryChunk mhs next) lnk))
        | Fail er e' => Fail er e'
        | Panic e' => Panic e'
        | OutOfFuel => OutOfFuel
        end
    end.

(** *** The chunk generator *)

(** linksystem.go:160-163 and 176-179: a full LRU cache is doubled before
    the next chunk is written. *)
Definition growIfFull (resized : bool) : M bool :=
  fun e =>
    match cache e with
    | CacheLRU ls =>
        if lrustore.Len ls =? lrustore.Cap ls then
          let newCap := wrap64 (lrustore.Cap ls * 2) in
          Return true
            (logEvent (withCache e (CacheLRU (lrustore.Resize ls newCap)))
               (EvResize newCap))
        else Return resized e
    | CacheOther _ => Return resized e
    end.

(** What the loop of [generateChunks] hands to the code after it. *)
Record LoopState : Type := mkLoopState {
  ls_mhs : list Multihash;
  ls_chunkLnk : option Cid;
  ls_resized : bool
}.

(** The [for] loop of [generateChunks], linksystem.go:147-172; [fuel]
    bounds the number of [Next] calls. *)
Fixpoint generateChunks_loop (fuel : nat) (chunkSize : Z) (mhIter : Iter)
    (st : LoopState) : M LoopState :=
  match fuel with
  | O => fun _ => OutOfFuel
  | S fuel' =>
      match Next mhIter with
      | None => fun e => Panic e
      | Some (Err err, _) =>
          if decide (err = EOF) then fun e => Return st e
          else fun e => Fail err e
      | Some (Ok next, mhIter') =>
          let mhs := ls_mhs st ++ [next] in
          if chunkSize <=? Z.of_nat (length mhs) then
            let* resized := growIfFull (ls_resized st) in
            let* chunkLnk := NewLinkedListOfMhs cacheLinkSystem mhs (ls_chunkLnk st) in
            generateChunks_loop fuel' chunkSize mhIter'
              (mkLoopState [] (Some chunkLnk) resized)
          else
            generateChunks_loop fuel' chunkSize mhIter'
              (mkLoopState mhs (ls_chunkLnk st) (ls_resized st))
      end
  end.

(** linksystem.go:174-186: chunk the remaining multihashes. *)
Definition generateChunks_rest (st : LoopState) : M LoopState :=
  match ls_mhs st with
  | [] => fun e => Return st e
  | _ :: _ =>
      let* resized := growIfFull (ls_resized st) in
      let* chunkLnk := NewLinkedListOfMhs cacheLinkSystem (ls_mhs st) (ls_chunkLnk st) in
      fun e => Return (mkLoopState (ls_mhs st) (Some chunkLnk) resized) e
  end.

(** linksystem.go:188-193: a cache that was expanded is set to the number
    of entries it holds. [resized] is only set for an LRU cache; on any
    other cache [ls] is nil. *)
Definition generateChunks_shrink (resized : bool) : M unit :=
  fun e =>
    if resized then
      match cache e with
      | CacheLRU ls =>
          let n := lrustore.Len ls in
          Return tt
            (logEvent (withCache e (CacheLRU (lrustore.Resize ls n))) (EvResize n))
      | CacheOther _ => Panic e
      end
    else Return tt e.

(** [generateChunks], linksystem.go:138-197. [make] panics on a negative
    capacity. [e.cachelsys] is the link system that [cacheLinkSystem]
    builds. The counters [totalMhCount] and [chunkCount] only feed the log
    line and are left out. The returned link is nil when nothing was
    written. *)
Definition generateChunks (fuel : nat) (mhIter : Iter) : M (option Cid) :=
  fun e =>
    let chunkSize := linkedChunkSize e in
    if chunkSize <? 0 then Panic e
    else
      (let* st := generateChunks_loop fuel chunkSize mhIter (mkLoopState [] None false) in
       let* st := generateChunks_rest st in
       let* _ := generateChunks_shrink (ls_resized st) in
       fun e => Return (ls_chunkLnk st) e) e.

(** *** The main link system *)

(** [decodeIPLDNode], linksystem.go:252-259. *)
Definition decodeIPLDNode (r : bytes) : result Node :=
  match dagjsonDecode r with
  | Err er => Err er
  | Ok n => Ok n
  end.

(** Modelled from the spec: the Context Resolver [getCidKeyMap] (defined in
    engine.go, which is not among the sources), [ContextIDFor(id)] giving a
    context identifier or NotFound from a persisted mapping. *)
Definition getCidKeyMap (c : Cid) : M bytes :=
  fun e =>
    match contextIDs e c with
    | Some key => Return key e
    | None => Fail ErrNotFound e
    end.

(** linksystem.go:59-108 of the read opener of [mkLinkSystem]: look the
    link up in the cache and generate the chunks when it is not there. *)
Definition mkLinkSystem_fill (fuel : nat) (c : Cid)
    (callback : bytes → result Iter) : M unit :=
  let* b := getCacheEntry c in
  match b with
  | None =>
      let* key := getCidKeyMap c in
      let* mhIter := (fun e =>
        match callback key with
        | Err er => Fail er (logEvent e (EvCallback key))
        | Ok it => Return it (logEvent e (EvCallback key))
        end) in
      let* _ := generateChunks fuel mhIter in
      fun e => Return tt e
  | Some _ => fun e => Return tt e
  end.

(** linksystem.go:110-124 of the read opener of [mkLinkSystem]: return the
    linked list node from the cache. *)
Definition mkLinkSystem_serve (c : Cid) : M bytes :=
  let* val := getCacheEntry c in
  if len val =? 0 then fun e => Fail ErrNotFound e
  else fun e => Return (NewBuffer val) e.

(** The read opener of [mkLinkSystem] from the callback check on,
    linksystem.go:51-124. *)
Definition mkLinkSystem_ingest (fuel : nat) (c : Cid) : M bytes :=
  fun e =>
    match cb e with
    | None => Fail ErrNoCallback e
    | Some callback =>
        (let* _ := mkLinkSystem_fill fuel c callback in
         mkLinkSystem_serve c) e
    end.

(** The read opener of [mkLinkSystem], linksystem.go:23-125. *)
Definition mkLinkSystem_read (fuel : nat) (c : Cid) : M bytes :=
  fun e =>
    let '((val, err), e) := dsGet (cidKey c) e in
    let fatal :=
      match err with
      | Some er => if decide (er = ErrNotFound) then None else Some er
      | None => None
      end in
    match fatal with
    | Some er => Fail er e
    | None =>
        if len val =? 0 then mkLinkSystem_ingest fuel c e
        else
          match decodeIPLDNode (NewBuffer val) with
          | Err er => Fail er e
          | Ok n =>
              if isAdvertisement n then Return (NewBuffer val) e
              else mkLinkSystem_ingest fuel c e
          end
    end.

(** [mkLinkSystem], linksystem.go:21-134. *)
Definition mkLinkSystem : LinkSystem := {|
  StorageReadOpener := mkLinkSystem_read;
  StorageWriteOpener buf c := fun e =>
    let '(err, d) := Put (ds e) (cidKey c) (Buffer_Bytes buf) in
    match err with
    | Some er => Fail er (withDs e d)
    | None => Return tt (withDs e d)
    end
|}.

(** *** Reading the record of a run *)

Definition storedChunks (evs : list Event) : list (EntryChunk Multihash Cid * Cid) :=
  omap (fun ev => match ev with EvStored ch lnk => Some (ch, lnk) | _ => None end) evs.

Definition cachePuts (evs : list Event) : list (Key * slice) :=
  omap (fun ev => match ev with EvCachePut k v => Some (k, v) | _ => None end) evs.

Definition resizes (evs : list Event) : list Z :=
  omap (fun ev => match ev with EvResize n => Some n | _ => None end) evs.

(** The cache after one recorded call. *)
Definition applyEvent (c : Cache) (ev : Event) : Cache :=
  match ev, c with
  | EvCacheGet k, CacheLRU ls => CacheLRU (Get ls k).2
  | EvCacheGet k, CacheOther d => CacheOther (Get d k).2
  | EvCachePut k v, CacheLRU ls => CacheLRU (Put ls k v).2
  | EvCachePut k v, CacheOther d => CacheOther (Put d k v).2
  | EvResize n, CacheLRU ls => CacheLRU (lrustore.Resize ls n)
  | _, _ => c
  end.

Definition replay (evs : list Event) (c : Cache) : Cache :=
  foldl applyEvent c evs.

(** The engine a run ended with, if it ended. *)
Definition engineOf {A : Type} (r : Run A) : option Engine :=
  match r with
  | Return _ e | Fail _ e | Panic e => Some e
  | OutOfFuel => None
  end.

(** *** What an iterator produces *)

(** [produces it l fin]: the calls of [Next] on [it] answer the multihashes
    of [l] one after the other and then the error [fin]. *)
Inductive produces : Iter → list Multihash → error → Prop :=
| produces_end it fin it' :
    Next it = Some (Err fin, it') → produces it [] fin
| produces_next it mh it' l fin :
    Next it = Some (Ok mh, it') → produces it' l fin → produces it (mh :: l) fin.

(** *** The chunks of a sequence *)

(** The batches the generator cuts from [l], starting with [buf] in the
    buffer: the full ones, and what is left in the buffer at the end. *)
Fixpoint cut (chunkSize : Z) (buf l : list Multihash)
    : list (list Multihash) * list Multihash :=
  match l with
  | [] => ([], buf)
  | mh :: l' =>
      let buf' := buf ++ [mh] in
      if chunkSize <=? Z.of_nat (length buf') then
        let '(bs, r) := cut chunkSize [] l' in (buf' :: bs, r)
      else cut chunkSize buf' l'
  end.

Definition leftover (r : list Multihash) : list (list Multihash) :=
  match r with
  | [] => []
  | _ :: _ => [r]
  end.

Definition batches (chunkSize : Z) (l : list Multihash) : list (list Multihash) :=
  let '(bs, r) := cut chunkSize [] l in bs ++ leftover r.

(** The encoded bytes and the link of a chunk (of a chunk whose encoding
    fails, the empty bytes). *)
Definition chunkBytes (ch : EntryChunk Multihash Cid) : bytes :=
  match encodeChunk ch with
  | Ok b => b
  | Err _ => []
  end.

Definition chunkLink (ch : EntryChunk Multihash Cid) : Cid := cidOf (chunkBytes ch).

(** The chunks of the batches [bs], each linked to the one before it, the
    first to [prev]. *)
Fixpoint linkChain (prev : option Cid) (bs : list (list Multihash))
    : list (EntryChunk Multihash Cid) :=
  match bs with
  | [] => []
  | b :: bs' =>
      let ch := mkEntryChunk b prev in
      ch :: linkChain (Some (chunkLink ch)) bs'
  end.

(** The link of the last chunk of [ws], or [prev] when there is none. *)
Definition lastLink (prev : option Cid) (ws : list (EntryChunk Multihash Cid))
    : option Cid :=
  match last ws with
  | Some ch => Some (chunkLink ch)
  | None => prev
  end.

(** The cache write that stores a chunk. *)
Definition putOf (ch : EntryChunk Multihash Cid) : Key * slice :=
  (cidKey (chunkLink ch), Buffer_Bytes (chunkBytes ch)).

(** The record of the generator writing one chunk into the cache [c]: the
    doubling of a full LRU cache, then the write and the stored chunk. *)
Definition growthEvents (c : Cache) : list Event :=
  match c with
  | CacheLRU ls =>
      if lrustore.Len ls =? lrustore.Cap ls then
        [EvResize (wrap64 (lrustore.Cap ls * 2))]
      else []
  | CacheOther _ => []
  end.

Definition writeEvents (ch : EntryChunk Multihash Cid) : list Event :=
  [EvCachePut (putOf ch).1 (putOf ch).2; EvStored ch (chunkLink ch)].

(** The record of writing the chunks [ws] one after the other. *)
Fixpoint chainEvents (c : Cache) (ws : list (EntryChunk Multihash Cid))
    : list Event :=
  match ws with
  | [] => []
  | ch :: ws' =>
      let evs := growthEvents c ++ writeEvents ch in
      evs ++ chainEvents (replay evs c) ws'
  end.

(** Whether a record holds a resize. *)
Definition resized (evs : list Event) : bool :=
  match resizes evs with
  | [] => false
  | _ :: _ => true
  end.

(** The record of the shrink that ends a run on the cache [c]. *)
Definition shrinkEvents (c : Cache) (wasResized : bool) : list Event :=
  match c with
  | CacheLRU ls => if wasResized then [EvResize (lrustore.Len ls)] else []
  | CacheOther _ => []
  end.

(** The record of a whole run of the generator on the sequence [l]: the
    chain of its batches is written, then the cache is shrunk if it was
    resized. *)
Definition runEvents (c : Cache) (chunkSize : Z) (l : list Multihash)
    : list Event :=
  let evs := chainEvents c (linkChain None (batches chunkSize l)) in
  evs ++ shrinkEvents (replay evs c) (resized evs).

(** Two caches of the same kind: both the LRU store, or both not. *)
Definition sameKind (c c' : Cache) : Prop :=
  match c, c' with
  | CacheLRU _, CacheLRU _ | CacheOther _, CacheOther _ => True
  | _, _ => False
  end.

(** The engine after the recorded calls [evs]. *)
Definition afterEvents (evs : list Event) (e : Engine) : Engine :=
  mkEngine (ds e) (replay evs (cache e)) (cb e) (linkedChunkSize e)
    (contextIDs e) (log e ++ evs).

(** The encoder accepts every chunk, and the cache, when it is not the
    LRU store, accepts every write. *)
Definition EncodeNeverFails : Prop :=
  ∀ ch, ∃ b, encodeChunk ch = Ok b.

Definition PutNeverFails : Prop :=
  ∀ (d : D) (k : Key) (v : slice), (Put d k v).1 = None.

(** The writes into the cache [c] succeed: the LRU store accepts every
    write, any other store has to. *)
Definition PutsSucceed (c : Cache) : Prop :=
  match c with
  | CacheLRU _ => True
  | CacheOther _ => PutNeverFails
  end.

(** A chunk with the link it is stored under. *)
Definition stored (ch : EntryChunk Multihash Cid) : EntryChunk Multihash Cid * Cid :=
  (ch, chunkLink ch).

(** The cache write that stores a chunk under a link. *)
Definition putAt (s : EntryChunk Multihash Cid * Cid) : Key * slice :=
  (cidKey s.2, Buffer_Bytes (chunkBytes s.1)).

(** *** More on the record of a run *)

(** The calls the generator makes: a resize, a cache write, a stored chunk. *)
Definition generatorEvent (ev : Event) : bool :=
  match ev with
  | EvResize _ | EvCachePut _ _ | EvStored _ _ => true
  | EvCacheGet _ | EvCallback _ => false
  end.

Definition cacheGets (evs : list Event) : list Key :=
  omap (fun ev => match ev with EvCacheGet k => Some k | _ => None end) evs.

Definition callbacks (evs : list Event) : list bytes :=
  omap (fun ev => match ev with EvCallback ctx => Some ctx | _ => None end) evs.

(** [evs] records the chunks of the batches [bs], chained from [prev], being
    encoded and stored one after the other, with nothing but calls of the
    generator; the last cache write may be one whose chunk was not stored. *)
Definition recordsChain (evs : list Event) (prev : option Cid)
    (bs : list (list Multihash)) : Prop :=
  Forall (fun ev => generatorEvent ev = true) evs ∧
  storedChunks evs = stored <$> linkChain prev bs ∧
  (putOf <$> linkChain prev bs) `prefix_of` cachePuts evs ∧
  Forall (fun ch => encodeChunk ch = Ok (chunkBytes ch)) (linkChain prev bs).

(** The calls of one read of the main link system for the key [key]: none,
    or a cache lookup followed, after a miss, by the callback and the calls
    of the generator, and then by the lookup that serves the link. *)
Definition readProtocol (key : Key) (evs : list Event) : Prop :=
  evs = [] ∨
  ∃ cbs gen tl,
    evs = [EvCacheGet key] ++ cbs ++ gen ++ tl ∧
    (cbs = [] ∨ ∃ ctx, cbs = [EvCallback ctx]) ∧
    Forall (fun ev => generatorEvent ev = true) gen ∧
    (cbs = [] → gen = []) ∧
    (tl = [] ∨ tl = [EvCacheGet key]).

(** The calls up to the end of the generation, linksystem.go:59-108. *)
Definition fillShape (key : Key) (evs : list Event) : Prop :=
  ∃ cbs gen,
    evs = [EvCacheGet key] ++ cbs ++ gen ∧
    (cbs = [] ∨ ∃ ctx, cbs = [EvCallback ctx]) ∧
    Forall (fun ev => generatorEvent ev = true) gen ∧
    (cbs = [] → gen = []).

(** A store that answers a [Get] after a successful [Put] of the same key
    with the value put. *)
Definition GetAfterPut (S : Type) `{Datastore Key S} : Prop :=
  ∀ (d d' : S) (k : Key) (v : slice),
    Put d k v = (None, d') → (Get d' k).1 = (v, None).
End engine.

Arguments Cache : clear implicits.
Arguments Event : clear implicits.
Arguments Engine : clear implicits.
Arguments Run : clear implicits.
Arguments M : clear implicits.
Arguments LinkSystem : clear implicits.
Arguments LoopState : clear implicits.
Arguments Return {Multihash Cid Key Iter DS D A} a e.
Arguments Fail {Multihash Cid Key Iter DS D A} err e.
Arguments Panic {Multihash Cid Key Iter DS D A} e.
Arguments OutOfFuel {Multihash Cid Key Iter DS D A}.

(** ** A concrete engine

    Stand-ins for the library functions, simple enough to run: a digest that
    is the content itself, links that are the encoded bytes, a length-prefixed
    encoding of entry chunks, and the decoder restricted to the documents
    named here. *)
Module demo.
Definition quote : string := String (Ascii.ascii_of_nat 34) EmptyString.

Definition Sum (s : string) : bytes := String.list_byte_of_string s.

Definition byteOfNat (n : nat) : Byte.byte := default Byte.x00 (Strings.Byte.of_nat n).

Definition encode (ch : EntryChunk bytes bytes) : bytes :=
  byteOfNat (length (Entries ch))
    :: concat (map (fun mh => byteOfNat (length mh) :: mh) (Entries ch))
    ++ default [] (Next_ ch).

(** The empty map. *)
Definition docEmpty : string := "{}".
(** A map whose only field, Signature, is null. *)
Definition docNullSignature : string :=
  "{" +:+ quote +:+ "Signature" +:+ quote +:+ ":null}".
(** A map whose only field, Signature, is a string. *)
Definition docSigned : string :=
  "{" +:+ quote +:+ "Signature" +:+ quote +:+ ":" +:+ quote +:+ "sig" +:+ quote +:+ "}".

Definition decode (b : bytes) : result Node :=
  let s := String.string_of_list_byte b in
  if decide (s = docEmpty) then Ok (NMap [])
  else if decide (s = docNullSignature) then Ok (NMap [("Signature", NNull)])
  else if decide (s = docSigned) then Ok (NMap [("Signature", NString "sig")])
  else Err (ErrOther "unsupported document").

#[global] Instance codecs : Codecs bytes bytes string := {|
  cidKey c := "/" +:+ String.string_of_list_byte c;
  dagjsonDecode := decode;
  encodeChunk ch := Ok (encode ch);
  cidOf b := b
|}.

#[global] Instance iterator : MultihashIterator bytes contentsIter :=
  contentsIter_MultihashIterator Sum.

Abbreviation PubEngine :=
  (Engine bytes bytes string contentsIter (gmap string slice) (gmap string slice)).

(** An engine with an empty log that maps every link to [ctxID]. *)
Definition engine (store : gmap string slice)
    (cache : Cache string (gmap string slice))
    (callback : option (bytes → result contentsIter)) (chunkSize : Z)
    (ctxID : string) : PubEngine :=
  mkEngine store cache callback chunkSize (fun _ => Some (String.list_byte_of_string ctxID)) [].

Definition lru (cap : Z) : Cache string (gmap string slice) :=
  CacheLRU (lrustore.mkLRU cap []).

Definition other : Cache string (gmap string slice) := CacheOther ∅.

Definition five : list string := ["a"; "b"; "c"; "d"; "e"].

(** An iterator that gives scripted answers, then the end of the sequence. *)
Definition scripted : Type := list (result bytes).

#[global] Instance scripted_iterator : MultihashIterator bytes scripted := {|
  Next it :=
    match it with
    | [] => Some (Err EOF, [])
    | r :: it' => Some (r, it')
    end
|}.

(** An engine for scripted iterators, with an empty store and log, no
    callback and no context identifiers. *)
Definition scriptedEngine (cache : Cache string (gmap string slice)) (chunkSize : Z)
    : Engine bytes bytes string scripted (gmap string slice) (gmap string slice) :=
  mkEngine ∅ cache None chunkSize (fun _ => None) [].

(** The link used for lookups that no chunk is stored under. *)
Definition zz : bytes := String.list_byte_of_string "zz".

(** The persistent store holds the empty map, which is not an
    advertisement, under the link [zz]. *)
Definition storeWithPlainObject : gmap string slice :=
  {[ cidKey zz := Some (String.list_byte_of_string docEmpty) ]}.

Definition plainObjectEngine : PubEngine :=
  engine storeWithPlainObject (lru 2) None 2 "ctx".

(** The store and the cache both hold a zero-length value under [zz], and
    the lister of the [pub] command is registered. *)
Definition storeWithEmptyValue : gmap string slice := {[ cidKey zz := Some [] ]}.

Definition cacheWithEmptyValue : Cache string (gmap string slice) :=
  CacheLRU (lrustore.mkLRU 2 [(cidKey zz, Some [])]).

Definition emptyValueEngine : PubEngine :=
  engine storeWithEmptyValue cacheWithEmptyValue (Some (pubLister "ctx" five)) 2 "ctx".

(** An error of the iterator that is not the end of the sequence. *)
Definition boom : error := ErrOther "boom".

(** The persistent store holds a signed map under the link [zz]. *)
Definition advertisementEngine : PubEngine :=
  engine {[ cidKey zz := Some (String.list_byte_of_string docSigned) ]}
    (lru 2) None 2 "ctx".
(** An engine with an empty store, an empty LRU cache of capacity 2, chunks
    of two multihashes and no callback, and the engine that the generator
    leaves when it has run on it over the five contents. *)
Definition fiveEngine : PubEngine := engine ∅ (lru 2) None 2 "ctx".

Definition afterFive : PubEngine :=
  default fiveEngine (engineOf (generateChunks 6 (mkContentsIter 0 five) fiveEngine)).

(** The same engine with the lister of the [pub] command registered, the
    first chunk of the five contents, and the engine after a read of the
    link of that chunk. *)
Definition pubEngine : PubEngine :=
  engine ∅ (lru 2) (Some (pubLister "ctx" five)) 2 "ctx".

Definition firstOfFive : EntryChunk bytes bytes :=
  mkEntryChunk [Sum "a"; Sum "b"] None.

Definition afterRead : PubEngine :=
  default pubEngine
    (engineOf (StorageReadOpener mkLinkSystem 6 (chunkLink firstOfFive) pubEngine)).

(** Every link is mapped to a context identifier that the lister does not
    serve. *)
Definition strangerEngine : PubEngine :=
  engine ∅ (lru 2) (Some (pubLister "ctx" five)) 2 "nope".

(** The cache holds bytes under the link [zz]; the persistent store is
    empty. *)
Definition cachedEngine : PubEngine :=
  engine ∅ (CacheLRU (lrustore.mkLRU 2 [(cidKey zz, Some zz)]))
    (Some (pubLister "ctx" five)) 2 "ctx".

(** The persistent store holds bytes that do not decode under the link
    [zz]. *)
Definition garbageEngine : PubEngine :=
  engine {[ cidKey zz := Some zz ]} (lru 2) None 2 "ctx".

(** The engine with chunks of one multihash. *)
Definition singlesEngine : PubEngine := engine ∅ (lru 2) None 1 "ctx".
End demo.

(** ** The classifier *)

(** C5, as the code has it. [isAdvertisement] answers true exactly for a map
    node that has a top-level entry named Signature, whatever its value: a
    node without that field gives false, and a Signature that is the null node
    gives true, since the lookup then returns the null node and not nil. *)
Theorem isAdvertisement_field_present (n : Node) :
  (isAdvertisement n = true ↔
     ∃ m v, n = NMap m ∧ mapLookup m "Signature" = Some v) ∧
  ((LookupByString n "Signature").1 = None → isAdvertisement n = false) ∧
  (∀ m, n = NMap m → mapLookup m "Signature" = Some NNull →
        isAdvertisement n = true).
Proof.
  split_and!.
  - unfold isAdvertisement, LookupByString. split.
    + destruct n as [| | | | | | |m|]; try done.
      destruct (mapLookup m "Signature") as [v|] eqn:Hm; [eauto|done].
    + intros (m & v & -> & Hm). by rewrite Hm.
  - unfold isAdvertisement. by destruct (LookupByString n "Signature") as [[v|] err].
  - intros m -> Hm. unfold isAdvertisement, LookupByString. by rewrite Hm.
Qed.

Section properties.
Context {Multihash Cid Key : Type} `{EqDecision Key}.
Context {Iter : Type} `{!MultihashIterator Multihash Iter}.
Context {DS : Type} `{!Datastore Key DS}.
Context {D : Type} `{!Datastore Key D}.
Context `{!Codecs Multihash Cid Key}.

Local Abbreviation Engine := (Engine Multihash Cid Key Iter DS D).
Local Abbreviation Event := (Event Multihash Cid Key).
Local Abbreviation Cache := (Cache Key D).
Local Abbreviation Chunk := (EntryChunk Multihash Cid).
Local Abbreviation growthEvents := (growthEvents (Multihash:=Multihash) (Cid:=Cid)).
Local Abbreviation shrinkEvents := (shrinkEvents (Multihash:=Multihash) (Cid:=Cid)).
Local Abbreviation LRU := (CacheLRU (Key:=Key) (D:=D)).

Implicit Types (e : Engine) (evs : list Event) (c : Cache) (ch : Chunk)
  (ws : list Chunk) (l buf : list Multihash) (k : Z).

(** *** Records *)

Lemma storedChunks_app evs1 evs2 :
  storedChunks (evs1 ++ evs2) = storedChunks evs1 ++ storedChunks evs2.
Proof. apply omap_app. Qed.

Lemma cachePuts_app evs1 evs2 :
  cachePuts (evs1 ++ evs2) = cachePuts evs1 ++ cachePuts evs2.
Proof. apply omap_app. Qed.

Lemma resizes_app evs1 evs2 :
  resizes (evs1 ++ evs2) = resizes evs1 ++ resizes evs2.
Proof. apply omap_app. Qed.

Lemma resized_app evs1 evs2 :
  resized (evs1 ++ evs2) = resized evs1 || resized evs2.
Proof.
  unfold resized. rewrite resizes_app.
  destruct (resizes evs1); simpl; [|done]. by destruct (resizes evs2).
Qed.

Lemma replay_app evs1 evs2 c :
  replay (evs1 ++ evs2) c = replay evs2 (replay evs1 c).
Proof. apply foldl_app. Qed.

Lemma afterEvents_nil e : afterEvents [] e = e.
Proof. destruct e. unfold afterEvents. simpl. by rewrite app_nil_r. Qed.

Lemma afterEvents_app evs1 evs2 e :
  afterEvents evs2 (afterEvents evs1 e) = afterEvents (evs1 ++ evs2) e.
Proof. unfold afterEvents. simpl. by rewrite replay_app, app_assoc. Qed.

Lemma replay_sameKind evs c : sameKind c (replay evs c).
Proof.
  revert c. induction evs as [|ev evs IH]; intros c; simpl.
  - by destruct c.
  - specialize (IH (applyEvent c ev)).
    destruct c, ev; simpl in *; done.
Qed.

(** *** The steps of the generator *)

Lemma growIfFull_run rz e :
  growIfFull rz e =
    Return (rz || resized (growthEvents (cache e)))
      (afterEvents (growthEvents (cache e)) e).
Proof.
  unfold growIfFull, growthEvents.
  destruct e as [d c cbk k ctx lg]; simpl. destruct c as [ls|o]; simpl.
  - destruct (lrustore.Len ls =? lrustore.Cap ls); simpl.
    + rewrite orb_true_r. reflexivity.
    + rewrite orb_false_r. unfold afterEvents. simpl. by rewrite app_nil_r.
  - rewrite orb_false_r. unfold afterEvents. simpl. by rewrite app_nil_r.
Qed.

Lemma cachePut_run key v e :
  cachePut key v e =
    ((match cache e with
      | CacheLRU _ => None
      | CacheOther d => (Put d key v).1
      end), afterEvents [EvCachePut key v] e).
Proof.
  unfold cachePut, afterEvents. destruct e as [d c cbk k ctx lg]; simpl.
  destruct c as [ls|o]; simpl; [done|].
  by destruct (Put o key v).
Qed.

Lemma cacheGet_run key e :
  cacheGet key e =
    ((match cache e with
      | CacheLRU ls => (Get ls key).1
      | CacheOther d => (Get d key).1
      end), afterEvents [EvCacheGet key] e).
Proof.
  unfold cacheGet, afterEvents. destruct e as [d c cbk k ctx lg]; simpl.
  destruct c as [ls|o]; simpl.
  - by destruct (lrustore.lruGet ls key).
  - by destruct (Get o key).
Qed.

Lemma chunkBytes_ok ch : EncodeNeverFails → encodeChunk ch = Ok (chunkBytes ch).
Proof. intros Henc. unfold chunkBytes. by destruct (Henc ch) as [b ->]. Qed.

Lemma PutsSucceed_replay evs c : PutsSucceed c → PutsSucceed (replay evs c).
Proof.
  intros Hput. pose proof (replay_sameKind evs c) as Hk.
  destruct c, (replay evs _); done.
Qed.

Lemma NewLinkedListOfMhs_run mhs prev e :
  EncodeNeverFails → PutsSucceed (cache e) →
  NewLinkedListOfMhs cacheLinkSystem mhs prev e =
    Return (chunkLink (mkEntryChunk mhs prev))
      (afterEvents (writeEvents (mkEntryChunk mhs prev)) e).
Proof.
  intros Henc Hput. unfold NewLinkedListOfMhs.
  rewrite (chunkBytes_ok _ Henc). simpl.
  rewrite cachePut_run.
  assert (match cache e with
          | CacheLRU _ => None
          | CacheOther d =>
              (Put d (cidKey (cidOf (chunkBytes (mkEntryChunk mhs prev))))
                 (Buffer_Bytes (chunkBytes (mkEntryChunk mhs prev)))).1
          end = None) as ->.
  { destruct (cache e); [done|apply Hput]. }
  unfold writeEvents, putOf, chunkLink. simpl.
  f_equal. unfold afterEvents, logEvent. simpl. by rewrite <- app_assoc.
Qed.

Lemma lastLink_cons prev ch ws :
  lastLink prev (ch :: ws) = lastLink (Some (chunkLink ch)) ws.
Proof. unfold lastLink. rewrite last_cons. by destruct (last ws). Qed.

Lemma resized_writeEvents ch : resized (writeEvents ch) = false.
Proof. reflexivity. Qed.

(** The loop of the generator on an iterator that produces [l] and then
    [fin]: the full batches cut from the buffer and [l] are written as a
    chain, and the loop ends normally on [EOF] and with the error
    otherwise. *)
Lemma generateChunks_loop_run k it l fin :
  EncodeNeverFails →
  produces it l fin →
  ∀ fuel buf lnk rz e,
    PutsSucceed (cache e) →
    (length l < fuel)%nat →
    let ws := linkChain lnk (cut k buf l).1 in
    let evs := chainEvents (cache e) ws in
    generateChunks_loop fuel k it (mkLoopState buf lnk rz) e =
      if decide (fin = EOF) then
        Return (mkLoopState (cut k buf l).2 (lastLink lnk ws) (rz || resized evs))
          (afterEvents evs e)
      else Fail fin (afterEvents evs e).
Proof.
  intros Henc Hprod.
  induction Hprod as [it fin it' Hnext|it mh it' l fin Hnext Hprod IH];
    intros fuel buf lnk rz e Hput Hfuel; (destruct fuel as [|fuel]; [simpl in Hfuel; lia|]).
  - simpl. rewrite Hnext. rewrite afterEvents_nil, orb_false_r.
    by destruct (decide (fin = EOF)).
  - simpl in Hfuel. cbn [generateChunks_loop]. rewrite Hnext. cbn [ls_mhs ls_chunkLnk ls_resized].
    cbn [cut]. destruct (k <=? Z.of_nat (length (buf ++ [mh]))) eqn:Hfull.
    + destruct (cut k [] l) as [bs r] eqn:Hcut. cbn [fst snd linkChain chainEvents].
      unfold bind at 1. rewrite growIfFull_run.
      unfold bind at 1. rewrite NewLinkedListOfMhs_run by (try apply PutsSucceed_replay; done).
      rewrite afterEvents_app.
      rewrite (IH fuel [] _ _ (afterEvents _ e) (PutsSucceed_replay _ _ Hput) ltac:(lia)).
      rewrite Hcut. cbn [fst snd cache afterEvents].
      rewrite lastLink_cons, afterEvents_app.
      rewrite !resized_app, resized_writeEvents, orb_false_r, orb_assoc.
      reflexivity.
    + rewrite (IH fuel _ _ _ _ Hput ltac:(lia)). reflexivity.
Qed.

Lemma lastLink_app prev ws1 ws2 :
  lastLink prev (ws1 ++ ws2) = lastLink (lastLink prev ws1) ws2.
Proof.
  revert prev. induction ws1 as [|ch ws1 IH]; intros prev; [done|].
  simpl. by rewrite !lastLink_cons, IH.
Qed.

Lemma linkChain_app prev bs1 bs2 :
  linkChain prev (bs1 ++ bs2) =
    linkChain prev bs1 ++ linkChain (lastLink prev (linkChain prev bs1)) bs2.
Proof.
  revert prev. induction bs1 as [|b bs1 IH]; intros prev; [done|].
  simpl. by rewrite IH, lastLink_cons.
Qed.

Lemma chainEvents_app c ws1 ws2 :
  chainEvents c (ws1 ++ ws2) =
    chainEvents c ws1 ++ chainEvents (replay (chainEvents c ws1) c) ws2.
Proof.
  revert c. induction ws1 as [|ch ws1 IH]; intros c; [done|].
  change ((ch :: ws1) ++ ws2) with (ch :: (ws1 ++ ws2)).
  cbn [chainEvents]. rewrite IH, <- !app_assoc, !replay_app. reflexivity.
Qed.

Lemma generateChunks_rest_run r lnk rz e :
  EncodeNeverFails → PutsSucceed (cache e) →
  let ws := linkChain lnk (leftover r) in
  let evs := chainEvents (cache e) ws in
  generateChunks_rest (mkLoopState r lnk rz) e =
    Return (mkLoopState r (lastLink lnk ws) (rz || resized evs)) (afterEvents evs e).
Proof.
  intros Henc Hput. unfold generateChunks_rest. destruct r as [|mh r]; simpl.
  - by rewrite afterEvents_nil, orb_false_r.
  - unfold bind at 1. rewrite growIfFull_run.
    unfold bind at 1. rewrite NewLinkedListOfMhs_run by (try apply PutsSucceed_replay; done).
    rewrite afterEvents_app, app_nil_r.
    rewrite resized_app, resized_writeEvents, orb_false_r.
    reflexivity.
Qed.

Lemma chainEvents_other d ws :
  resized (chainEvents (CacheOther d) ws) = false.
Proof.
  revert d. induction ws as [|ch ws IH]; intros d; [done|].
  cbn [chainEvents growthEvents app]. rewrite resized_app, resized_writeEvents.
  simpl. apply IH.
Qed.

Lemma generateChunks_shrink_run rz e :
  (rz = true → ∃ ls, cache e = CacheLRU ls) →
  generateChunks_shrink rz e = Return tt (afterEvents (shrinkEvents (cache e) rz) e).
Proof.
  intros Hlru. unfold generateChunks_shrink, shrinkEvents. destruct rz.
  - destruct Hlru as [ls Hls]; [done|]. rewrite Hls.
    unfold afterEvents, logEvent, withCache. simpl. by rewrite Hls.
  - destruct (cache e); by rewrite afterEvents_nil.
Qed.

Lemma resized_LRU c ws :
  resized (chainEvents c ws) = true → ∃ ls, replay (chainEvents c ws) c = CacheLRU ls.
Proof.
  intros Hrz. destruct c as [ls|d].
  - pose proof (replay_sameKind (chainEvents (CacheLRU ls) ws) (CacheLRU ls)) as Hk.
    destruct (replay _ _); [eauto|done].
  - by rewrite chainEvents_other in Hrz.
Qed.

(** A whole run of the generator on an iterator that produces [l] and then
    the end of the sequence. *)
Lemma generateChunks_run it l fuel e :
  EncodeNeverFails → PutsSucceed (cache e) →
  0 ≤ linkedChunkSize e →
  produces it l EOF →
  (length l < fuel)%nat →
  generateChunks fuel it e =
    Return (lastLink None (linkChain None (batches (linkedChunkSize e) l)))
      (afterEvents (runEvents (cache e) (linkedChunkSize e) l) e).
Proof.
  intros Henc Hput Hk Hprod Hfuel. unfold generateChunks, runEvents, batches.
  destruct (Z.ltb_spec (linkedChunkSize e) 0) as [?|_]; [lia|].
  unfold bind at 1.
  rewrite (generateChunks_loop_run _ _ _ _ Henc Hprod _ _ _ _ _ Hput Hfuel).
  destruct (cut (linkedChunkSize e) [] l) as [bs r]. cbn [fst snd].
  rewrite decide_True by done.
  unfold bind at 1.
  rewrite (generateChunks_rest_run _ _ _ (afterEvents _ e) Henc (PutsSucceed_replay _ _ Hput)).
  cbn [cache afterEvents ls_resized ls_chunkLnk].
  rewrite !linkChain_app, !chainEvents_app, lastLink_app, resized_app, replay_app.
  rewrite afterEvents_app, orb_false_l.
  set (ws1 := linkChain None bs).
  set (ws2 := linkChain (lastLink None ws1) (leftover r)).
  unfold bind at 1. rewrite generateChunks_shrink_run.
  - cbn [cache afterEvents]. by rewrite afterEvents_app, replay_app.
  - cbn [cache afterEvents]. rewrite <- resized_app, <- chainEvents_app.
    apply resized_LRU.
Qed.

(** The failing run: the error of the iterator comes back at once. *)
Lemma generateChunks_abort it l err fuel e :
  EncodeNeverFails → PutsSucceed (cache e) →
  0 ≤ linkedChunkSize e →
  produces it l err → err ≠ EOF →
  (length l < fuel)%nat →
  generateChunks fuel it e =
    Fail err
      (afterEvents
         (chainEvents (cache e) (linkChain None (cut (linkedChunkSize e) [] l).1)) e).
Proof.
  intros Henc Hput Hk Hprod Herr Hfuel. unfold generateChunks.
  destruct (Z.ltb_spec (linkedChunkSize e) 0) as [?|_]; [lia|].
  unfold bind at 1.
  rewrite (generateChunks_loop_run _ _ _ _ Henc Hprod _ _ _ _ _ Hput Hfuel).
  by rewrite decide_False.
Qed.

(** *** What the records hold *)

Lemma storedChunks_chainEvents c ws :
  storedChunks (chainEvents c ws) = stored <$> ws.
Proof.
  revert c. induction ws as [|ch ws IH]; intros c; [done|].
  cbn [chainEvents]. rewrite !storedChunks_app, IH.
  by destruct c as [ls|d]; simpl; [destruct (_ =? _)|].
Qed.

Lemma cachePuts_chainEvents c ws :
  cachePuts (chainEvents c ws) = putOf <$> ws.
Proof.
  revert c. induction ws as [|ch ws IH]; intros c; [done|].
  cbn [chainEvents]. rewrite !cachePuts_app, IH.
  by destruct c as [ls|d]; simpl; [destruct (_ =? _)|].
Qed.

Lemma storedChunks_shrinkEvents c rz : storedChunks (shrinkEvents c rz) = [].
Proof. by destruct c, rz. Qed.

Lemma cachePuts_shrinkEvents c rz : cachePuts (shrinkEvents c rz) = [].
Proof. by destruct c, rz. Qed.

Lemma storedChunks_runEvents c k l :
  storedChunks (runEvents c k l) = stored <$> linkChain None (batches k l).
Proof.
  unfold runEvents.
  by rewrite storedChunks_app, storedChunks_chainEvents, storedChunks_shrinkEvents, app_nil_r.
Qed.

Lemma cachePuts_runEvents c k l :
  cachePuts (runEvents c k l) = putOf <$> linkChain None (batches k l).
Proof.
  unfold runEvents.
  by rewrite cachePuts_app, cachePuts_chainEvents, cachePuts_shrinkEvents, app_nil_r.
Qed.

(** *** The chain *)

Lemma linkChain_length prev bs : length (linkChain prev bs) = length bs.
Proof. revert prev. induction bs as [|b bs IH]; intros prev; simpl; [done|]. by rewrite IH. Qed.

Lemma linkChain_Entries prev bs : Entries <$> linkChain prev bs = bs.
Proof. revert prev. induction bs as [|b bs IH]; intros prev; simpl; [done|]. by rewrite IH. Qed.

Lemma linkChain_head prev bs ch :
  head (linkChain prev bs) = Some ch → Next_ ch = prev.
Proof. destruct bs; simpl; [done|]. by intros [= <-]. Qed.

Lemma linkChain_next prev bs i ch ch' :
  linkChain prev bs !! i = Some ch →
  linkChain prev bs !! S i = Some ch' →
  Next_ ch' = Some (chunkLink ch).
Proof.
  revert prev i. induction bs as [|b bs IH]; intros prev i; [done|].
  destruct i as [|i]; simpl.
  - intros [= <-] Hch'. apply (linkChain_head _ bs). by destruct (linkChain _ bs).
  - apply IH.
Qed.

Lemma lastLink_last prev ws :
  lastLink prev ws = match last ws with Some ch => Some (chunkLink ch) | None => prev end.
Proof. reflexivity. Qed.

(** *** The batches *)

Lemma cut_spec k l :
  0 < k →
  ∀ buf, Z.of_nat (length buf) < k →
  Forall (λ b, Z.of_nat (length b) = k) (cut k buf l).1 ∧
  Z.of_nat (length (cut k buf l).2) < k ∧
  concat (cut k buf l).1 ++ (cut k buf l).2 = buf ++ l.
Proof.
  intros Hk. induction l as [|mh l IH]; intros buf Hbuf; cbn [cut].
  - simpl. by rewrite app_nil_r.
  - assert (Z.of_nat (length (buf ++ [mh])) = Z.of_nat (length buf) + 1) as Hlen.
    { rewrite length_app. simpl. lia. }
    destruct (Z.leb_spec k (Z.of_nat (length (buf ++ [mh])))) as [Hfull|Hnot].
    + destruct (IH [] ltac:(simpl; lia)) as (Hall & Hr & Hcat).
      destruct (cut k [] l) as [bs r]. cbn [fst snd] in *.
      split_and!; [constructor; [lia|done]|done|].
      simpl. rewrite <- !app_assoc, Hcat. done.
    + destruct (IH (buf ++ [mh]) ltac:(lia)) as (Hall & Hr & Hcat).
      split_and!; [done..|]. by rewrite Hcat, <- app_assoc.
Qed.

Lemma concat_length_uniform (bs : list (list Multihash)) k :
  Forall (λ b, Z.of_nat (length b) = k) bs →
  Z.of_nat (length (concat bs)) = k * Z.of_nat (length bs).
Proof.
  induction 1 as [|b bs Hb _ IH]; simpl; [lia|].
  rewrite length_app. lia.
Qed.

(** The number of full batches and the size of the leftover. *)
Lemma cut_count k l :
  0 < k →
  Z.of_nat (length (cut k [] l).1) = Z.of_nat (length l) / k ∧
  Z.of_nat (length (cut k [] l).2) = Z.of_nat (length l) mod k.
Proof.
  intros Hk. destruct (cut_spec k l Hk [] ltac:(simpl; lia)) as (Hall & Hr & Hcat).
  apply concat_length_uniform in Hall.
  assert (Z.of_nat (length l) =
          k * Z.of_nat (length (cut k [] l).1) + Z.of_nat (length (cut k [] l).2)) as Hn.
  { rewrite <- Hall, <- Nat2Z.inj_add, <- length_app, Hcat. done. }
  split.
  - apply (Z.div_unique _ _ _ (Z.of_nat (length (cut k [] l).2))); lia.
  - apply (Z.mod_unique _ _ (Z.of_nat (length (cut k [] l).1))); lia.
Qed.

Lemma batches_length k l :
  0 < k →
  Z.of_nat (length (batches k l)) = (Z.of_nat (length l) + k - 1) / k.
Proof.
  intros Hk. destruct (cut_count k l Hk) as [Hq Hr]. unfold batches.
  destruct (cut k [] l) as [bs r]. cbn [fst snd] in *.
  rewrite length_app, Nat2Z.inj_add, Hq.
  pose proof (Z.div_mod (Z.of_nat (length l)) k ltac:(lia)) as Hdm.
  pose proof (Z.mod_pos_bound (Z.of_nat (length l)) k Hk) as Hb.
  destruct r as [|mh r]; simpl length in *.
  - apply (Z.div_unique _ _ _ (k - 1)); lia.
  - apply (Z.div_unique _ _ _ (Z.of_nat (length l) mod k - 1)); lia.
Qed.

Lemma batches_nonempty k l : l ≠ [] → 0 < k → batches k l ≠ [].
Proof.
  intros Hl Hk Hb. pose proof (batches_length k l Hk) as Hlen.
  rewrite Hb in Hlen. simpl in Hlen.
  destruct l as [|mh l]; [done|]. simpl length in Hlen.
  assert (1 ≤ (Z.of_nat (S (length l)) + k - 1) / k); [|lia].
  apply Z.div_le_lower_bound; lia.
Qed.

Lemma batches_concat k l : 0 < k → concat (batches k l) = l.
Proof.
  intros Hk. destruct (cut_spec k l Hk [] ltac:(simpl; lia)) as (_ & _ & Hcat).
  unfold batches. destruct (cut k [] l) as [bs r]. cbn [fst snd] in *.
  simpl in Hcat. rewrite concat_app. rewrite <- Hcat. f_equal.
  destruct r; simpl; [done|]. by rewrite app_nil_r.
Qed.

Lemma last_fmap_stored ws : last (stored <$> ws) = stored <$> last ws.
Proof. apply fmap_last. Qed.

(** C2. For a sequence of n > 0 multihashes and a chunk size k > 0 the
    generator stores exactly ceil(n/k) chunks, each through a write into the
    cache under its link; the chunk stored first has no previous link, every
    later chunk links to the chunk stored just before it, and the link
    returned is the link of the chunk stored last. *)
Theorem generateChunks_writes_chain (it : Iter) l (fuel : nat) e :
  EncodeNeverFails → PutsSucceed (cache e) →
  0 < linkedChunkSize e → l ≠ [] →
  produces it l EOF → (length l < fuel)%nat →
  ∃ e' evs root,
    generateChunks fuel it e = Return (Some root) e' ∧
    log e' = log e ++ evs ∧
    let ss := storedChunks evs in
    cachePuts evs = putAt <$> ss ∧
    Forall (λ s, s.2 = chunkLink s.1) ss ∧
    Z.of_nat (length ss) =
      (Z.of_nat (length l) + linkedChunkSize e - 1) / linkedChunkSize e ∧
    (∀ ch lnk, head ss = Some (ch, lnk) → Next_ ch = None) ∧
    (∀ i ch lnk ch' lnk',
       ss !! i = Some (ch, lnk) → ss !! S i = Some (ch', lnk') →
       Next_ ch' = Some lnk) ∧
    (∃ ch, last ss = Some (ch, root)) ∧
    concat ((Entries ∘ fst) <$> ss) = l.
Proof.
  intros Henc Hput Hk Hl Hprod Hfuel.
  pose proof (generateChunks_run it l fuel e Henc Hput ltac:(lia) Hprod Hfuel) as Hrun.
  pose proof (storedChunks_runEvents (cache e) (linkedChunkSize e) l) as Hst.
  pose proof (cachePuts_runEvents (cache e) (linkedChunkSize e) l) as Hputs.
  pose proof (batches_length (linkedChunkSize e) l Hk) as Hlen.
  pose proof (batches_concat (linkedChunkSize e) l Hk) as Hcat.
  pose proof (batches_nonempty (linkedChunkSize e) l Hl Hk) as Hne.
  rewrite <- (linkChain_length None) in Hlen.
  rewrite <- (linkChain_Entries None (batches _ l)) in Hcat.
  assert (linkChain None (batches (linkedChunkSize e) l) ≠ []) as Hne'.
  { intros Hnil. apply (f_equal length) in Hnil. rewrite linkChain_length in Hnil.
    by destruct (batches _ l). }
  pose proof (linkChain_head None (batches (linkedChunkSize e) l)) as Hhead.
  pose proof (linkChain_next None (batches (linkedChunkSize e) l)) as Hnext.
  set (k := linkedChunkSize e) in *.
  remember (linkChain None (batches k l)) as ws eqn:Hws. clear Hws Hne.
  assert (∃ wl, last ws = Some wl) as [wl Hwl].
  { destruct (last ws) eqn:Hlast; [eauto|]. by apply last_None in Hlast. }
  exists (afterEvents (runEvents (cache e) k l) e), (runEvents (cache e) k l), (chunkLink wl).
  split; [by rewrite Hrun, lastLink_last, Hwl|].
  split; [done|]. cbn zeta. rewrite Hst, Hputs.
  split_and!.
  - rewrite <- list_fmap_compose. by apply list_fmap_ext.
  - by apply Forall_fmap, Forall_true.
  - by rewrite length_fmap.
  - intros ch lnk Hhd. apply Hhead. destruct ws as [|w ws']; [done|].
    simpl in Hhd. by injection Hhd as <- _.
  - intros i ch lnk ch' lnk'. rewrite !list_lookup_fmap.
    destruct (ws !! i) as [w|] eqn:Hi; [|done].
    destruct (ws !! S i) as [w'|] eqn:HSi; [|done].
    simpl. intros [= <- <-] [= <- <-]. by eapply Hnext.
  - exists wl. by rewrite last_fmap_stored, Hwl.
  - rewrite <- list_fmap_compose. exact Hcat.
Qed.

Lemma batches_sizes k l :
  0 < k → Z.of_nat (length l) mod k ≠ 0 →
  ∃ bs r, batches k l = bs ++ [r] ∧
    Forall (λ b, Z.of_nat (length b) = k) bs ∧
    Z.of_nat (length r) = Z.of_nat (length l) mod k.
Proof.
  intros Hk Hmod. destruct (cut_spec k l Hk [] ltac:(simpl; lia)) as (Hall & _ & _).
  destruct (cut_count k l Hk) as [_ Hr]. unfold batches.
  destruct (cut k [] l) as [bs r]. cbn [fst snd] in *.
  exists bs, r. split_and!; [|done..].
  destruct r; [simpl in Hr; lia|done].
Qed.

(** C3, as the code has it. When k does not divide n, the chunk stored last
    (the head) holds the n mod k leftover multihashes and every chunk stored
    before it holds exactly k. For a chunk size of 2 and 5 multihashes the
    three chunks have sizes 2, 2, 1 in the order they are written, and the
    returned link reaches all three through the previous links, the first
    chunk having none. *)
Theorem generateChunks_leftover_last (it : Iter) l (fuel : nat) e :
  EncodeNeverFails → PutsSucceed (cache e) →
  0 < linkedChunkSize e →
  Z.of_nat (length l) mod linkedChunkSize e ≠ 0 →
  produces it l EOF → (length l < fuel)%nat →
  ∃ e' evs root,
    generateChunks fuel it e = Return (Some root) e' ∧
    log e' = log e ++ evs ∧
    let ss := storedChunks evs in
    (∀ i ch lnk, ss !! i = Some (ch, lnk) →
       Z.of_nat (length (Entries ch)) =
         if decide (S i = length ss) then Z.of_nat (length l) mod linkedChunkSize e
         else linkedChunkSize e) ∧
    (linkedChunkSize e = 2 → length l = 5%nat →
       ∃ ch1 ch2 ch3 lnk1 lnk2,
         ss = [(ch1, lnk1); (ch2, lnk2); (ch3, root)] ∧
         length (Entries ch1) = 2%nat ∧ length (Entries ch2) = 2%nat ∧
         length (Entries ch3) = 1%nat ∧
         Next_ ch3 = Some lnk2 ∧ Next_ ch2 = Some lnk1 ∧ Next_ ch1 = None).
Proof.
  intros Henc Hput Hk Hmod Hprod Hfuel.
  pose proof (generateChunks_run it l fuel e Henc Hput ltac:(lia) Hprod Hfuel) as Hrun.
  pose proof (storedChunks_runEvents (cache e) (linkedChunkSize e) l) as Hst.
  destruct (batches_sizes _ l Hk Hmod) as (bs & r & Hb & Hall & Hr).
  set (k := linkedChunkSize e) in *.
  set (ws := linkChain None (batches k l)) in *.
  assert (∃ wl, last ws = Some wl) as [wl Hwl].
  { destruct (last ws) eqn:Hlast; [eauto|]. apply last_None in Hlast.
    apply (f_equal length) in Hlast. unfold ws in Hlast.
    rewrite linkChain_length, Hb, length_app in Hlast. simpl in Hlast. lia. }
  exists (afterEvents (runEvents (cache e) k l) e), (runEvents (cache e) k l), (chunkLink wl).
  split; [by rewrite Hrun, lastLink_last, Hwl|].
  split; [done|]. cbn zeta. rewrite Hst. split.
  - intros i ch lnk. rewrite length_fmap, list_lookup_fmap.
    destruct (ws !! i) as [w|] eqn:Hi; [|done]. simpl. intros [= <- <-].
    assert ((Entries <$> ws) !! i = Some (Entries w)) as Hei
      by (by rewrite list_lookup_fmap, Hi).
    unfold ws in Hei |- *. rewrite linkChain_Entries, Hb in Hei.
    rewrite linkChain_length, Hb, length_app. simpl length.
    apply lookup_app_Some in Hei as [Hin|[Hge Hlast]].
    + apply lookup_lt_Some in Hin as Hlt.
      rewrite decide_False by lia.
      by eapply (Forall_lookup_1 _ _ _ _ Hall).
    + destruct (i - length bs)%nat as [|j] eqn:Hj; [|done].
      simpl in Hlast. injection Hlast as <-.
      rewrite decide_True by lia. done.
  - intros Hk2 Hl5. clear Hrun Hst Hall Hb Hr.
    unfold ws in *. rewrite Hk2 in *.
    destruct l as [|m1 [|m2 [|m3 [|m4 [|m5 [|m6 l]]]]]]; try done.
    vm_compute in Hwl. injection Hwl as <-.
    do 5 eexists. split; [reflexivity|]. by split_and!.
Qed.

(** *** Runs that may fail *)

Lemma NewLinkedListOfMhs_any mhs prev e :
  ∃ evs, resized evs = false ∧
    match NewLinkedListOfMhs cacheLinkSystem mhs prev e with
    | Return _ e' | Fail _ e' | Panic e' => e' = afterEvents evs e
    | OutOfFuel => False
    end.
Proof.
  unfold NewLinkedListOfMhs. destruct (encodeChunk _) as [b|er].
  - simpl. rewrite cachePut_run.
    destruct (match cache e with CacheLRU _ => None | CacheOther d => _ end).
    + by exists [EvCachePut (cidKey (cidOf b)) (Buffer_Bytes b)].
    + exists [EvCachePut (cidKey (cidOf b)) (Buffer_Bytes b);
              EvStored (mkEntryChunk mhs prev) (cidOf b)].
      split; [done|]. unfold afterEvents, logEvent. simpl. by rewrite <- app_assoc.
  - exists []. by rewrite afterEvents_nil.
Qed.

Lemma growthEvents_other c d : c = CacheOther d → resized (growthEvents c) = false.
Proof. by intros ->. Qed.

Lemma replay_other evs c d : c = CacheOther d → ∃ d', replay evs c = CacheOther d'.
Proof.
  intros ->. pose proof (replay_sameKind evs (CacheOther d)) as Hk.
  destruct (replay evs _); [done|eauto].
Qed.

(** What a run of the loop leaves behind, however it ends: the engine after
    some record, without a resize when the cache is not the LRU store, and
    with the [resized] flag set exactly when the record holds a resize. *)
Lemma generateChunks_loop_any fuel k it st e :
  match generateChunks_loop fuel k it st e with
  | Return st' e' =>
      ∃ evs, e' = afterEvents evs e ∧
        (∀ d, cache e = CacheOther d → resized evs = false) ∧
        ls_resized st' = ls_resized st || resized evs
  | Fail _ e' | Panic e' =>
      ∃ evs, e' = afterEvents evs e ∧
        (∀ d, cache e = CacheOther d → resized evs = false)
  | OutOfFuel => True
  end.
Proof.
  revert it st e. induction fuel as [|fuel IH]; intros it st e; [done|].
  cbn [generateChunks_loop].
  destruct (Next it) as [[[next|err] it']|].
  - destruct (_ <=? _).
    + unfold bind at 1. rewrite growIfFull_run. unfold bind at 1.
      destruct (NewLinkedListOfMhs_any (ls_mhs st ++ [next]) (ls_chunkLnk st)
                  (afterEvents (growthEvents (cache e)) e)) as (w & Hw & Hrun).
      destruct (NewLinkedListOfMhs _ _ _ _) as [lnk e1|er e1|e1|]; [|..|done].
      * subst e1. rewrite afterEvents_app.
        specialize (IH it' (mkLoopState [] (Some lnk)
                       (ls_resized st || resized (growthEvents (cache e))))
                      (afterEvents (growthEvents (cache e) ++ w) e)).
        assert (∀ evs d, cache e = CacheOther d →
                  (∀ d', cache (afterEvents (growthEvents (cache e) ++ w) e) = CacheOther d' →
                         resized evs = false) →
                  resized ((growthEvents (cache e) ++ w) ++ evs) = false) as Hoth.
        { intros evs d Hd Hevs. rewrite !resized_app, Hw, (growthEvents_other _ d Hd).
          destruct (replay_other (growthEvents (cache e) ++ w) _ d Hd) as [d' Hd'].
          simpl. by apply (Hevs d'). }
        destruct (generateChunks_loop _ _ _ _ _) as [st' e'|er e'|e'|]; [| | |done].
        -- destruct IH as (evs & -> & Ho & Hrz). cbn [ls_resized] in Hrz.
           exists ((growthEvents (cache e) ++ w) ++ evs). rewrite afterEvents_app.
           split_and!; [done|by eauto|].
           by rewrite Hrz, !resized_app, Hw, orb_false_r, orb_assoc.
        -- destruct IH as (evs & -> & Ho).
           exists ((growthEvents (cache e) ++ w) ++ evs). rewrite afterEvents_app.
           split; [done|by eauto].
        -- destruct IH as (evs & -> & Ho).
           exists ((growthEvents (cache e) ++ w) ++ evs). rewrite afterEvents_app.
           split; [done|by eauto].
      * subst e1. rewrite afterEvents_app. eexists. split; [done|].
        intros d Hd. by rewrite resized_app, Hw, (growthEvents_other _ d Hd).
      * subst e1. rewrite afterEvents_app. eexists. split; [done|].
        intros d Hd. by rewrite resized_app, Hw, (growthEvents_other _ d Hd).
    + specialize (IH it' (mkLoopState (ls_mhs st ++ [next]) (ls_chunkLnk st) (ls_resized st)) e).
      by destruct (generateChunks_loop _ _ _ _ _).
  - destruct (decide (err = EOF)).
    + exists []. by rewrite afterEvents_nil, orb_false_r.
    + exists []. by rewrite afterEvents_nil.
  - exists []. by rewrite afterEvents_nil.
Qed.

Lemma generateChunks_rest_any st e :
  match generateChunks_rest st e with
  | Return st' e' =>
      ∃ evs, e' = afterEvents evs e ∧
        (∀ d, cache e = CacheOther d → resized evs = false) ∧
        ls_resized st' = ls_resized st || resized evs
  | Fail _ e' | Panic e' =>
      ∃ evs, e' = afterEvents evs e ∧
        (∀ d, cache e = CacheOther d → resized evs = false)
  | OutOfFuel => True
  end.
Proof.
  unfold generateChunks_rest. destruct (ls_mhs st) as [|mh mhs].
  - exists []. by rewrite afterEvents_nil, orb_false_r.
  - unfold bind at 1. rewrite growIfFull_run. unfold bind at 1.
    destruct (NewLinkedListOfMhs_any (mh :: mhs) (ls_chunkLnk st)
                (afterEvents (growthEvents (cache e)) e)) as (w & Hw & Hrun).
    destruct (NewLinkedListOfMhs _ _ _ _) as [lnk e1|er e1|e1|]; [|..|done];
      subst e1; rewrite afterEvents_app; eexists; (split; [done|]).
    + split; [|by rewrite resized_app, Hw, orb_false_r].
      intros d Hd. by rewrite resized_app, Hw, (growthEvents_other _ d Hd).
    + intros d Hd. by rewrite resized_app, Hw, (growthEvents_other _ d Hd).
    + intros d Hd. by rewrite resized_app, Hw, (growthEvents_other _ d Hd).
Qed.

Lemma Resize_to_Len (ls : lrustore.LRUStore Key) :
  lrustore.Cap (lrustore.Resize ls (lrustore.Len ls)) =
  lrustore.Len (lrustore.Resize ls (lrustore.Len ls)).
Proof.
  unfold lrustore.Cap, lrustore.Len, lrustore.Resize, lrustore.evictTo. simpl.
  by rewrite Nat2Z.id, firstn_all.
Qed.

(** What a run of the generator leaves behind, however it ends. *)
Lemma generateChunks_any fuel it e :
  match generateChunks fuel it e with
  | Return _ e' =>
      ∃ evs, e' = afterEvents evs e ∧
        (∀ d, cache e = CacheOther d → resized evs = false) ∧
        (resized evs = true →
         ∃ ls', cache e' = CacheLRU ls' ∧ lrustore.Cap ls' = lrustore.Len ls')
  | Fail _ e' | Panic e' =>
      ∃ evs, e' = afterEvents evs e ∧
        (∀ d, cache e = CacheOther d → resized evs = false)
  | OutOfFuel => True
  end.
Proof.
  unfold generateChunks. destruct (_ <? 0).
  { exists []. by rewrite afterEvents_nil. }
  unfold bind at 1.
  pose proof (generateChunks_loop_any fuel (linkedChunkSize e) it (mkLoopState [] None false) e)
    as Hloop.
  destruct (generateChunks_loop _ _ _ _ _) as [st1 e1|er e1|e1|]; [|done..].
  destruct Hloop as (evs1 & -> & Ho1 & Hrz1). cbn [ls_resized] in Hrz1.
  unfold bind at 1.
  pose proof (generateChunks_rest_any st1 (afterEvents evs1 e)) as Hrest.
  assert (∀ evs d, cache e = CacheOther d →
            (∀ d', cache (afterEvents evs1 e) = CacheOther d' → resized evs = false) →
            resized (evs1 ++ evs) = false) as Hoth.
  { intros evs d Hd Hevs. rewrite resized_app, (Ho1 d Hd).
    destruct (replay_other evs1 _ d Hd) as [d' Hd']. by apply (Hevs d'). }
  destruct (generateChunks_rest _ _) as [st2 e2|er e2|e2|]; [| | |done].
  - destruct Hrest as (evs2 & -> & Ho2 & Hrz2). rewrite afterEvents_app.
    unfold bind at 1. unfold generateChunks_shrink.
    destruct (ls_resized st2) eqn:Hflag.
    + destruct (cache (afterEvents (evs1 ++ evs2) e)) as [ls|d2] eqn:Hc.
      * exists ((evs1 ++ evs2) ++ [EvResize (lrustore.Len ls)]).
        split_and!.
        -- unfold afterEvents, logEvent, withCache in *. cbn [cache] in Hc. simpl.
           rewrite (replay_app (evs1 ++ evs2)), Hc. simpl.
           by rewrite <- !app_assoc.
        -- intros d Hd. destruct (replay_other (evs1 ++ evs2) _ d Hd) as [d' Hd'].
           cbn [cache afterEvents] in Hc. congruence.
        -- intros _. eexists. split; [reflexivity|]. apply Resize_to_Len.
      * exists (evs1 ++ evs2). split; [done|by eauto].
    + exists (evs1 ++ evs2). split_and!; [done|by eauto|].
      rewrite resized_app. rewrite Hrz1 in Hrz2. simpl in Hrz2. congruence.
  - destruct Hrest as (evs2 & -> & Ho2). rewrite afterEvents_app.
    exists (evs1 ++ evs2). split; [done|by eauto].
  - destruct Hrest as (evs2 & -> & Ho2). rewrite afterEvents_app.
    exists (evs1 ++ evs2). split; [done|by eauto].
Qed.

(** *** The LRU cache during a run *)

Lemma remove_fresh (key : Key) (es : list (Key * slice)) :
  lrustore.find key es = None → lrustore.remove key es = es.
Proof.
  induction es as [|[k' v] es IH]; simpl; [done|].
  destruct (decide (k' = key)); [done|]. intros Hf. by rewrite IH.
Qed.

Lemma evictTo_fits (n : Z) (es : list (Key * slice)) :
  Z.of_nat (length es) ≤ n → lrustore.evictTo n es = es.
Proof. intros Hn. unfold lrustore.evictTo. apply firstn_all2. lia. Qed.

(** Writing a chunk under a fresh key into an LRU cache that, once grown,
    has room for it: nothing is evicted. *)
Lemma replay_write_LRU (cap : Z) (es : list (Key * slice)) ch :
  let c := CacheLRU (D:=D) (lrustore.mkLRU cap es) in
  let cap' := if Z.of_nat (length es) =? cap then wrap64 (cap * 2) else cap in
  lrustore.find (putOf ch).1 es = None →
  Z.of_nat (length es) < cap' →
  replay (growthEvents c ++ writeEvents ch) c =
    CacheLRU (lrustore.mkLRU cap' (putOf ch :: es)).
Proof.
  intros c cap' Hfresh Hroom. unfold c, growthEvents, lrustore.Len, lrustore.Cap.
  cbn [lrustore.entries lrustore.capacity]. fold cap'.
  unfold cap', putOf in *. cbn [fst snd] in *.
  destruct (Z.of_nat (length es) =? cap); simpl.
  - unfold lrustore.Resize, lrustore.lruPut. simpl.
    rewrite (evictTo_fits _ es) by lia. rewrite (remove_fresh _ _ Hfresh).
    by rewrite evictTo_fits by (simpl length; lia).
  - unfold lrustore.lruPut. simpl. rewrite (remove_fresh _ _ Hfresh).
    by rewrite evictTo_fits by (simpl length; lia).
Qed.

Lemma chainEvents_LRU_cons (cap cap' : Z) (es : list (Key * slice)) ch ws :
  let c := CacheLRU (D:=D) (lrustore.mkLRU cap es) in
  let c' := CacheLRU (D:=D) (lrustore.mkLRU cap' (putOf ch :: es)) in
  cap' = (if Z.of_nat (length es) =? cap then wrap64 (cap * 2) else cap) →
  lrustore.find (putOf ch).1 es = None →
  Z.of_nat (length es) < cap' →
  chainEvents c (ch :: ws) = growthEvents c ++ writeEvents ch ++ chainEvents c' ws ∧
  replay (chainEvents c (ch :: ws)) c = replay (chainEvents c' ws) c'.
Proof.
  intros c c' -> Hfresh Hroom.
  pose proof (replay_write_LRU cap es ch Hfresh Hroom) as Hstep.
  subst c c'. cbn [chainEvents]. rewrite replay_app in Hstep.
  rewrite !replay_app, !Hstep.
  by rewrite <- app_assoc.
Qed.

Lemma resized_true evs : resizes evs ≠ [] → resized evs = true.
Proof. unfold resized. by destruct (resizes evs). Qed.

(** C4. On an LRU cache that starts empty with capacity 2, a run that
    writes five chunks under distinct keys doubles the capacity to 4 before
    the third write and to 8 before the fifth, each time the cache is full
    before a write, and ends by shrinking it to 5, the number of entries.
    And whenever a run that returns resized the cache, the capacity it
    leaves equals the length. *)
Theorem generateChunks_cache_growth_shrink :
  (∀ (it : Iter) l (fuel : nat) e,
     EncodeNeverFails → 0 < linkedChunkSize e →
     produces it l EOF → (length l < fuel)%nat →
     cache e = CacheLRU (lrustore.mkLRU 2 []) →
     length (batches (linkedChunkSize e) l) = 5%nat →
     NoDup (fst ∘ putOf <$> linkChain None (batches (linkedChunkSize e) l)) →
     ∃ root e' evs ls' ch1 ch2 ch3 ch4 ch5,
       generateChunks fuel it e = Return root e' ∧
       log e' = log e ++ evs ∧
       evs = writeEvents ch1 ++ writeEvents ch2 ++ [EvResize 4] ++
             writeEvents ch3 ++ writeEvents ch4 ++ [EvResize 8] ++
             writeEvents ch5 ++ [EvResize 5] ∧
       resizes evs = [4; 8; 5] ∧
       cache e' = CacheLRU ls' ∧ lrustore.Cap ls' = 5 ∧ lrustore.Len ls' = 5) ∧
  (∀ (it : Iter) (fuel : nat) e root e' evs,
     generateChunks fuel it e = Return root e' →
     log e' = log e ++ evs → resizes evs ≠ [] →
     ∃ ls', cache e' = CacheLRU ls' ∧ lrustore.Cap ls' = lrustore.Len ls').
Proof.
  split.
  - intros it l fuel e Henc Hk Hprod Hfuel Hc Hfive Hnodup.
    assert (PutsSucceed (cache e)) as Hput by (by rewrite Hc).
    pose proof (generateChunks_run it l fuel e Henc Hput ltac:(lia) Hprod Hfuel) as Hrun.
    rewrite <- (linkChain_length None) in Hfive.
    unfold runEvents in Hrun. rewrite Hc in Hrun.
    destruct (linkChain None (batches (linkedChunkSize e) l))
      as [|w1 [|w2 [|w3 [|w4 [|w5 [|w6 ws]]]]]]; try done.
    clear Hfive. simpl in Hnodup.
    repeat match goal with
           | H : NoDup (_ :: _) |- _ => apply NoDup_cons in H as [? H]
           end.
    repeat match goal with
           | H : _ ∉ _ :: _ |- _ => apply not_elem_of_cons in H as [? H]
           end.
    assert (∀ key key' v (es : list (Key * slice)),
              key ≠ key' → lrustore.find key es = None →
              lrustore.find key ((key', v) :: es) = None) as Hfind.
    { intros key key' v es Hne Hes. simpl. by rewrite decide_False. }
    destruct (chainEvents_LRU_cons 2 2 [] w1 [w2; w3; w4; w5]) as [E1 R1];
      [done|done|simpl; lia|].
    destruct (chainEvents_LRU_cons 2 2 [putOf w1] w2 [w3; w4; w5]) as [E2 R2];
      [done|by apply Hfind|simpl; lia|].
    destruct (chainEvents_LRU_cons 2 4 [putOf w2; putOf w1] w3 [w4; w5]) as [E3 R3];
      [done|by repeat apply Hfind|simpl; lia|].
    destruct (chainEvents_LRU_cons 4 4 [putOf w3; putOf w2; putOf w1] w4 [w5]) as [E4 R4];
      [done|by repeat apply Hfind|simpl; lia|].
    destruct (chainEvents_LRU_cons 4 8 [putOf w4; putOf w3; putOf w2; putOf w1] w5 [])
      as [E5 R5]; [done|by repeat apply Hfind|simpl; lia|].
    set (c := CacheLRU (lrustore.mkLRU 2 [])) in *.
    assert (replay (chainEvents c [w1; w2; w3; w4; w5]) c =
            CacheLRU (lrustore.mkLRU 8
              [putOf w5; putOf w4; putOf w3; putOf w2; putOf w1])) as Hca.
    { by rewrite R1, R2, R3, R4, R5. }
    assert (chainEvents c [w1; w2; w3; w4; w5] =
            writeEvents w1 ++ writeEvents w2 ++ [EvResize 4] ++
            writeEvents w3 ++ writeEvents w4 ++ [EvResize 8] ++
            writeEvents w5) as Hev.
    { by rewrite E1, E2, E3, E4, E5. }
    rewrite Hca, Hev in Hrun.
    exists (lastLink None [w1; w2; w3; w4; w5]). eexists. eexists.
    exists (lrustore.mkLRU 5 [putOf w5; putOf w4; putOf w3; putOf w2; putOf w1]).
    exists w1, w2, w3, w4, w5.
    split; [exact Hrun|]. split; [reflexivity|].
    split_and!; try reflexivity.
    assert (replay (chainEvents c [w1; w2; w3; w4; w5] ++ [EvResize 5]) c =
            CacheLRU (lrustore.mkLRU 5
              [putOf w5; putOf w4; putOf w3; putOf w2; putOf w1])) as Hfinal.
    { by rewrite replay_app, Hca. }
    rewrite Hev in Hfinal. cbn [cache afterEvents]. rewrite Hc. exact Hfinal.
  - intros it fuel e root e' evs Hrun Hlog Hres.
    pose proof (generateChunks_any fuel it e) as Hany. rewrite Hrun in Hany.
    destruct Hany as (evs' & -> & _ & Hshrunk).
    simpl in Hlog. apply app_inv_head in Hlog as <-.
    by apply Hshrunk, resized_true.
Qed.

Lemma resized_false evs : resized evs = false → resizes evs = [].
Proof. unfold resized. by destruct (resizes evs). Qed.

Lemma remove_length (key : Key) (es : list (Key * slice)) :
  (length (lrustore.remove key es) ≤ length es)%nat.
Proof.
  induction es as [|[k' v] es IH]; simpl; [done|].
  destruct (decide (k' = key)); simpl; lia.
Qed.

Lemma find_remove_ne (key key' : Key) (es : list (Key * slice)) :
  key' ≠ key → lrustore.find key' (lrustore.remove key es) = lrustore.find key' es.
Proof.
  intros Hne. induction es as [|[k0 v] es IH]; simpl; [done|].
  destruct (decide (k0 = key)) as [->|Hk0].
  - by rewrite decide_False.
  - simpl. by rewrite IH.
Qed.

Lemma wrap64_small (z : Z) : - 2 ^ 63 ≤ z < 2 ^ 63 → wrap64 z = z.
Proof. intros Hz. unfold wrap64. rewrite Z.mod_small; lia. Qed.

(** One chunk written into an LRU cache with a capacity that is positive and
    not near the limit of [int]: the cache grows when it is full, nothing is
    evicted, and the chunk's key is there afterwards. *)
Lemma replay_write_LRU_keeps (ls : lrustore.LRUStore Key) ch :
  0 < lrustore.Cap ls < 2 ^ 62 →
  lrustore.Len ls ≤ lrustore.Cap ls →
  ∃ ls',
    replay (growthEvents (LRU ls) ++ writeEvents ch) (LRU ls) = LRU ls' ∧
    lrustore.Cap ls' =
      (if lrustore.Len ls =? lrustore.Cap ls then lrustore.Cap ls * 2 else lrustore.Cap ls) ∧
    lrustore.Len ls' ≤ lrustore.Len ls + 1 ∧
    lrustore.Len ls' ≤ lrustore.Cap ls' ∧
    is_Some (lrustore.find (putOf ch).1 (lrustore.entries ls')) ∧
    (∀ key, is_Some (lrustore.find key (lrustore.entries ls)) →
            is_Some (lrustore.find key (lrustore.entries ls'))).
Proof.
  destruct ls as [cap es]. unfold lrustore.Cap, lrustore.Len. cbn [lrustore.capacity lrustore.entries].
  intros Hcap Hlen.
  set (cap' := if Z.of_nat (length es) =? cap then cap * 2 else cap).
  assert (Z.of_nat (length es) < cap') as Hroom.
  { unfold cap'. destruct (Z.eqb_spec (Z.of_nat (length es)) cap); lia. }
  unfold putOf. cbn [fst snd].
  pose proof (remove_length (cidKey (chunkLink ch)) es) as Hrem.
  exists (lrustore.mkLRU cap'
            ((cidKey (chunkLink ch), Buffer_Bytes (chunkBytes ch))
               :: lrustore.remove (cidKey (chunkLink ch)) es)).
  cbn [lrustore.capacity lrustore.entries].
  split_and!.
  - unfold growthEvents, lrustore.Len, lrustore.Cap, cap' in *.
    cbn [lrustore.capacity lrustore.entries].
    destruct (Z.of_nat (length es) =? cap); simpl.
    + rewrite wrap64_small by lia.
      unfold lrustore.Resize, lrustore.lruPut. simpl.
      rewrite (evictTo_fits _ es) by lia.
      by rewrite evictTo_fits by (simpl length; lia).
    + unfold lrustore.lruPut. simpl.
      by rewrite evictTo_fits by (simpl length; lia).
  - done.
  - simpl length. lia.
  - simpl length. lia.
  - simpl. by rewrite decide_True.
  - intros key Hkey. simpl. destruct (decide (cidKey (chunkLink ch) = key)); [done|].
    by rewrite find_remove_ne.
Qed.

(** The chain of chunks written into an LRU cache: every chunk written and
    every entry that was there before is still in the cache at the end. *)
Lemma replay_chainEvents_LRU_keeps ws :
  ∀ (ls : lrustore.LRUStore Key) (cap0 bound : Z),
    0 ≤ cap0 →
    0 < lrustore.Cap ls →
    lrustore.Len ls ≤ lrustore.Cap ls →
    lrustore.Len ls ≤ bound →
    lrustore.Cap ls ≤ cap0 + 2 * bound →
    cap0 + 2 * (bound + Z.of_nat (length ws)) < 2 ^ 62 →
    ∃ ls',
      replay (chainEvents (LRU ls) ws) (LRU ls) = LRU ls' ∧
      (∀ ch, ch ∈ ws → is_Some (lrustore.find (putOf ch).1 (lrustore.entries ls'))) ∧
      (∀ key, is_Some (lrustore.find key (lrustore.entries ls)) →
              is_Some (lrustore.find key (lrustore.entries ls'))).
Proof.
  induction ws as [|ch ws IH]; intros ls cap0 bound Hc0 Hpos Hlen Hb Hcap Hlim.
  - exists ls. split_and!; [done| |done]. intros ch Hin. by apply elem_of_nil in Hin.
  - destruct (replay_write_LRU_keeps ls ch ltac:(simpl length in Hlim; lia) Hlen)
      as (ls1 & Hstep & Hcap1 & Hlen1 & Hfit1 & Hch & Hold).
    simpl length in Hlim.
    destruct (IH ls1 cap0 (bound + 1)) as (ls' & Hrest & Hws & Hold').
    + done.
    + rewrite Hcap1. destruct (_ =? _); lia.
    + done.
    + lia.
    + rewrite Hcap1. destruct (Z.eqb_spec (lrustore.Len ls) (lrustore.Cap ls)); lia.
    + lia.
    + exists ls'. cbn [chainEvents]. rewrite replay_app, Hstep.
      split_and!; [done| |by eauto].
      intros ch' [->|Hin]%elem_of_cons; [by apply Hold'|by apply Hws].
Qed.
(** C8. When the iterator fails with an error other than the end of the
    sequence, the generator returns that error and no link. The engine it
    leaves is the engine after the writes of the full chunks cut from the
    multihashes read so far: they were stored through the cache and
    nothing is undone; the multihashes left in the buffer are dropped. On an
    LRU cache whose capacity is positive and far from the limit of [int],
    every chunk written and every entry held before is still in the cache. *)
Theorem generateChunks_iterator_error (it : Iter) l err (fuel : nat) e :
  EncodeNeverFails → PutsSucceed (cache e) →
  0 < linkedChunkSize e →
  produces it l err → err ≠ EOF → (length l < fuel)%nat →
  ∃ ws r,
    generateChunks fuel it e = Fail err (afterEvents (chainEvents (cache e) ws) e) ∧
    storedChunks (chainEvents (cache e) ws) = stored <$> ws ∧
    cachePuts (chainEvents (cache e) ws) = putOf <$> ws ∧
    Z.of_nat (length ws) = Z.of_nat (length l) / linkedChunkSize e ∧
    Forall (λ ch, Z.of_nat (length (Entries ch)) = linkedChunkSize e) ws ∧
    concat (Entries <$> ws) ++ r = l ∧
    (∀ i ch ch', ws !! i = Some ch → ws !! S i = Some ch' →
                 Next_ ch' = Some (chunkLink ch)) ∧
    (∀ ls,
       cache e = CacheLRU ls →
       0 < lrustore.Cap ls → lrustore.Len ls ≤ lrustore.Cap ls →
       3 * lrustore.Cap ls + 2 * Z.of_nat (length l) < 2 ^ 62 →
       ∃ ls',
         cache (afterEvents (chainEvents (cache e) ws) e) = CacheLRU ls' ∧
         (∀ ch, ch ∈ ws →
                is_Some (lrustore.find (putOf ch).1 (lrustore.entries ls'))) ∧
         (∀ key, is_Some (lrustore.find key (lrustore.entries ls)) →
                 is_Some (lrustore.find key (lrustore.entries ls')))).
Proof.
  intros Henc Hput Hk Hprod Herr Hfuel.
  exists (linkChain None (cut (linkedChunkSize e) [] l).1), (cut (linkedChunkSize e) [] l).2.
  destruct (cut_spec _ l Hk [] ltac:(simpl; lia)) as (Hall & _ & Hcat).
  destruct (cut_count _ l Hk) as [Hq _].
  split_and!.
  - apply generateChunks_abort; done || lia.
  - apply storedChunks_chainEvents.
  - apply cachePuts_chainEvents.
  - by rewrite linkChain_length.
  - rewrite <- (linkChain_Entries None) in Hall. by apply Forall_fmap in Hall.
  - by rewrite linkChain_Entries.
  - apply linkChain_next.
  - intros ls Hc Hpos Hlen Hlim. cbn [cache afterEvents]. rewrite Hc.
    apply (replay_chainEvents_LRU_keeps _ ls (lrustore.Cap ls) (lrustore.Cap ls));
      [lia|done|done|done|lia|].
    rewrite linkChain_length, Hq.
    assert (Z.of_nat (length l) / linkedChunkSize e ≤ Z.of_nat (length l)); [|lia].
    apply Z.div_le_upper_bound; nia.
Qed.

(** C10. On a cache that is not the LRU store a run of the generator,
    however it ends, records no resize and leaves a cache of the same
    kind; and the chunks it stores, the cache writes and the link it
    returns are those of the run on an LRU cache. *)
Theorem generateChunks_resizes_only_LRU :
  (∀ (it : Iter) (fuel : nat) e d e',
     cache e = CacheOther d →
     engineOf (generateChunks fuel it e) = Some e' →
     ∃ evs d', log e' = log e ++ evs ∧ resizes evs = [] ∧ cache e' = CacheOther d') ∧
  (∀ (it : Iter) l (fuel : nat) (eL eO : Engine) ls d,
     EncodeNeverFails → PutNeverFails (D:=D) →
     cache eL = CacheLRU ls → cache eO = CacheOther d →
     linkedChunkSize eL = linkedChunkSize eO → 0 ≤ linkedChunkSize eO →
     produces it l EOF → (length l < fuel)%nat →
     ∃ root eL' eO' evsL evsO,
       generateChunks fuel it eL = Return root eL' ∧
       generateChunks fuel it eO = Return root eO' ∧
       log eL' = log eL ++ evsL ∧ log eO' = log eO ++ evsO ∧
       storedChunks evsO = storedChunks evsL ∧
       cachePuts evsO = cachePuts evsL ∧
       resizes evsO = []).
Proof.
  split.
  - intros it fuel e d e' Hc Hrun.
    pose proof (generateChunks_any fuel it e) as Hany.
    destruct (generateChunks fuel it e) as [root e1|er e1|e1|]; [| | |done];
      injection Hrun as ->.
    + destruct Hany as (evs & -> & Ho & _).
      destruct (replay_other evs _ d Hc) as [d' Hd'].
      exists evs, d'. split_and!; [done|by eapply resized_false, Ho|done].
    + destruct Hany as (evs & -> & Ho).
      destruct (replay_other evs _ d Hc) as [d' Hd'].
      exists evs, d'. split_and!; [done|by eapply resized_false, Ho|done].
    + destruct Hany as (evs & -> & Ho).
      destruct (replay_other evs _ d Hc) as [d' Hd'].
      exists evs, d'. split_and!; [done|by eapply resized_false, Ho|done].
  - intros it l fuel eL eO ls d Henc Hput HcL HcO Hsize Hk Hprod Hfuel.
    assert (PutsSucceed (cache eL)) as HputL by (by rewrite HcL).
    assert (PutsSucceed (cache eO)) as HputO by (by rewrite HcO).
    pose proof (generateChunks_run it l fuel eL Henc HputL ltac:(lia) Hprod Hfuel) as HrunL.
    pose proof (generateChunks_run it l fuel eO Henc HputO Hk Hprod Hfuel) as HrunO.
    rewrite Hsize in HrunL.
    do 5 eexists. split; [exact HrunL|]. split; [exact HrunO|].
    split; [reflexivity|]. split; [reflexivity|].
    rewrite !storedChunks_runEvents, !cachePuts_runEvents. split_and!; [done..|].
    apply resized_false. unfold runEvents. rewrite HcO, resized_app, chainEvents_other.
    destruct (replay_other (chainEvents (CacheOther d)
                (linkChain None (batches (linkedChunkSize eO) l))) _ d eq_refl) as [d' ->].
    done.
Qed.

(** *** The main link system *)

Lemma dsGet_run key e :
  dsGet key e = ((Get (ds e) key).1, withDs e (Get (ds e) key).2).
Proof. unfold dsGet. by destruct (Get (ds e) key). Qed.

(** C7. With no callback registered, reading an identifier that the
    persistent store does not hold fails with [ErrNoCallback], before any
    call on the cache: the cache and the record are as they were. *)
Theorem read_without_callback (fuel : nat) (c : Cid) e (d' : DS) :
  Get (ds e) (cidKey c) = ((None, Some ErrNotFound), d') →
  cb e = None →
  ∃ e', StorageReadOpener mkLinkSystem fuel c e = Fail ErrNoCallback e' ∧
        cache e' = cache e ∧ log e' = log e.
Proof.
  intros Hget Hcb. exists (withDs e d'). split; [|done].
  cbn [StorageReadOpener mkLinkSystem]. unfold mkLinkSystem_read.
  rewrite dsGet_run, Hget. simpl. unfold mkLinkSystem_ingest. simpl. by rewrite Hcb.
Qed.

(** C1, as the code has it. When the persistent store holds bytes that
    decode to a node that is not an advertisement, the read does not return
    them: it goes on with the engine's callback, cache and generator exactly
    as from the callback check on, so that with no callback registered it
    fails with [ErrNoCallback]. *)
Theorem read_non_advertisement (fuel : nat) (c : Cid) e val (d' : DS) n :
  Get (ds e) (cidKey c) = ((val, None), d') →
  len val ≠ 0 →
  decodeIPLDNode (NewBuffer val) = Ok n →
  isAdvertisement n = false →
  StorageReadOpener mkLinkSystem fuel c e = mkLinkSystem_ingest fuel c (withDs e d') ∧
  (cb e = None →
   StorageReadOpener mkLinkSystem fuel c e = Fail ErrNoCallback (withDs e d')).
Proof.
  intros Hget Hlen Hdec Hnot.
  assert (StorageReadOpener mkLinkSystem fuel c e =
          mkLinkSystem_ingest fuel c (withDs e d')) as Hread.
  { cbn [StorageReadOpener mkLinkSystem]. unfold mkLinkSystem_read.
    rewrite dsGet_run, Hget. cbn [fst snd].
    destruct (Z.eqb_spec (len val) 0) as [?|_]; [done|].
    by rewrite Hdec, Hnot. }
  split; [done|]. intros Hcb. rewrite Hread. unfold mkLinkSystem_ingest. simpl.
  by rewrite Hcb.
Qed.

(** C6. On the path of a cache miss, when the generator returns without an
    error and the cache still does not hold the identifier, the read fails
    with [ErrNotFound]. *)
Theorem read_not_found_after_generation (fuel : nat) (c : Cid) e (d' : DS)
    (callback : bytes → result Iter) (v1 v2 : slice) e2 (key : bytes)
    (it : Iter) (root : option Cid) e3 e4 :
  Get (ds e) (cidKey c) = ((None, Some ErrNotFound), d') →
  cb e = Some callback →
  cacheGet (cidKey c) (withDs e d') = ((v1, Some ErrNotFound), e2) →
  contextIDs e c = Some key →
  callback key = Ok it →
  generateChunks fuel it (logEvent e2 (EvCallback key)) = Return root e3 →
  cacheGet (cidKey c) e3 = ((v2, Some ErrNotFound), e4) →
  StorageReadOpener mkLinkSystem fuel c e = Fail ErrNotFound e4.
Proof.
  intros Hget Hcb Hmiss Hctx Hcall Hgen Hstill.
  cbn [StorageReadOpener mkLinkSystem]. unfold mkLinkSystem_read.
  rewrite dsGet_run, Hget. cbn [fst snd len]. rewrite Z.eqb_refl.
  unfold mkLinkSystem_ingest. cbn [cb withDs]. rewrite Hcb.
  unfold bind at 1. unfold mkLinkSystem_fill. unfold bind at 1.
  unfold getCacheEntry at 1. rewrite Hmiss.
  rewrite !decide_True by done.
  unfold bind at 1. unfold getCidKeyMap.
  assert (contextIDs e2 = contextIDs e) as ->.
  { rewrite cacheGet_run in Hmiss. by injection Hmiss as _ <-. }
  rewrite Hctx. unfold bind at 1. rewrite Hcall. unfold bind at 1. rewrite Hgen.
  unfold mkLinkSystem_serve, bind, getCacheEntry. rewrite Hstill.
  by rewrite decide_True.
Qed.

Lemma NewBuffer_nonempty (val : slice) : len val ≠ 0 → NewBuffer val ≠ [].
Proof. by destruct val as [[|x b]|]. Qed.

(** The ingestion path never returns empty bytes. *)
Lemma mkLinkSystem_ingest_nonempty (fuel : nat) (c : Cid) e b e' :
  mkLinkSystem_ingest fuel c e = Return b e' → b ≠ [].
Proof.
  unfold mkLinkSystem_ingest. destruct (cb e) as [callback|]; [|done].
  unfold bind at 1. destruct (mkLinkSystem_fill fuel c callback e) as [[] e1| | |]; try done.
  unfold mkLinkSystem_serve, bind.
  destruct (getCacheEntry c e1) as [val e2| | |]; try done.
  destruct (Z.eqb_spec (len val) 0) as [|Hlen]; [done|].
  intros [= <- _]. by apply NewBuffer_nonempty.
Qed.

(** C9. A zero-length value in the persistent store is read like a missing
    key: in both cases the read goes on from the callback check, and the
    stored value is not returned. And a zero-length value that the cache
    gives when the link is read back yields [ErrNotFound]. *)
Theorem read_empty_value (fuel : nat) (c : Cid) e (d' : DS) (val : slice) :
  len val = 0 →
  (Get (ds e) (cidKey c) = ((val, None), d') ∨
   Get (ds e) (cidKey c) = ((val, Some ErrNotFound), d')) →
  StorageReadOpener mkLinkSystem fuel c e = mkLinkSystem_ingest fuel c (withDs e d') ∧
  (∀ b e', StorageReadOpener mkLinkSystem fuel c e = Return b e' → b ≠ []) ∧
  (∀ (callback : bytes → result Iter) e3 (v : slice) e4,
     cb e = Some callback →
     mkLinkSystem_fill fuel c callback (withDs e d') = Return tt e3 →
     cacheGet (cidKey c) e3 = ((v, None), e4) →
     len v = 0 →
     StorageReadOpener mkLinkSystem fuel c e = Fail ErrNotFound e4).
Proof.
  intros Hlen Hget.
  assert (StorageReadOpener mkLinkSystem fuel c e =
          mkLinkSystem_ingest fuel c (withDs e d')) as Hread.
  { cbn [StorageReadOpener mkLinkSystem]. unfold mkLinkSystem_read.
    rewrite dsGet_run. destruct Hget as [-> | ->]; cbn [fst snd]; by rewrite Hlen. }
  split_and!; [done|..].
  - intros b e'. rewrite Hread. apply mkLinkSystem_ingest_nonempty.
  - intros callback e3 v e4 Hcb Hfill Hre Hv. rewrite Hread.
    unfold mkLinkSystem_ingest. cbn [cb withDs]. rewrite Hcb.
    unfold bind at 1. rewrite Hfill.
    unfold mkLinkSystem_serve, bind, getCacheEntry. rewrite Hre. by rewrite Hv.
Qed.
End properties.

(** ** Further properties of the generator and of the link systems *)

Section more_properties.
Context {Multihash Cid Key : Type} `{EqDecision Key}.
Context {Iter : Type} `{!MultihashIterator Multihash Iter}.
Context {DS : Type} `{!Datastore Key DS}.
Context {D : Type} `{!Datastore Key D}.
Context `{!Codecs Multihash Cid Key}.

Local Abbreviation Engine := (Engine Multihash Cid Key Iter DS D).
Local Abbreviation Event := (Event Multihash Cid Key).
Local Abbreviation Cache := (Cache Key D).
Local Abbreviation Chunk := (EntryChunk Multihash Cid).
Local Abbreviation growthEvents := (growthEvents (Multihash:=Multihash) (Cid:=Cid)).
Local Abbreviation shrinkEvents := (shrinkEvents (Multihash:=Multihash) (Cid:=Cid)).
Local Abbreviation fillShape := (fillShape (Multihash:=Multihash) (Cid:=Cid)).
Local Abbreviation LRU := (CacheLRU (Key:=Key) (D:=D)).

Implicit Types (e : Engine) (evs : list Event) (c : Cache) (ch : Chunk)
  (ws : list Chunk) (l buf : list Multihash) (k : Z).

(** *** The record of any run *)

Lemma recordsChain_nil prev : recordsChain [] prev [].
Proof. repeat split; by try constructor. Qed.

Lemma generatorEvent_growthEvents c :
  Forall (λ ev : Event, generatorEvent ev = true) (growthEvents c).
Proof.
  destruct c as [ls|d]; simpl; [|constructor].
  destruct (_ =? _); [by apply Forall_singleton|constructor].
Qed.

Lemma storedChunks_growthEvents c : storedChunks (growthEvents c) = [].
Proof. destruct c as [ls|d]; simpl; [|done]. by destruct (_ =? _). Qed.

Lemma cachePuts_growthEvents c : cachePuts (growthEvents c) = [].
Proof. destruct c as [ls|d]; simpl; [|done]. by destruct (_ =? _). Qed.

(** A record without stored chunks and with at most one write records the
    empty chain. *)
Lemma recordsChain_stub evs prev :
  Forall (λ ev, generatorEvent ev = true) evs →
  storedChunks evs = [] →
  recordsChain evs prev [].
Proof.
  intros Hgen Hst. repeat split; [done|done|by apply prefix_nil|constructor].
Qed.

(** Records compose: a chain whose writes all have their chunk stored, and
    then the chain that goes on from its last link. *)
Lemma recordsChain_app evs1 evs2 prev bs1 bs2 :
  recordsChain evs1 prev bs1 →
  cachePuts evs1 = putOf <$> linkChain prev bs1 →
  recordsChain evs2 (lastLink prev (linkChain prev bs1)) bs2 →
  recordsChain (evs1 ++ evs2) prev (bs1 ++ bs2).
Proof.
  intros (Hg1 & Hs1 & _ & He1) Hp1 (Hg2 & Hs2 & Hp2 & He2).
  unfold recordsChain. rewrite linkChain_app.
  split_and!.
  - by apply Forall_app.
  - by rewrite storedChunks_app, Hs1, Hs2, fmap_app.
  - rewrite cachePuts_app, Hp1, fmap_app. by apply prefix_app.
  - by apply Forall_app.
Qed.

(** What storing one chunk leaves behind, however it ends. *)
Lemma NewLinkedListOfMhs_record mhs prev e :
  match NewLinkedListOfMhs cacheLinkSystem mhs prev e with
  | Return lnk e' =>
      lnk = chunkLink (mkEntryChunk mhs prev) ∧
      encodeChunk (mkEntryChunk mhs prev) = Ok (chunkBytes (mkEntryChunk mhs prev)) ∧
      e' = afterEvents (writeEvents (mkEntryChunk mhs prev)) e
  | Fail _ e' | Panic e' =>
      ∃ evs, e' = afterEvents evs e ∧
        Forall (λ ev, generatorEvent ev = true) evs ∧ storedChunks evs = []
  | OutOfFuel => False
  end.
Proof.
  unfold NewLinkedListOfMhs.
  destruct (encodeChunk (mkEntryChunk mhs prev)) as [b|er] eqn:Henc.
  - assert (chunkBytes (mkEntryChunk mhs prev) = b) as Hb
      by (unfold chunkBytes; by rewrite Henc).
    simpl. rewrite cachePut_run.
    destruct (match cache e with CacheLRU _ => None | CacheOther d => _ end).
    + exists [EvCachePut (cidKey (cidOf b)) (Buffer_Bytes b)].
      split_and!; [done| |done]. by apply Forall_singleton.
    + unfold writeEvents, putOf, chunkLink. rewrite Hb. split_and!; [done..|].
      unfold afterEvents, logEvent. simpl. by rewrite <- app_assoc.
  - exists []. by rewrite afterEvents_nil.
Qed.

(** The record of one chunk grown for and stored. *)
Lemma recordsChain_one c mhs prev :
  encodeChunk (mkEntryChunk mhs prev) = Ok (chunkBytes (mkEntryChunk mhs prev)) →
  recordsChain (growthEvents c ++ writeEvents (mkEntryChunk mhs prev)) prev [mhs] ∧
  cachePuts (growthEvents c ++ writeEvents (mkEntryChunk mhs prev)) =
    putOf <$> linkChain prev [mhs].
Proof.
  intros Henc. unfold recordsChain.
  rewrite storedChunks_app, cachePuts_app, storedChunks_growthEvents, cachePuts_growthEvents.
  split_and!; try done.
  - apply Forall_app. split; [apply generatorEvent_growthEvents|].
    by repeat (apply Forall_cons_2; [done|]).
  - simpl. by apply Forall_singleton.
Qed.

(** What a run of the loop leaves behind, however it ends: the record of a
    chain of full chunks that goes on from the link the loop started with. *)
Lemma generateChunks_loop_record fuel k it st e :
  Z.of_nat (length (ls_mhs st)) < Z.max k 1 →
  match generateChunks_loop fuel k it st e with
  | Return st' e' =>
      ∃ evs bs, e' = afterEvents evs e ∧
        recordsChain evs (ls_chunkLnk st) bs ∧
        cachePuts evs = putOf <$> linkChain (ls_chunkLnk st) bs ∧
        Forall (λ b, Z.of_nat (length b) = Z.max k 1) bs ∧
        ls_chunkLnk st' = lastLink (ls_chunkLnk st) (linkChain (ls_chunkLnk st) bs) ∧
        Z.of_nat (length (ls_mhs st')) < Z.max k 1
  | Fail _ e' | Panic e' =>
      ∃ evs bs, e' = afterEvents evs e ∧
        recordsChain evs (ls_chunkLnk st) bs ∧
        Forall (λ b, Z.of_nat (length b) = Z.max k 1) bs
  | OutOfFuel => True
  end.
Proof.
  revert it st e. induction fuel as [|fuel IH]; intros it st e Hbuf; [done|].
  cbn [generateChunks_loop].
  destruct (Next it) as [[[next|err] it']|].
  - assert (Z.of_nat (length (ls_mhs st ++ [next])) = Z.of_nat (length (ls_mhs st)) + 1)
      as Hlen by (rewrite length_app; simpl; lia).
    destruct (Z.leb_spec k (Z.of_nat (length (ls_mhs st ++ [next])))) as [Hfull|Hnot].
    + unfold bind at 1. rewrite growIfFull_run. unfold bind at 1.
      pose proof (NewLinkedListOfMhs_record (ls_mhs st ++ [next]) (ls_chunkLnk st)
                    (afterEvents (growthEvents (cache e)) e)) as Hstore.
      destruct (NewLinkedListOfMhs _ _ _ _) as [lnk e1|er e1|e1|]; [|..|done].
      * destruct Hstore as (-> & Henc & ->). rewrite afterEvents_app.
        destruct (recordsChain_one (cache e) _ _ Henc) as [Hone Hputs1].
        specialize (IH it'
          (mkLoopState [] (Some (chunkLink (mkEntryChunk (ls_mhs st ++ [next]) (ls_chunkLnk st))))
             (ls_resized st || resized (growthEvents (cache e))))
          (afterEvents (growthEvents (cache e)
                        ++ writeEvents (mkEntryChunk (ls_mhs st ++ [next]) (ls_chunkLnk st))) e)
          ltac:(simpl; lia)).
        destruct (generateChunks_loop _ _ _ _ _) as [st' e'|er e'|e'|]; [| | |done].
        -- destruct IH as (evs & bs & -> & Hrec & Hputs & Hsz & Hlnk & Hbuf').
           cbn [ls_chunkLnk] in *.
           eexists _, ((ls_mhs st ++ [next]) :: bs). rewrite afterEvents_app.
           split_and!; [done| | | | |done].
           ++ by apply (recordsChain_app _ _ _ [_] bs).
           ++ rewrite cachePuts_app, Hputs1, Hputs. done.
           ++ apply Forall_cons_2; [lia|done].
           ++ cbn [linkChain]. by rewrite lastLink_cons.
        -- destruct IH as (evs & bs & -> & Hrec & Hsz). cbn [ls_chunkLnk] in *.
           eexists _, ((ls_mhs st ++ [next]) :: bs). rewrite afterEvents_app.
           split_and!; [done| |].
           ++ by apply (recordsChain_app _ _ _ [_] bs).
           ++ apply Forall_cons_2; [lia|done].
        -- destruct IH as (evs & bs & -> & Hrec & Hsz). cbn [ls_chunkLnk] in *.
           eexists _, ((ls_mhs st ++ [next]) :: bs). rewrite afterEvents_app.
           split_and!; [done| |].
           ++ by apply (recordsChain_app _ _ _ [_] bs).
           ++ apply Forall_cons_2; [lia|done].
      * destruct Hstore as (evs & -> & Hgen & Hst). rewrite afterEvents_app.
        eexists _, []. split_and!; [done| |constructor].
        apply recordsChain_stub.
        -- apply Forall_app. split; [apply generatorEvent_growthEvents|done].
        -- by rewrite storedChunks_app, storedChunks_growthEvents, Hst.
      * destruct Hstore as (evs & -> & Hgen & Hst). rewrite afterEvents_app.
        eexists _, []. split_and!; [done| |constructor].
        apply recordsChain_stub.
        -- apply Forall_app. split; [apply generatorEvent_growthEvents|done].
        -- by rewrite storedChunks_app, storedChunks_growthEvents, Hst.
    + specialize (IH it' (mkLoopState (ls_mhs st ++ [next]) (ls_chunkLnk st) (ls_resized st)) e
                    ltac:(simpl; lia)).
      by destruct (generateChunks_loop _ _ _ _ _).
  - destruct (decide (err = EOF)).
    + exists [], []. rewrite afterEvents_nil.
      split_and!; [done|apply recordsChain_nil|done|constructor|done|done].
    + exists [], []. rewrite afterEvents_nil.
      split_and!; [done|apply recordsChain_nil|constructor].
  - exists [], []. rewrite afterEvents_nil.
    split_and!; [done|apply recordsChain_nil|constructor].
Qed.

(** A record stays the record of its chain when calls of the generator that
    store nothing follow it. *)
Lemma recordsChain_extend evs evs' prev bs :
  recordsChain evs prev bs →
  Forall (λ ev, generatorEvent ev = true) evs' →
  storedChunks evs' = [] →
  recordsChain (evs ++ evs') prev bs.
Proof.
  intros (Hg & Hs & Hp & He) Hg' Hs'. unfold recordsChain.
  rewrite storedChunks_app, cachePuts_app, Hs, Hs', app_nil_r.
  split_and!; [by apply Forall_app|done|by apply prefix_app_r|done].
Qed.

Lemma generatorEvent_shrinkEvents c rz :
  Forall (λ ev : Event, generatorEvent ev = true) (shrinkEvents c rz).
Proof.
  destruct c as [ls|d], rz; simpl; try (by apply Forall_singleton); constructor.
Qed.

Lemma generateChunks_shrink_any rz e :
  match generateChunks_shrink rz e with
  | Return _ e' | Fail _ e' | Panic e' =>
      ∃ evs, e' = afterEvents evs e ∧
        Forall (λ ev, generatorEvent ev = true) evs ∧
        storedChunks evs = [] ∧ cachePuts evs = []
  | OutOfFuel => False
  end.
Proof.
  unfold generateChunks_shrink. destruct rz.
  - destruct (cache e) as [ls|d] eqn:Hc.
    + exists [EvResize (lrustore.Len ls)]. split_and!; [|by apply Forall_singleton|done..].
      unfold afterEvents, logEvent, withCache. simpl. by rewrite Hc.
    + exists []. by rewrite afterEvents_nil.
  - exists []. by rewrite afterEvents_nil.
Qed.

(** What a run of the generator leaves behind, however it ends: the record
    of a chain of chunks that starts without a previous link, each chunk
    with at least one multihash and no more than the chunk size. *)
Lemma generateChunks_record fuel it e :
  let sized (bs : list (list Multihash)) :=
    Forall (λ b, 1 ≤ Z.of_nat (length b) ≤ Z.max (linkedChunkSize e) 1) bs in
  match generateChunks fuel it e with
  | Return root e' =>
      ∃ evs bs, e' = afterEvents evs e ∧ recordsChain evs None bs ∧ sized bs ∧
        cachePuts evs = putOf <$> linkChain None bs ∧
        root = lastLink None (linkChain None bs)
  | Fail _ e' | Panic e' =>
      ∃ evs bs, e' = afterEvents evs e ∧ recordsChain evs None bs ∧ sized bs
  | OutOfFuel => True
  end.
Proof.
  intros sized. unfold generateChunks.
  set (k := linkedChunkSize e) in *.
  assert (∀ bs, Forall (λ b : list Multihash, Z.of_nat (length b) = Z.max k 1) bs → sized bs)
    as Hsized.
  { intros bs Hbs. unfold sized. eapply Forall_impl; [exact Hbs|]. simpl. lia. }
  destruct (k <? 0).
  { exists [], []. rewrite afterEvents_nil.
    split_and!; [done|apply recordsChain_nil|constructor]. }
  unfold bind at 1.
  pose proof (generateChunks_loop_record fuel k it (mkLoopState [] None false) e
                ltac:(simpl; lia)) as Hloop.
  destruct (generateChunks_loop _ _ _ _ _) as [st1 e1|er e1|e1|]; [| | |done].
  2,3: destruct Hloop as (evs & bs & -> & Hrec & Hsz); exists evs, bs; by eauto.
  destruct Hloop as (evs1 & bs1 & -> & Hrec1 & Hputs1 & Hsz1 & Hlnk1 & Hbuf1).
  cbn [ls_chunkLnk] in *.
  unfold bind at 1. unfold generateChunks_rest.
  destruct (ls_mhs st1) as [|mh mhs] eqn:Hmhs.
  - unfold bind at 1.
    pose proof (generateChunks_shrink_any (ls_resized st1) (afterEvents evs1 e)) as Hshr.
    destruct (generateChunks_shrink _ _) as [[] e2|er e2|e2|]; [| | |done];
      destruct Hshr as (evs2 & -> & Hg2 & Hs2 & Hp2); rewrite afterEvents_app;
      exists (evs1 ++ evs2), bs1.
    + split_and!; [done|by apply recordsChain_extend|by apply Hsized| |done].
      by rewrite cachePuts_app, Hp2, app_nil_r.
    + split_and!; [done|by apply recordsChain_extend|by apply Hsized].
    + split_and!; [done|by apply recordsChain_extend|by apply Hsized].
  - assert (sized (bs1 ++ [mh :: mhs])) as Hsz.
    { unfold sized. apply Forall_app. split; [by apply Hsized|].
      apply Forall_singleton. simpl length in *. lia. }
    unfold bind at 1. rewrite growIfFull_run. unfold bind at 1. rewrite Hlnk1.
    pose proof (NewLinkedListOfMhs_record (mh :: mhs) (lastLink None (linkChain None bs1))
                  (afterEvents (growthEvents (cache (afterEvents evs1 e)))
                     (afterEvents evs1 e))) as Hstore.
    destruct (NewLinkedListOfMhs _ _ _ _) as [lnk e2|er e2|e2|]; [|..|done].
    + destruct Hstore as (-> & Henc & ->). rewrite !afterEvents_app.
      destruct (recordsChain_one (cache (afterEvents evs1 e)) _ _ Henc) as [Hone Hputs2].
      pose proof (recordsChain_app _ _ _ _ _ Hrec1 Hputs1 Hone) as Hrec.
      unfold bind at 1. cbn [ls_resized ls_chunkLnk].
      match goal with
      | |- context [generateChunks_shrink ?rz ?e0] =>
          pose proof (generateChunks_shrink_any rz e0) as Hshr;
          destruct (generateChunks_shrink rz e0) as [[] e3|er e3|e3|]; [| | |done]
      end; destruct Hshr as (evs3 & -> & Hg3 & Hs3 & Hp3); rewrite afterEvents_app;
        eexists _, (bs1 ++ [mh :: mhs]).
      * split_and!; [done|by apply recordsChain_extend|done| |].
        -- rewrite !cachePuts_app, Hp3, app_nil_r, Hputs1, <- cachePuts_app, Hputs2.
           by rewrite linkChain_app, fmap_app.
        -- rewrite linkChain_app, lastLink_app. cbn [linkChain].
           by rewrite lastLink_cons.
      * split_and!; [done|by apply recordsChain_extend|done].
      * split_and!; [done|by apply recordsChain_extend|done].
    + destruct Hstore as (evs2 & -> & Hg2 & Hs2). rewrite !afterEvents_app.
      eexists _, bs1. split_and!; [done| |by apply Hsized].
      apply recordsChain_extend; [done| |].
      * apply Forall_app. split; [apply generatorEvent_growthEvents|done].
      * by rewrite storedChunks_app, storedChunks_growthEvents, Hs2.
    + destruct Hstore as (evs2 & -> & Hg2 & Hs2). rewrite !afterEvents_app.
      eexists _, bs1. split_and!; [done| |by apply Hsized].
      apply recordsChain_extend; [done| |].
      * apply Forall_app. split; [apply generatorEvent_growthEvents|done].
      * by rewrite storedChunks_app, storedChunks_growthEvents, Hs2.
Qed.

Lemma engineOf_Some {A : Type} (r : Run Multihash Cid Key Iter DS D A) e' :
  engineOf r = Some e' →
  (∃ a, r = Return a e') ∨ (∃ er, r = Fail er e') ∨ r = Panic e'.
Proof. destruct r; intros [= <-]; eauto. Qed.

(** X1. Whatever way a run of the generator ends, it has made only calls of
    its own: no cache lookup, no callback, and the persistent store, the
    callback and the settings are untouched. The chunks it stored form a
    chain: the first without a previous link, every other linked to the one
    stored before it; each was encoded, and written to the cache under its
    link. A run that returns gives the link of the chunk stored last, and
    every cache write of it has its chunk stored. *)
Theorem generateChunks_stored_chain (fuel : nat) (it : Iter) e e' :
  engineOf (generateChunks fuel it e) = Some e' →
  ∃ evs,
    e' = afterEvents evs e ∧
    Forall (λ ev, generatorEvent ev = true) evs ∧
    let ss := storedChunks evs in
    (putAt <$> ss) `prefix_of` cachePuts evs ∧
    Forall (λ s, encodeChunk s.1 = Ok (chunkBytes s.1) ∧ s.2 = chunkLink s.1) ss ∧
    (∀ ch lnk, head ss = Some (ch, lnk) → Next_ ch = None) ∧
    (∀ i ch lnk ch' lnk',
       ss !! i = Some (ch, lnk) → ss !! S i = Some (ch', lnk') → Next_ ch' = Some lnk) ∧
    (∀ root, generateChunks fuel it e = Return root e' →
             root = snd <$> last ss ∧ cachePuts evs = putAt <$> ss).
Proof.
  intros Hrun. pose proof (generateChunks_record fuel it e) as Hrec. cbn zeta in Hrec.
  assert (∃ evs bs, e' = afterEvents evs e ∧ recordsChain evs None bs ∧
            (∀ root, generateChunks fuel it e = Return root e' →
               cachePuts evs = putOf <$> linkChain None bs ∧
               root = lastLink None (linkChain None bs))) as (evs & bs & -> & Hchain & Hret).
  { destruct (generateChunks fuel it e) as [root e1|er e1|e1|]; [| | |done];
      injection Hrun as ->.
    - destruct Hrec as (evs & bs & -> & Hchain & _ & Hputs & Hroot).
      exists evs, bs. split_and!; [done..|]. intros root' [= <-]. done.
    - destruct Hrec as (evs & bs & -> & Hchain & _). exists evs, bs. by split_and!.
    - destruct Hrec as (evs & bs & -> & Hchain & _). exists evs, bs. by split_and!. }
  destruct Hchain as (Hgen & Hst & Hpre & Henc).
  exists evs. split; [done|]. split; [done|]. cbn zeta. rewrite Hst.
  split_and!.
  - rewrite <- list_fmap_compose. exact Hpre.
  - apply Forall_fmap. eapply Forall_impl; [exact Henc|]. by intros ch Hch.
  - intros ch lnk Hhd. apply (linkChain_head None bs).
    destruct (linkChain None bs); [done|]. simpl in Hhd. by injection Hhd as <- _.
  - intros i ch lnk ch' lnk'. rewrite !list_lookup_fmap.
    destruct (linkChain None bs !! i) as [w|] eqn:Hi; [|done].
    destruct (linkChain None bs !! S i) as [w'|] eqn:HSi; [|done].
    simpl. intros [= <- <-] [= <- <-]. by eapply linkChain_next.
  - intros root Hroot. destruct (Hret root Hroot) as [Hputs ->]. split.
    + rewrite fmap_last. unfold lastLink. by destruct (last (linkChain None bs)).
    + by rewrite <- list_fmap_compose.
Qed.

(** X2. Whatever way a run of the generator ends, every chunk it stored
    holds at least one multihash and no more than the chunk size (one, for a
    chunk size that is not positive). *)
Theorem generateChunks_chunk_bounds (fuel : nat) (it : Iter) e e' evs :
  engineOf (generateChunks fuel it e) = Some e' →
  log e' = log e ++ evs →
  Forall (λ s, 1 ≤ Z.of_nat (length (Entries s.1)) ≤ Z.max (linkedChunkSize e) 1)
    (storedChunks evs).
Proof.
  intros Hrun Hlog. pose proof (generateChunks_record fuel it e) as Hrec. cbn zeta in Hrec.
  assert (∃ evs0 bs, e' = afterEvents evs0 e ∧ recordsChain evs0 None bs ∧
            Forall (λ b : list Multihash,
                      1 ≤ Z.of_nat (length b) ≤ Z.max (linkedChunkSize e) 1) bs)
    as (evs0 & bs & -> & (_ & Hst & _) & Hsz).
  { destruct (generateChunks fuel it e) as [root e1|er e1|e1|]; [| | |done];
      injection Hrun as ->.
    - destruct Hrec as (evs0 & bs & ? & ? & ? & _). by exists evs0, bs.
    - destruct Hrec as (evs0 & bs & ? & ? & ?). by exists evs0, bs.
    - destruct Hrec as (evs0 & bs & ? & ? & ?). by exists evs0, bs. }
  simpl in Hlog. apply app_inv_head in Hlog as <-. rewrite Hst.
  apply Forall_fmap. rewrite <- (linkChain_Entries None bs) in Hsz.
  by apply Forall_fmap in Hsz.
Qed.

(** *** The record of a read *)

Lemma logEvent_callback e ctx :
  logEvent e (EvCallback ctx) = afterEvents [EvCallback ctx] e.
Proof. by destruct e as [d [ls|o] cbk k ctxs lg]. Qed.

Lemma getCacheEntry_run (cid : Cid) e :
  getCacheEntry cid e =
    match (match cache e with
           | CacheLRU ls => (Get ls (cidKey cid)).1
           | CacheOther d => (Get d (cidKey cid)).1
           end) with
    | (b, Some er) =>
        if decide (er = ErrNotFound)
        then Return None (afterEvents [EvCacheGet (cidKey cid)] e)
        else Fail er (afterEvents [EvCacheGet (cidKey cid)] e)
    | (b, None) => Return b (afterEvents [EvCacheGet (cidKey cid)] e)
    end.
Proof.
  unfold getCacheEntry. rewrite cacheGet_run.
  by destruct (match cache e with CacheLRU ls => _ | CacheOther d => _ end) as [b [er|]].
Qed.

Lemma getCacheEntry_engine (cid : Cid) e :
  engineOf (getCacheEntry cid e) = Some (afterEvents [EvCacheGet (cidKey cid)] e).
Proof.
  rewrite getCacheEntry_run.
  destruct (match cache e with CacheLRU ls => _ | CacheOther d => _ end) as [b [er|]];
    [|done]. by destruct (decide _).
Qed.

Lemma generateChunks_generator (fuel : nat) (it : Iter) e e' :
  engineOf (generateChunks fuel it e) = Some e' →
  ∃ gen, e' = afterEvents gen e ∧ Forall (λ ev, generatorEvent ev = true) gen.
Proof.
  intros Hrun. pose proof (generateChunks_record fuel it e) as Hrec. cbn zeta in Hrec.
  destruct (generateChunks fuel it e) as [root e1|er e1|e1|]; [| | |done];
    injection Hrun as ->.
  - destruct Hrec as (evs & bs & -> & (? & _) & _). by exists evs.
  - destruct Hrec as (evs & bs & -> & (? & _) & _). by exists evs.
  - destruct Hrec as (evs & bs & -> & (? & _) & _). by exists evs.
Qed.

Lemma mkLinkSystem_fill_record (fuel : nat) (cid : Cid) callback e e' :
  engineOf (mkLinkSystem_fill fuel cid callback e) = Some e' →
  ∃ evs, e' = afterEvents evs e ∧ fillShape (cidKey cid) evs.
Proof.
  unfold mkLinkSystem_fill, bind at 1.
  pose proof (getCacheEntry_engine cid e) as Hget.
  assert (fillShape (cidKey cid) [EvCacheGet (cidKey cid)]) as Hone.
  { exists [], []. split_and!; [done|by left|constructor|done]. }
  destruct (getCacheEntry cid e) as [b e1|er e1|e1|]; [| | |done];
    injection Hget as ->; [|intros [= <-]; by eexists..].
  destruct b as [b|]; [intros [= <-]; by eexists|].
  unfold bind at 1, getCidKeyMap; simpl.
  destruct (contextIDs e cid) as [ctx|]; [|intros [= <-]; by eexists].
  unfold bind at 1. rewrite logEvent_callback, afterEvents_app.
  assert (fillShape (cidKey cid) ([EvCacheGet (cidKey cid)] ++ [EvCallback ctx])) as Htwo.
  { exists [EvCallback ctx], []. split_and!; [done|right; by eexists|constructor|done]. }
  destruct (callback ctx) as [it|er]; [|intros [= <-]; by eexists].
  unfold bind.
  pose proof (generateChunks_generator fuel it
    (afterEvents ([EvCacheGet (cidKey cid)] ++ [EvCallback ctx]) e)) as Hgen.
  destruct (generateChunks fuel it _) as [root e1|er e1|e1|]; [| | |done];
    simpl; intros [= <-]; destruct (Hgen _ eq_refl) as (gen & -> & Hall);
    rewrite afterEvents_app; eexists; (split; [done|]);
    exists [EvCallback ctx], gen; (split_and!; [done|right; by eexists|done|done]).
Qed.

Lemma mkLinkSystem_ingest_record (fuel : nat) (cid : Cid) e e' :
  engineOf (mkLinkSystem_ingest fuel cid e) = Some e' →
  ∃ evs, e' = afterEvents evs e ∧ readProtocol (cidKey cid) evs.
Proof.
  unfold mkLinkSystem_ingest. destruct (cb e) as [callback|].
  2:{ intros [= <-]. exists []. rewrite afterEvents_nil. split; [done|by left]. }
  unfold bind at 1.
  pose proof (mkLinkSystem_fill_record fuel cid callback e) as Hfill.
  destruct (mkLinkSystem_fill fuel cid callback e) as [[] e1|er e1|e1|]; [| | |done].
  2,3: intros [= <-]; destruct (Hfill _ eq_refl) as (evs & -> & cbs & gen & -> & ? & ? & ?);
       eexists; (split; [done|]); right; exists cbs, gen, [];
       rewrite app_nil_r; split_and!; auto.
  destruct (Hfill _ eq_refl) as (evs & -> & cbs & gen & -> & ? & ? & ?).
  intros Hserve.
  assert (e' = afterEvents [EvCacheGet (cidKey cid)]
            (afterEvents ([EvCacheGet (cidKey cid)] ++ cbs ++ gen) e)) as ->.
  { revert Hserve. unfold mkLinkSystem_serve, bind.
    pose proof (getCacheEntry_engine cid
      (afterEvents ([EvCacheGet (cidKey cid)] ++ cbs ++ gen) e)) as Hget.
    destruct (getCacheEntry cid _) as [val e2|er e2|e2|]; [| | |done];
      injection Hget as ->; [|by intros [= <-]..].
    destruct (len val =? 0); by intros [= <-]. }
  rewrite afterEvents_app. eexists; split; [done|].
  right. exists cbs, gen, [EvCacheGet (cidKey cid)].
  rewrite <- !app_assoc. split_and!; auto.
Qed.

Lemma mkLinkSystem_read_record (fuel : nat) (cid : Cid) e e' :
  engineOf (mkLinkSystem_read fuel cid e) = Some e' →
  ∃ evs, e' = afterEvents evs (withDs e (Get (ds e) (cidKey cid)).2) ∧
         readProtocol (cidKey cid) evs.
Proof.
  unfold mkLinkSystem_read. rewrite dsGet_run.
  destruct (Get (ds e) (cidKey cid)) as [[val err] d']; cbn [fst snd].
  assert (∀ e0 : Engine, ∃ evs, e0 = afterEvents evs e0 ∧ readProtocol (cidKey cid) evs)
    as Hnone.
  { intros e0. exists []. rewrite afterEvents_nil. split; [done|by left]. }
  cbn zeta.
  destruct (match err with Some er => _ | None => None end) as [er|].
  { intros [= <-]. apply Hnone. }
  destruct (len val =? 0); [apply mkLinkSystem_ingest_record|].
  destruct (decodeIPLDNode (NewBuffer val)) as [n|er]; [|intros [= <-]; apply Hnone].
  destruct (isAdvertisement n); [intros [= <-]; apply Hnone|].
  apply mkLinkSystem_ingest_record.
Qed.

Lemma cacheGets_app evs1 evs2 : cacheGets evs1 ++ cacheGets evs2 = cacheGets (evs1 ++ evs2).
Proof. unfold cacheGets. by rewrite omap_app. Qed.

Lemma callbacks_app evs1 evs2 : callbacks evs1 ++ callbacks evs2 = callbacks (evs1 ++ evs2).
Proof. unfold callbacks. by rewrite omap_app. Qed.

Lemma generator_only evs :
  Forall (λ ev, generatorEvent ev = true) evs → cacheGets evs = [] ∧ callbacks evs = [].
Proof.
  induction 1 as [|ev evs Hev _ [IH1 IH2]]; [done|].
  destruct ev; try done; simpl; by rewrite ?IH1, ?IH2.
Qed.

(** X3. However a read of the main link system ends, the persistent store
    has been asked once for the key of the link and nothing was written to
    it, the callback, the chunk size and the context identifiers are as they
    were, and the cache, still of the same kind, is what the recorded calls
    made of it. *)
Theorem read_leaves_store (fuel : nat) (cid : Cid) e e' :
  engineOf (StorageReadOpener mkLinkSystem fuel cid e) = Some e' →
  ds e' = (Get (ds e) (cidKey cid)).2 ∧
  cb e' = cb e ∧ linkedChunkSize e' = linkedChunkSize e ∧
  contextIDs e' = contextIDs e ∧
  sameKind (cache e) (cache e') ∧
  ∃ evs, log e' = log e ++ evs ∧ cache e' = replay evs (cache e).
Proof.
  intros Hrun. apply mkLinkSystem_read_record in Hrun as (evs & -> & _).
  simpl. split_and!; try done; [apply replay_sameKind|by exists evs].
Qed.

(** X4. However a read of the main link system ends, it has looked the
    cache up at most twice, each time under the key of the link, and called
    the callback at most once. The first call of all is the cache lookup;
    nothing is written to the cache, resized or stored unless the callback
    was called. *)
Theorem read_calls (fuel : nat) (cid : Cid) e e' evs :
  engineOf (StorageReadOpener mkLinkSystem fuel cid e) = Some e' →
  log e' = log e ++ evs →
  (length (cacheGets evs) ≤ 2)%nat ∧
  Forall (λ key, key = cidKey cid) (cacheGets evs) ∧
  (length (callbacks evs) ≤ 1)%nat ∧
  (evs ≠ [] → head evs = Some (EvCacheGet (cidKey cid))) ∧
  (callbacks evs = [] →
     cachePuts evs = [] ∧ resizes evs = [] ∧ storedChunks evs = []).
Proof.
  intros Hrun Hlog. apply mkLinkSystem_read_record in Hrun as (evs0 & -> & Hshape).
  simpl in Hlog. apply app_inv_head in Hlog as <-.
  destruct Hshape as [->|(cbs & gen & tl & -> & Hcbs & Hgen & Hnone & Htl)].
  { split_and!; simpl; [lia|constructor|lia|done|done]. }
  destruct (generator_only gen Hgen) as [Hg1 Hg2].
  rewrite <- !cacheGets_app, <- !callbacks_app, Hg1, Hg2.
  assert (cacheGets cbs = [] ∧ (length (callbacks cbs) ≤ 1)%nat ∧
          (callbacks cbs = [] → cbs = [])) as (Hc1 & Hc2 & Hc3).
  { destruct Hcbs as [->|[ctx ->]]; simpl; split_and!; done || lia. }
  rewrite Hc1. simpl.
  assert (cacheGets tl = [] ∨ cacheGets tl = [cidKey cid]) as Ht1.
  { destruct Htl as [->| ->]; auto. }
  assert (callbacks tl = []) as Ht2 by by destruct Htl as [->| ->].
  rewrite Ht2, app_nil_r. split_and!.
  - destruct Ht1 as [->| ->]; simpl; lia.
  - destruct Ht1 as [->| ->]; repeat (apply Forall_cons_2; [done|]); constructor.
  - done.
  - done.
  - intros Hno. rewrite (Hc3 Hno), (Hnone (Hc3 Hno)). by destruct Htl as [->| ->].
Qed.

(** X5. A read of the main link system that succeeds never returns empty
    bytes. *)
Theorem read_never_empty (fuel : nat) (cid : Cid) e b e' :
  StorageReadOpener mkLinkSystem fuel cid e = Return b e' → b ≠ [].
Proof.
  simpl. unfold mkLinkSystem_read. rewrite dsGet_run.
  destruct (Get (ds e) (cidKey cid)) as [[val err] d']; cbn [fst snd]. cbn zeta.
  destruct (match err with Some er => _ | None => None end) as [er|]; [done|].
  destruct (Z.eqb_spec (len val) 0) as [|Hlen];
    [apply mkLinkSystem_ingest_nonempty|].
  destruct (decodeIPLDNode (NewBuffer val)) as [n|er]; [|done].
  destruct (isAdvertisement n); [|apply mkLinkSystem_ingest_nonempty].
  intros [= <- _]. by apply NewBuffer_nonempty.
Qed.

(** X6. An error of the persistent store other than not-found, and a
    decoding error of a value of non-zero length that the store holds, end
    the read with that error before the callback is looked at and before any
    call on the cache. *)
Theorem read_store_errors (fuel : nat) (cid : Cid) e (val : slice)
    (err : option error) (d' : DS) :
  Get (ds e) (cidKey cid) = ((val, err), d') →
  (∀ er, err = Some er → er ≠ ErrNotFound →
     StorageReadOpener mkLinkSystem fuel cid e = Fail er (withDs e d')) ∧
  (∀ er, (err = None ∨ err = Some ErrNotFound) → len val ≠ 0 →
     dagjsonDecode (NewBuffer val) = Err er →
     StorageReadOpener mkLinkSystem fuel cid e = Fail er (withDs e d')).
Proof.
  intros Hget. simpl. unfold mkLinkSystem_read. rewrite dsGet_run, Hget.
  cbn [fst snd]. cbn zeta. split.
  - intros er -> Hne. by rewrite decide_False.
  - intros er Herr Hlen Hdec.
    assert (match err with
            | Some er0 => if decide (er0 = ErrNotFound) then None else Some er0
            | None => None
            end = None) as ->.
    { destruct Herr as [->| ->]; [done|by rewrite decide_True]. }
    destruct (Z.eqb_spec (len val) 0); [done|].
    unfold decodeIPLDNode. by rewrite Hdec.
Qed.

Lemma cacheGet_withDs key e (d : DS) :
  (cacheGet key (withDs e d)).1 = (cacheGet key e).1.
Proof. by rewrite !cacheGet_run. Qed.

Lemma getCacheEntry_result (cid : Cid) e :
  getCacheEntry cid e =
    match (cacheGet (cidKey cid) e).1 with
    | (b, Some er) =>
        if decide (er = ErrNotFound)
        then Return None (afterEvents [EvCacheGet (cidKey cid)] e)
        else Fail er (afterEvents [EvCacheGet (cidKey cid)] e)
    | (b, None) => Return b (afterEvents [EvCacheGet (cidKey cid)] e)
    end.
Proof. rewrite getCacheEntry_run. by rewrite cacheGet_run. Qed.

(** The read opener of the main link system when the persistent store has
    nothing of non-zero length under the key. *)
Lemma mkLinkSystem_read_miss (fuel : nat) (cid : Cid) e (d' : DS) :
  Get (ds e) (cidKey cid) = ((None, Some ErrNotFound), d') →
  StorageReadOpener mkLinkSystem fuel cid e = mkLinkSystem_ingest fuel cid (withDs e d').
Proof.
  intros Hget. simpl. unfold mkLinkSystem_read. rewrite dsGet_run, Hget.
  cbn [fst snd]. cbn zeta. by rewrite decide_True.
Qed.

(** What is done after a miss in the cache, linksystem.go:76-105. *)
Lemma mkLinkSystem_fill_miss (fuel : nat) (cid : Cid) callback e (b : slice)
    (cerr : option error) :
  (cacheGet (cidKey cid) e).1 = (b, cerr) →
  cerr = Some ErrNotFound ∨ (cerr = None ∧ b = None) →
  mkLinkSystem_fill fuel cid callback e =
    match contextIDs e cid with
    | None => Fail ErrNotFound (afterEvents [EvCacheGet (cidKey cid)] e)
    | Some ctx =>
        match callback ctx with
        | Err er => Fail er (afterEvents [EvCacheGet (cidKey cid); EvCallback ctx] e)
        | Ok it =>
            match generateChunks fuel it
                    (afterEvents [EvCacheGet (cidKey cid); EvCallback ctx] e) with
            | Return _ e' => Return tt e'
            | Fail er e' => Fail er e'
            | Panic e' => Panic e'
            | OutOfFuel => OutOfFuel
            end
        end
    end.
Proof.
  intros Hcache Hmiss. unfold mkLinkSystem_fill, bind at 1.
  rewrite getCacheEntry_result, Hcache.
  assert (∀ e1 : Engine,
            match cerr with
            | Some er => if decide (er = ErrNotFound)
                         then Return (A:=slice) None e1 else Fail er e1
            | None => Return b e1
            end = Return None e1) as ->.
  { intros e1. destruct Hmiss as [->|[-> ->]]; [by rewrite decide_True|done]. }
  unfold bind at 1, getCidKeyMap. cbn [afterEvents contextIDs].
  destruct (contextIDs e cid) as [ctx|]; [|done].
  unfold bind at 1. rewrite logEvent_callback, afterEvents_app. cbn [app].
  destruct (callback ctx) as [it|er]; [|done].
  unfold bind. by destruct (generateChunks fuel it _).
Qed.

(** X7. After a miss in the persistent store and in the cache, a read for
    which no iterator can be had ends before anything is generated: with
    not-found and no call of the callback when no context identifier is
    known for the link, and with the error of the callback when the callback
    refuses the context identifier. An error of the cache lookup other than
    not-found ends the read at once. *)
Theorem read_miss_without_iterator (fuel : nat) (cid : Cid) e (d' : DS)
    callback (b : slice) (cerr : option error) :
  Get (ds e) (cidKey cid) = ((None, Some ErrNotFound), d') →
  cb e = Some callback →
  (cacheGet (cidKey cid) e).1 = (b, cerr) →
  let e1 := afterEvents [EvCacheGet (cidKey cid)] (withDs e d') in
  (∀ er, cerr = Some er → er ≠ ErrNotFound →
     StorageReadOpener mkLinkSystem fuel cid e = Fail er e1) ∧
  (cerr = Some ErrNotFound ∨ (cerr = None ∧ b = None) →
     match contextIDs e cid with
     | None => StorageReadOpener mkLinkSystem fuel cid e = Fail ErrNotFound e1
     | Some ctx =>
         ∀ er, callback ctx = Err er →
           StorageReadOpener mkLinkSystem fuel cid e =
             Fail er (afterEvents [EvCacheGet (cidKey cid); EvCallback ctx] (withDs e d'))
     end).
Proof.
  intros Hget Hcb Hcache e1. rewrite (mkLinkSystem_read_miss _ _ _ _ Hget).
  rewrite <- (cacheGet_withDs _ _ d') in Hcache.
  unfold mkLinkSystem_ingest. cbn [withDs cb]. rewrite Hcb.
  fold (withDs e d'). split.
  - intros er -> Hne. unfold bind at 1, mkLinkSystem_fill, bind at 1.
    rewrite getCacheEntry_result, Hcache. by rewrite decide_False.
  - intros Hmiss.
    pose proof (mkLinkSystem_fill_miss fuel _ callback _ _ _ Hcache Hmiss) as Hfill.
    replace (contextIDs (withDs e d') cid) with (contextIDs e cid) in Hfill by done.
    destruct (contextIDs e cid) as [ctx|].
    + intros er Her. unfold bind. by rewrite Hfill, Her.
    + unfold bind. by rewrite Hfill.
Qed.

Lemma mkLinkSystem_serve_engine (cid : Cid) e :
  engineOf (mkLinkSystem_serve cid e) = Some (afterEvents [EvCacheGet (cidKey cid)] e).
Proof.
  unfold mkLinkSystem_serve, bind. pose proof (getCacheEntry_engine cid e) as Hget.
  destruct (getCacheEntry cid e) as [val e2|er e2|e2|]; [| | |done];
    injection Hget as ->; [|done..].
  by destruct (len val =? 0).
Qed.

Lemma lruGet_found (ls : lrustore.LRUStore Key) (key : Key) (v : slice) :
  lrustore.find key (lrustore.entries ls) = Some v →
  Get ls key =
    ((v, None), lrustore.mkLRU (lrustore.capacity ls)
                  ((key, v) :: lrustore.remove key (lrustore.entries ls))).
Proof. intros Hf. simpl. unfold lrustore.lruGet. by rewrite Hf. Qed.

(** Serving a link that the LRU cache holds, linksystem.go:110-124. *)
Lemma mkLinkSystem_serve_LRU (cid : Cid) e (ls : lrustore.LRUStore Key) (v : slice) :
  cache e = LRU ls →
  lrustore.find (cidKey cid) (lrustore.entries ls) = Some v →
  mkLinkSystem_serve cid e =
    (if len v =? 0 then Fail ErrNotFound (afterEvents [EvCacheGet (cidKey cid)] e)
     else Return (NewBuffer v) (afterEvents [EvCacheGet (cidKey cid)] e)) ∧
  cache (afterEvents [EvCacheGet (cidKey cid)] e) =
    LRU (lrustore.mkLRU (lrustore.capacity ls)
           ((cidKey cid, v) :: lrustore.remove (cidKey cid) (lrustore.entries ls))).
Proof.
  intros Hc Hf. split.
  - unfold mkLinkSystem_serve, bind. rewrite getCacheEntry_run, Hc. cbn beta iota.
    rewrite (lruGet_found _ _ _ Hf). cbn [fst]. by destruct (len v =? 0).
  - cbn [afterEvents cache]. rewrite Hc. unfold replay. cbn [foldl applyEvent].
    by rewrite (lruGet_found _ _ _ Hf).
Qed.

Lemma read_cache_hit_any (fuel : nat) (cid : Cid) e (d' : DS) callback (v : bytes) :
  Get (ds e) (cidKey cid) = ((None, Some ErrNotFound), d') →
  cb e = Some callback →
  (cacheGet (cidKey cid) e).1 = (Some v, None) →
  let e2 := afterEvents [EvCacheGet (cidKey cid); EvCacheGet (cidKey cid)] (withDs e d') in
  engineOf (StorageReadOpener mkLinkSystem fuel cid e) = Some e2 ∧
  (∀ ls, cache e = LRU ls →
     StorageReadOpener mkLinkSystem fuel cid e =
       match v with
       | [] => Fail ErrNotFound e2
       | _ :: _ => Return v e2
       end).
Proof.
  intros Hget Hcb Hcache e2. rewrite (mkLinkSystem_read_miss _ _ _ _ Hget).
  rewrite <- (cacheGet_withDs _ _ d') in Hcache.
  unfold mkLinkSystem_ingest. cbn [withDs cb]. rewrite Hcb. fold (withDs e d').
  assert (mkLinkSystem_fill fuel cid callback (withDs e d') =
            Return tt (afterEvents [EvCacheGet (cidKey cid)] (withDs e d'))) as Hfill.
  { unfold mkLinkSystem_fill, bind. by rewrite getCacheEntry_result, Hcache. }
  split.
  - unfold bind at 1. rewrite Hfill. cbn beta iota.
    rewrite mkLinkSystem_serve_engine. by rewrite afterEvents_app.
  - intros ls Hc. unfold bind at 1. rewrite Hfill. cbn beta iota.
    rewrite cacheGet_run in Hcache. cbn [withDs cache fst] in Hcache.
    rewrite Hc in Hcache. simpl in Hcache. unfold lrustore.lruGet in Hcache.
    destruct (lrustore.find (cidKey cid) (lrustore.entries ls)) as [v0|] eqn:Hf; [|done].
    injection Hcache as ->.
    destruct (mkLinkSystem_serve_LRU cid (afterEvents [EvCacheGet (cidKey cid)] (withDs e d'))
                (lrustore.mkLRU (lrustore.capacity ls)
                   ((cidKey cid, Some v) :: lrustore.remove (cidKey cid) (lrustore.entries ls)))
                (Some v)) as [-> _].
    + cbn [afterEvents cache withDs]. rewrite Hc. unfold replay. cbn [foldl applyEvent].
      by rewrite (lruGet_found _ _ _ Hf).
    + simpl. by rewrite decide_True.
    + rewrite afterEvents_app. by destruct v.
Qed.

Lemma read_cache_hit_LRU (fuel : nat) (cid : Cid) e (d' : DS) callback (v : bytes)
    (ls : lrustore.LRUStore Key) :
  Get (ds e) (cidKey cid) = ((None, Some ErrNotFound), d') →
  cb e = Some callback →
  (cacheGet (cidKey cid) e).1 = (Some v, None) →
  cache e = LRU ls →
  StorageReadOpener mkLinkSystem fuel cid e =
    match v with
    | [] => Fail ErrNotFound
              (afterEvents [EvCacheGet (cidKey cid); EvCacheGet (cidKey cid)] (withDs e d'))
    | _ :: _ => Return v
              (afterEvents [EvCacheGet (cidKey cid); EvCacheGet (cidKey cid)] (withDs e d'))
    end.
Proof.
  intros Hget Hcb Hcache Hc.
  exact (proj2 (read_cache_hit_any fuel cid e d' callback v Hget Hcb Hcache) ls Hc).
Qed.

(** X8. When the persistent store misses and the cache holds a value that
    is not nil under the key of the link, the read calls neither the
    callback nor the generator: it makes two cache lookups and nothing else.
    On the LRU cache it returns the cached bytes, or not-found when they are
    of length zero. *)
Theorem read_cache_hit (fuel : nat) (cid : Cid) e (d' : DS) callback (v : bytes) :
  Get (ds e) (cidKey cid) = ((None, Some ErrNotFound), d') →
  cb e = Some callback →
  (cacheGet (cidKey cid) e).1 = (Some v, None) →
  let e2 := afterEvents [EvCacheGet (cidKey cid); EvCacheGet (cidKey cid)] (withDs e d') in
  engineOf (StorageReadOpener mkLinkSystem fuel cid e) = Some e2 ∧
  (∀ ls, cache e = LRU ls →
     StorageReadOpener mkLinkSystem fuel cid e =
       match v with
       | [] => Fail ErrNotFound e2
       | _ :: _ => Return v e2
       end).
Proof.
  intros Hget Hcb Hcache. exact (read_cache_hit_any fuel cid e d' callback v Hget Hcb Hcache).
Qed.

(** *** The LRU cache after a run *)

Lemma cut_count_le k l buf :
  (length (cut k buf l).1 + length (leftover (cut k buf l).2)
   ≤ length l + length (leftover buf))%nat.
Proof.
  revert buf. induction l as [|mh l IH]; intros buf; cbn [cut]; [simpl; lia|].
  destruct (k <=? Z.of_nat (length (buf ++ [mh]))).
  - specialize (IH []). destruct (cut k [] l) as [bs r]. simpl in *. lia.
  - specialize (IH (buf ++ [mh])). destruct buf; simpl in *; lia.
Qed.

Lemma batches_count_le k l : (length (batches k l) ≤ length l)%nat.
Proof.
  pose proof (cut_count_le k l []) as Hle. unfold batches.
  destruct (cut k [] l) as [bs r]. rewrite length_app. simpl in *. lia.
Qed.

(** One chunk written into an LRU cache with a capacity that is positive and
    not near the limit of [int]: the chunk's bytes are under its key
    afterwards, and every other key holds what it held. *)
Lemma replay_write_LRU_values (ls : lrustore.LRUStore Key) ch :
  0 < lrustore.Cap ls < 2 ^ 62 →
  lrustore.Len ls ≤ lrustore.Cap ls →
  ∃ ls',
    replay (growthEvents (LRU ls) ++ writeEvents ch) (LRU ls) = LRU ls' ∧
    lrustore.Cap ls' =
      (if lrustore.Len ls =? lrustore.Cap ls then lrustore.Cap ls * 2 else lrustore.Cap ls) ∧
    lrustore.Len ls' ≤ lrustore.Len ls + 1 ∧
    lrustore.Len ls' ≤ lrustore.Cap ls' ∧
    lrustore.find (putOf ch).1 (lrustore.entries ls') = Some (putOf ch).2 ∧
    (∀ key, key ≠ (putOf ch).1 →
            lrustore.find key (lrustore.entries ls') =
            lrustore.find key (lrustore.entries ls)).
Proof.
  destruct ls as [cap es]. unfold lrustore.Cap, lrustore.Len.
  cbn [lrustore.capacity lrustore.entries]. intros Hcap Hlen.
  set (cap' := if Z.of_nat (length es) =? cap then cap * 2 else cap).
  assert (Z.of_nat (length es) < cap') as Hroom.
  { unfold cap'. destruct (Z.eqb_spec (Z.of_nat (length es)) cap); lia. }
  unfold putOf. cbn [fst snd].
  pose proof (remove_length (cidKey (chunkLink ch)) es) as Hrem.
  exists (lrustore.mkLRU cap'
            ((cidKey (chunkLink ch), Buffer_Bytes (chunkBytes ch))
               :: lrustore.remove (cidKey (chunkLink ch)) es)).
  cbn [lrustore.capacity lrustore.entries].
  split_and!.
  - unfold growthEvents, lrustore.Len, lrustore.Cap, cap' in *.
    cbn [lrustore.capacity lrustore.entries].
    destruct (Z.of_nat (length es) =? cap); simpl.
    + rewrite wrap64_small by lia.
      unfold lrustore.Resize, lrustore.lruPut. simpl.
      rewrite (evictTo_fits _ es) by lia.
      by rewrite evictTo_fits by (simpl length; lia).
    + unfold lrustore.lruPut. simpl.
      by rewrite evictTo_fits by (simpl length; lia).
  - done.
  - simpl length. lia.
  - simpl length. lia.
  - simpl. by rewrite decide_True.
  - intros key Hkey. simpl. rewrite decide_False by done.
    by rewrite find_remove_ne.
Qed.

(** The chain of chunks written under distinct keys into an LRU cache:
    every chunk's bytes are under its key at the end, and every other key
    holds what it held. *)
Lemma replay_chainEvents_LRU_values ws :
  ∀ (ls : lrustore.LRUStore Key) (cap0 bound : Z),
    0 ≤ cap0 →
    0 < lrustore.Cap ls →
    lrustore.Len ls ≤ lrustore.Cap ls →
    lrustore.Len ls ≤ bound →
    lrustore.Cap ls ≤ cap0 + 2 * bound →
    cap0 + 2 * (bound + Z.of_nat (length ws)) < 2 ^ 62 →
    NoDup (fst ∘ putOf <$> ws) →
    ∃ ls',
      replay (chainEvents (LRU ls) ws) (LRU ls) = LRU ls' ∧
      (∀ ch, ch ∈ ws →
             lrustore.find (putOf ch).1 (lrustore.entries ls') = Some (putOf ch).2) ∧
      (∀ key, key ∉ (fst ∘ putOf <$> ws) →
              lrustore.find key (lrustore.entries ls') =
              lrustore.find key (lrustore.entries ls)).
Proof.
  induction ws as [|ch ws IH]; intros ls cap0 bound Hc0 Hpos Hlen Hb Hcap Hlim Hnd.
  - exists ls. split_and!; [done| |done]. intros ch Hin. by apply elem_of_nil in Hin.
  - destruct (replay_write_LRU_values ls ch ltac:(simpl length in Hlim; lia) Hlen)
      as (ls1 & Hstep & Hcap1 & Hlen1 & Hfit1 & Hch & Hold).
    simpl length in Hlim. rewrite fmap_cons in Hnd. apply NoDup_cons in Hnd as [Hfresh Hnd].
    destruct (IH ls1 cap0 (bound + 1)) as (ls' & Hrest & Hws & Hold').
    + done.
    + rewrite Hcap1. destruct (_ =? _); lia.
    + done.
    + lia.
    + rewrite Hcap1. destruct (Z.eqb_spec (lrustore.Len ls) (lrustore.Cap ls)); lia.
    + lia.
    + done.
    + exists ls'. cbn [chainEvents]. rewrite replay_app, Hstep.
      split_and!; [done| |].
      * intros ch' [->|Hin]%elem_of_cons; [|by apply Hws].
        specialize (Hold' _ Hfresh). unfold compose in Hold'. by rewrite Hold'.
      * intros key Hkey. rewrite fmap_cons in Hkey.
        apply not_elem_of_cons in Hkey as [Hne Hkey].
        rewrite (Hold' _ Hkey). by apply Hold.
Qed.

Lemma replay_shrinkEvents_LRU (ls : lrustore.LRUStore Key) (rz : bool) :
  ∃ ls', replay (shrinkEvents (LRU ls) rz) (LRU ls) = LRU ls' ∧
         lrustore.entries ls' = lrustore.entries ls.
Proof.
  destruct rz; simpl; [|by exists ls].
  eexists; split; [done|]. simpl. apply evictTo_fits. unfold lrustore.Len. lia.
Qed.

(** A whole run on an LRU cache that writes its chunks under distinct keys:
    at the end every chunk's bytes are in the cache under its key. *)
Lemma replay_runEvents_LRU_values (ls : lrustore.LRUStore Key) k l :
  0 < lrustore.Cap ls →
  lrustore.Len ls ≤ lrustore.Cap ls →
  3 * lrustore.Cap ls + 2 * Z.of_nat (length l) < 2 ^ 62 →
  NoDup (fst ∘ putOf <$> linkChain None (batches k l)) →
  ∃ ls',
    replay (runEvents (LRU ls) k l) (LRU ls) = LRU ls' ∧
    (∀ ch, ch ∈ linkChain None (batches k l) →
           lrustore.find (putOf ch).1 (lrustore.entries ls') = Some (putOf ch).2) ∧
    (∀ key, key ∉ (fst ∘ putOf <$> linkChain None (batches k l)) →
            lrustore.find key (lrustore.entries ls') =
            lrustore.find key (lrustore.entries ls)).
Proof.
  intros Hpos Hlen Hlim Hnd. unfold runEvents. cbn zeta. rewrite replay_app.
  pose proof (batches_count_le k l) as Hcount.
  destruct (replay_chainEvents_LRU_values (linkChain None (batches k l)) ls
              (lrustore.Cap ls) (lrustore.Cap ls)) as (ls1 & -> & Hws & Hold);
    [lia|done|done|done|lia|rewrite linkChain_length; lia|done|].
  destruct (replay_shrinkEvents_LRU ls1
              (resized (chainEvents (LRU ls) (linkChain None (batches k l)))))
    as (ls' & -> & Hes).
  exists ls'. rewrite Hes. by split_and!.
Qed.

(** The first read of the link of a chunk of the list, with what it leaves
    in the LRU cache. *)
Lemma read_generates_and_serves_cache (fuel : nat) (it : Iter) l e (d' : DS)
    callback (ctx : bytes) (ls : lrustore.LRUStore Key) ch :
  EncodeNeverFails →
  Get (ds e) (cidKey (chunkLink ch)) = ((None, Some ErrNotFound), d') →
  cb e = Some callback →
  contextIDs e (chunkLink ch) = Some ctx →
  callback ctx = Ok it →
  produces it l EOF → (length l < fuel)%nat →
  0 ≤ linkedChunkSize e →
  cache e = LRU ls →
  0 < lrustore.Cap ls → lrustore.Len ls ≤ lrustore.Cap ls →
  3 * lrustore.Cap ls + 2 * Z.of_nat (length l) < 2 ^ 62 →
  NoDup (fst ∘ putOf <$> linkChain None (batches (linkedChunkSize e) l)) →
  ch ∈ linkChain None (batches (linkedChunkSize e) l) →
  lrustore.find (cidKey (chunkLink ch)) (lrustore.entries ls) = None →
  chunkBytes ch ≠ [] →
  ∃ e' ls',
    StorageReadOpener mkLinkSystem fuel (chunkLink ch) e = Return (chunkBytes ch) e' ∧
    e' = afterEvents ([EvCacheGet (cidKey (chunkLink ch)); EvCallback ctx] ++
                      runEvents (LRU ls) (linkedChunkSize e) l ++
                      [EvCacheGet (cidKey (chunkLink ch))]) (withDs e d') ∧
    cache e' = LRU ls' ∧
    lrustore.find (cidKey (chunkLink ch)) (lrustore.entries ls') =
      Some (Some (chunkBytes ch)).
Proof.
  intros Henc Hget Hcb Hctx Hcall Hprod Hfuel Hk Hc Hpos Hlen Hlim Hnd Hin Hmiss Hbytes.
  rewrite (mkLinkSystem_read_miss _ _ _ _ Hget).
  unfold mkLinkSystem_ingest. cbn [withDs cb]. rewrite Hcb. fold (withDs e d').
  set (key := cidKey (chunkLink ch)) in *.
  set (e0 := withDs e d').
  assert ((cacheGet key e0).1 = (None, Some ErrNotFound)) as Hcache.
  { rewrite cacheGet_run. unfold e0. cbn [withDs cache fst]. rewrite Hc. simpl.
    unfold lrustore.lruGet. by rewrite Hmiss. }
  set (e2 := afterEvents [EvCacheGet key; EvCallback ctx] e0).
  assert (cache e2 = LRU ls) as Hc2.
  { unfold e2, e0. cbn [afterEvents withDs cache]. rewrite Hc. simpl.
    unfold lrustore.lruGet. by rewrite Hmiss. }
  assert (PutsSucceed (cache e2)) as Hput by by rewrite Hc2.
  pose proof (generateChunks_run it l fuel e2 Henc Hput Hk Hprod Hfuel) as Hrun.
  rewrite Hc2 in Hrun. replace (linkedChunkSize e2) with (linkedChunkSize e) in Hrun by done.
  pose proof (mkLinkSystem_fill_miss fuel (chunkLink ch) callback e0 _ _ Hcache
                ltac:(by left)) as Hfill.
  replace (contextIDs e0 (chunkLink ch)) with (contextIDs e (chunkLink ch)) in Hfill by done.
  rewrite Hctx, Hcall in Hfill. fold key e2 in Hfill. rewrite Hrun in Hfill.
  unfold bind at 1. rewrite Hfill. cbn beta iota.
  destruct (replay_runEvents_LRU_values ls (linkedChunkSize e) l Hpos Hlen Hlim Hnd)
    as (ls' & Hls' & Hws & _).
  specialize (Hws ch Hin). unfold putOf in Hws. cbn [fst snd] in Hws. fold key in Hws.
  assert (Buffer_Bytes (chunkBytes ch) = Some (chunkBytes ch)) as Hval.
  { by destruct (chunkBytes ch). }
  rewrite Hval in Hws.
  destruct (mkLinkSystem_serve_LRU (chunkLink ch)
              (afterEvents (runEvents (LRU ls) (linkedChunkSize e) l) e2) ls'
              (Some (chunkBytes ch))) as [-> Hc3].
  { cbn [afterEvents cache]. by rewrite Hc2. }
  { done. }
  assert ((len (Some (chunkBytes ch)) =? 0) = false) as ->.
  { apply Z.eqb_neq. simpl. destruct (chunkBytes ch); [done|simpl; lia]. }
  fold key in Hc3 |- *. unfold e2 in Hc3 |- *. rewrite !afterEvents_app in Hc3 |- *.
  eexists _, _. split; [reflexivity|]. split; [done|].
  split; [exact Hc3|]. simpl. by rewrite decide_True.
Qed.

(** X9. Reading the link of any chunk of the list for the first time: after
    a miss in the persistent store and in the LRU cache, the read asks the
    callback for the iterator of the link's context identifier, generates the
    whole chain and returns the encoded bytes of the chunk that the link
    names. The cache has a capacity that is positive and far from the limit
    of [int], the chunks have distinct keys and the chunk's encoding is not
    empty. *)
Theorem read_generates_and_serves (fuel : nat) (it : Iter) l e (d' : DS)
    callback (ctx : bytes) (ls : lrustore.LRUStore Key) ch :
  EncodeNeverFails →
  Get (ds e) (cidKey (chunkLink ch)) = ((None, Some ErrNotFound), d') →
  cb e = Some callback →
  contextIDs e (chunkLink ch) = Some ctx →
  callback ctx = Ok it →
  produces it l EOF → (length l < fuel)%nat →
  0 ≤ linkedChunkSize e →
  cache e = LRU ls →
  0 < lrustore.Cap ls → lrustore.Len ls ≤ lrustore.Cap ls →
  3 * lrustore.Cap ls + 2 * Z.of_nat (length l) < 2 ^ 62 →
  NoDup (fst ∘ putOf <$> linkChain None (batches (linkedChunkSize e) l)) →
  ch ∈ linkChain None (batches (linkedChunkSize e) l) →
  lrustore.find (cidKey (chunkLink ch)) (lrustore.entries ls) = None →
  chunkBytes ch ≠ [] →
  ∃ e',
    StorageReadOpener mkLinkSystem fuel (chunkLink ch) e = Return (chunkBytes ch) e' ∧
    ds e' = d' ∧
    log e' = log e ++ [EvCacheGet (cidKey (chunkLink ch)); EvCallback ctx] ++
               runEvents (LRU ls) (linkedChunkSize e) l ++
               [EvCacheGet (cidKey (chunkLink ch))].
Proof.
  intros Henc Hget Hcb Hctx Hcall Hprod Hfuel Hk Hc Hpos Hlen Hlim Hnd Hin Hmiss Hbytes.
  destruct (read_generates_and_serves_cache fuel it l e d' callback ctx ls ch)
    as (e' & ls' & Hread & -> & _); try done.
  eexists. split; [exact Hread|]. by split.
Qed.

(** X20. A link that was read once is served from the cache from then on:
    after the first read of a chunk's link generated the chain, a second read
    of the same link, with the persistent store still missing it, returns the
    same bytes with two cache lookups and nothing else, whatever its
    iteration budget: the callback is not called again and nothing is
    generated or written. *)
Theorem read_twice (fuel fuel' : nat) (it : Iter) l e (d' d'' : DS)
    callback (ctx : bytes) (ls : lrustore.LRUStore Key) ch :
  EncodeNeverFails →
  Get (ds e) (cidKey (chunkLink ch)) = ((None, Some ErrNotFound), d') →
  Get d' (cidKey (chunkLink ch)) = ((None, Some ErrNotFound), d'') →
  cb e = Some callback →
  contextIDs e (chunkLink ch) = Some ctx →
  callback ctx = Ok it →
  produces it l EOF → (length l < fuel)%nat →
  0 ≤ linkedChunkSize e →
  cache e = LRU ls →
  0 < lrustore.Cap ls → lrustore.Len ls ≤ lrustore.Cap ls →
  3 * lrustore.Cap ls + 2 * Z.of_nat (length l) < 2 ^ 62 →
  NoDup (fst ∘ putOf <$> linkChain None (batches (linkedChunkSize e) l)) →
  ch ∈ linkChain None (batches (linkedChunkSize e) l) →
  lrustore.find (cidKey (chunkLink ch)) (lrustore.entries ls) = None →
  chunkBytes ch ≠ [] →
  ∃ e' e'',
    StorageReadOpener mkLinkSystem fuel (chunkLink ch) e = Return (chunkBytes ch) e' ∧
    StorageReadOpener mkLinkSystem fuel' (chunkLink ch) e' = Return (chunkBytes ch) e'' ∧
    log e'' = log e' ++ [EvCacheGet (cidKey (chunkLink ch));
                         EvCacheGet (cidKey (chunkLink ch))].
Proof.
  intros Henc Hget Hget' Hcb Hctx Hcall Hprod Hfuel Hk Hc Hpos Hlen Hlim Hnd Hin Hmiss Hbytes.
  destruct (read_generates_and_serves_cache fuel it l e d' callback ctx ls ch)
    as (e' & ls' & Hread & He' & Hc' & Hfind); try done.
  assert (ds e' = d') as Hds by by rewrite He'.
  assert (cb e' = Some callback) as Hcb' by by rewrite He'.
  rewrite <- Hds in Hget'.
  assert ((cacheGet (cidKey (chunkLink ch)) e').1 = (Some (chunkBytes ch), None)) as Hhit.
  { rewrite cacheGet_run, Hc'. cbn [fst]. by rewrite (lruGet_found _ _ _ Hfind). }
  pose proof (read_cache_hit_LRU fuel' (chunkLink ch) e' d'' callback (chunkBytes ch) ls'
                Hget' Hcb' Hhit Hc') as Hagain.
  exists e', (afterEvents [EvCacheGet (cidKey (chunkLink ch));
                           EvCacheGet (cidKey (chunkLink ch))] (withDs e' d'')).
  split; [exact Hread|]. split; [|done].
  rewrite Hagain. by destruct (chunkBytes ch).
Qed.

(** *** Edges of the generator *)

(** X10. An iterator that is at its end from the start: the generator
    returns no link and leaves the engine as it was, with nothing written
    and, even when the LRU cache is full, nothing resized. A negative chunk
    size makes the generator panic before the iterator is asked, whatever
    the iterator. *)
Theorem generateChunks_empty_or_negative (fuel : nat) (it it' : Iter) e :
  (linkedChunkSize e < 0 → generateChunks fuel it e = Panic e) ∧
  (0 ≤ linkedChunkSize e → Next it = Some (Err EOF, it') →
     generateChunks (S fuel) it e = Return None e).
Proof.
  unfold generateChunks. cbn zeta. split.
  - intros Hk. by destruct (Z.ltb_spec (linkedChunkSize e) 0); [|lia].
  - intros Hk Hnext. destruct (Z.ltb_spec (linkedChunkSize e) 0); [lia|].
    unfold bind. cbn [generateChunks_loop]. rewrite Hnext. by rewrite decide_True.
Qed.

Lemma cut_singletons k l : k ≤ 1 → cut k [] l = ((λ mh, [mh]) <$> l, []).
Proof.
  intros Hk. induction l as [|mh l IH]; [done|]. cbn [cut app length].
  destruct (Z.leb_spec k (Z.of_nat 1)); [|lia]. by rewrite IH.
Qed.

(** X11. With a chunk size of zero or one, a run over a sequence stores one
    chunk for each multihash, in the order of the sequence: a chunk size of
    zero is not an error and behaves as a chunk size of one. *)
Theorem generateChunks_one_per_multihash (it : Iter) l (fuel : nat) e :
  EncodeNeverFails → PutsSucceed (cache e) →
  0 ≤ linkedChunkSize e ≤ 1 →
  produces it l EOF → (length l < fuel)%nat →
  ∃ root e' evs,
    generateChunks fuel it e = Return root e' ∧
    log e' = log e ++ evs ∧
    (Entries ∘ fst) <$> storedChunks evs = (λ mh, [mh]) <$> l ∧
    length (cachePuts evs) = length l.
Proof.
  intros Henc Hput Hk Hprod Hfuel.
  pose proof (generateChunks_run it l fuel e Henc Hput ltac:(lia) Hprod Hfuel) as Hrun.
  do 3 eexists. split; [exact Hrun|]. split; [done|].
  rewrite storedChunks_runEvents, cachePuts_runEvents.
  assert (batches (linkedChunkSize e) l = (λ mh, [mh]) <$> l) as Hb.
  { unfold batches. rewrite cut_singletons by lia. simpl. by rewrite app_nil_r. }
  split.
  - rewrite <- list_fmap_compose.
    transitivity (Entries <$> linkChain None (batches (linkedChunkSize e) l)); [done|].
    by rewrite linkChain_Entries.
  - by rewrite length_fmap, linkChain_length, Hb, length_fmap.
Qed.

(** *** The cache lookups *)

(** X12. [getCacheEntry] and the read opener of the cache link system make
    the same call on the cache and differ in what they answer: a not-found
    of the cache is a nil value without an error for [getCacheEntry], which
    never fails with not-found, and an error for the read opener; every
    other error is passed on by both, and a value is returned by both. *)
Theorem getCacheEntry_masks_not_found (fuel : nat) (cid : Cid) e :
  engineOf (getCacheEntry cid e) = engineOf (StorageReadOpener cacheLinkSystem fuel cid e) ∧
  (∀ e', getCacheEntry cid e ≠ Fail ErrNotFound e') ∧
  (∀ e', StorageReadOpener cacheLinkSystem fuel cid e = Fail ErrNotFound e' →
         getCacheEntry cid e = Return None e') ∧
  (∀ er e', er ≠ ErrNotFound →
     (StorageReadOpener cacheLinkSystem fuel cid e = Fail er e' ↔
      getCacheEntry cid e = Fail er e')) ∧
  (∀ b e', StorageReadOpener cacheLinkSystem fuel cid e = Return b e' →
         ∃ v, getCacheEntry cid e = Return v e' ∧ b = NewBuffer v).
Proof.
  rewrite getCacheEntry_result. simpl. rewrite cacheGet_run. cbn [fst].
  destruct (match cache e with CacheLRU ls => _ | CacheOther d => _ end) as [b [er|]];
    [destruct (decide (er = ErrNotFound)) as [->|Hne]|];
    (split_and!; [done|..]);
    try (intros er' e' Hne'; split);
    intros; simplify_eq; eauto; congruence.
Qed.

(** *** Writing and reading back *)

Lemma NewBuffer_Buffer_Bytes (buf : bytes) : NewBuffer (Buffer_Bytes buf) = buf.
Proof. by destruct buf. Qed.

Lemma len_Buffer_Bytes (buf : bytes) : buf ≠ [] → (len (Buffer_Bytes buf) =? 0) = false.
Proof. intros Hbuf. apply Z.eqb_neq. destruct buf; [done|simpl; lia]. Qed.

(** X13. On a persistent store that answers a lookup after a write with the
    value written, what the write opener of the vanilla link system stored
    under a link is what its read opener returns for that link, also when
    nothing was written to the buffer; the cache and the record are not
    touched. *)
Theorem vanilla_write_then_read (fuel : nat) (cid : Cid) (buf : bytes) e e1 :
  GetAfterPut DS →
  StorageWriteOpener vanillaLinkSystem buf cid e = Return tt e1 →
  ∃ e2, StorageReadOpener vanillaLinkSystem fuel cid e1 = Return buf e2 ∧
        cache e2 = cache e ∧ log e2 = log e.
Proof.
  intros Hlaw. simpl.
  destruct (Put (ds e) (cidKey cid) (Buffer_Bytes buf)) as [[er|] d] eqn:Hput; [done|].
  intros [= <-]. rewrite dsGet_run. cbn [withDs ds].
  pose proof (Hlaw _ _ _ _ Hput) as Hget.
  destruct (Get d (cidKey cid)) as [[v err] d2]. simpl in Hget. injection Hget as -> ->.
  cbn [fst snd]. eexists. split; [by rewrite NewBuffer_Buffer_Bytes|done].
Qed.

(** X14. An advertisement written through the write opener of the main
    link system is read back by its read opener from the persistent store
    alone, without a callback being needed and without a call on the cache;
    the store answers a lookup after a write with the value written. *)
Theorem advertisement_write_then_read (fuel : nat) (cid : Cid) (buf : bytes) (n : Node)
    e e1 :
  GetAfterPut DS →
  StorageWriteOpener mkLinkSystem buf cid e = Return tt e1 →
  buf ≠ [] → dagjsonDecode buf = Ok n → isAdvertisement n = true →
  ∃ e2, StorageReadOpener mkLinkSystem fuel cid e1 = Return buf e2 ∧
        cache e2 = cache e ∧ log e2 = log e.
Proof.
  intros Hlaw. simpl.
  destruct (Put (ds e) (cidKey cid) (Buffer_Bytes buf)) as [[er|] d] eqn:Hput; [done|].
  intros [= <-] Hbuf Hdec Had. unfold mkLinkSystem_read. rewrite dsGet_run. cbn [withDs ds].
  pose proof (Hlaw _ _ _ _ Hput) as Hget.
  destruct (Get d (cidKey cid)) as [[v err] d2]. simpl in Hget. injection Hget as -> ->.
  cbn [fst snd]. cbn zeta. rewrite (len_Buffer_Bytes _ Hbuf).
  unfold decodeIPLDNode. rewrite NewBuffer_Buffer_Bytes, Hdec, Had. by eexists.
Qed.

(** X15. What the write opener of the cache link system stored under a
    link is what its read opener returns for that link, on an LRU cache of
    positive capacity and on any other cache that answers a lookup after a
    write with the value written. *)
Theorem cache_write_then_read (fuel : nat) (cid : Cid) (buf : bytes) e e1 :
  match cache e with
  | CacheLRU ls => 0 < lrustore.Cap ls
  | CacheOther _ => GetAfterPut D
  end →
  StorageWriteOpener cacheLinkSystem buf cid e = Return tt e1 →
  ∃ e2, StorageReadOpener cacheLinkSystem fuel cid e1 = Return buf e2 ∧
        log e2 = log e ++ [EvCachePut (cidKey cid) (Buffer_Bytes buf);
                           EvCacheGet (cidKey cid)].
Proof.
  intros Hcache. simpl. unfold cachePut, cacheGet.
  destruct e as [d c cbk k ctxs lg]. cbn [cache] in *.
  destruct c as [[cap es]|o]; cbn [cache withCache logEvent].
  - simpl. intros [= <-]. simpl.
    unfold lrustore.Cap in Hcache. cbn [lrustore.capacity] in Hcache.
    unfold lrustore.lruGet, lrustore.evictTo. cbn [lrustore.entries lrustore.capacity].
    destruct (Z.to_nat cap) as [|m] eqn:Hm; [lia|]. simpl. rewrite decide_True by done.
    eexists. split; [by rewrite NewBuffer_Buffer_Bytes|]. simpl. by rewrite <- app_assoc.
  - destruct (Put o (cidKey cid) (Buffer_Bytes buf)) as [[er|] o'] eqn:Hput; [done|].
    intros [= <-]. cbn [cache withCache logEvent].
    pose proof (Hcache _ _ _ _ Hput) as Hget.
    destruct (Get o' (cidKey cid)) as [[v err] o2]. simpl in Hget. injection Hget as -> ->.
    eexists. split; [by rewrite NewBuffer_Buffer_Bytes|]. simpl. by rewrite <- app_assoc.
Qed.

(** *** Distinct links *)

Lemma linkChain_no_repeat bs :
  (∀ ch ch', ch ∈ linkChain None bs → ch' ∈ linkChain None bs →
             chunkLink ch = chunkLink ch' → ch = ch') →
  ∀ i j ch, (i < j)%nat →
    linkChain None bs !! i = Some ch → linkChain None bs !! j = Some ch → False.
Proof.
  intros Hinj i. induction i as [|i IH]; intros j ch Hij Hi Hj.
  - destruct j as [|j]; [lia|].
    destruct (lookup_lt_is_Some_2 (linkChain None bs) j) as [ch0 Hch0].
    { apply lookup_lt_Some in Hj. lia. }
    pose proof (linkChain_next _ _ _ _ _ Hch0 Hj) as Hnext.
    assert (Next_ ch = None) as Hnone.
    { apply (linkChain_head None bs). by rewrite head_lookup. }
    congruence.
  - destruct j as [|j]; [lia|].
    destruct (lookup_lt_is_Some_2 (linkChain None bs) i) as [chi Hchi].
    { apply lookup_lt_Some in Hi. lia. }
    destruct (lookup_lt_is_Some_2 (linkChain None bs) j) as [chj Hchj].
    { apply lookup_lt_Some in Hj. lia. }
    pose proof (linkChain_next _ _ _ _ _ Hchi Hi) as Hn1.
    pose proof (linkChain_next _ _ _ _ _ Hchj Hj) as Hn2.
    assert (chi = chj) as ->.
    { apply Hinj; [by eapply list_elem_of_lookup_2..|congruence]. }
    apply (IH j chj); [lia|done..].
Qed.

(** X16. However a run of the generator ends, no two chunks it stored have
    the same link, also when the same multihashes come again, as long as two
    different chunks among those stored never hash to the same link: a
    chunk's link to the chunk before it makes it differ from every chunk
    stored earlier. *)
Theorem generateChunks_links_distinct (fuel : nat) (it : Iter) e e' evs :
  engineOf (generateChunks fuel it e) = Some e' →
  log e' = log e ++ evs →
  (∀ s s', s ∈ storedChunks evs → s' ∈ storedChunks evs → s.2 = s'.2 → s.1 = s'.1) →
  NoDup (snd <$> storedChunks evs).
Proof.
  intros Hrun Hlog Hinj.
  pose proof (generateChunks_record fuel it e) as Hrec. cbn zeta in Hrec.
  assert (∃ bs, storedChunks evs = stored <$> linkChain None bs) as [bs Hst].
  { destruct (generateChunks fuel it e) as [root e1|er e1|e1|]; [| | |done];
      injection Hrun as ->.
    - destruct Hrec as (evs0 & bs & -> & (_ & ? & _) & _).
      simpl in Hlog. apply app_inv_head in Hlog as <-. by exists bs.
    - destruct Hrec as (evs0 & bs & -> & (_ & ? & _) & _).
      simpl in Hlog. apply app_inv_head in Hlog as <-. by exists bs.
    - destruct Hrec as (evs0 & bs & -> & (_ & ? & _) & _).
      simpl in Hlog. apply app_inv_head in Hlog as <-. by exists bs. }
  rewrite Hst in *. rewrite <- list_fmap_compose.
  assert (∀ ch ch', ch ∈ linkChain None bs → ch' ∈ linkChain None bs →
                    chunkLink ch = chunkLink ch' → ch = ch') as Hinj'.
  { intros ch ch' Hch Hch' Heq.
    apply (Hinj (stored ch) (stored ch')); [by apply list_elem_of_fmap_2..|done]. }
  apply NoDup_fmap_2_strong.
  - intros ch ch' Hch Hch' Heq. by apply Hinj'.
  - apply NoDup_alt. intros i j ch Hi Hj.
    destruct (Nat.lt_trichotomy i j) as [Hlt|[->|Hlt]]; [|done|].
    + by destruct (linkChain_no_repeat bs Hinj' i j ch).
    + by destruct (linkChain_no_repeat bs Hinj' j i ch).
Qed.
End more_properties.

(** ** The iterator and the lister of the [pub] command *)

Section contentsIter_properties.
Context {Multihash : Type} (Sum : string → Multihash).

Local Abbreviation yields := (produces (H:=contentsIter_MultihashIterator Sum)).

(** X17. From any position within its contents, the iterator of the [pub]
    command gives the multihashes of the contents that are left, in order,
    and then the end of the sequence; the iterator that the lister makes,
    at position 0, gives the multihash of every content string. *)
Theorem contentsIter_produces :
  (∀ pre rest : list string,
     yields (mkContentsIter (Z.of_nat (length pre)) (pre ++ rest)) (Sum <$> rest) EOF) ∧
  (∀ contents : list string,
     yields (mkContentsIter 0 contents) (Sum <$> contents) EOF).
Proof.
  assert (∀ rest pre : list string,
            yields (mkContentsIter (Z.of_nat (length pre)) (pre ++ rest))
              (Sum <$> rest) EOF) as Hgen.
  { induction rest as [|s rest IH]; intros pre.
    - eapply produces_end. simpl. unfold contentsIter_Next. cbn [offset contents].
      rewrite app_nil_r. by rewrite Z.eqb_refl.
    - eapply produces_next.
      + simpl. unfold contentsIter_Next. cbn [offset contents].
        destruct (Z.eqb_spec (Z.of_nat (length pre)) (Z.of_nat (length (pre ++ s :: rest))))
          as [Heq|_].
        { rewrite length_app in Heq. simpl in Heq. lia. }
        destruct (Z.ltb_spec (Z.of_nat (length pre)) 0); [lia|].
        rewrite Nat2Z.id, lookup_app_r, Nat.sub_diag by done. reflexivity.
      + specialize (IH (pre ++ [s])). rewrite length_app, <- app_assoc in IH.
        simpl in IH. by rewrite Nat2Z.inj_add in IH. }
  split; [intros pre rest; apply Hgen|]. intros contents. apply (Hgen contents []).
Qed.

(** X18. [Next] of the iterator of the [pub] command panics exactly when
    the position is outside the contents. A call at a position within the
    contents leaves a position within the same contents, so the iterator
    that the lister makes never panics; at the end the iterator answers the
    end of the sequence and stays where it is. *)
Theorem contentsIter_Next_in_range (c : contentsIter) :
  (contentsIter_Next Sum c = None ↔
     offset c < 0 ∨ Z.of_nat (length (contents c)) < offset c) ∧
  (∀ r c', contentsIter_Next Sum c = Some (r, c') →
     contents c' = contents c ∧ 0 ≤ offset c' ≤ Z.of_nat (length (contents c')) ∧
     (r = Err EOF ↔ offset c = Z.of_nat (length (contents c))) ∧
     (r = Err EOF → c' = c)).
Proof.
  destruct c as [off cs]. unfold contentsIter_Next. cbn [offset contents].
  destruct (Z.eqb_spec off (Z.of_nat (length cs))) as [->|Hne].
  { split; [split; [done|lia]|]. intros r c' [= <- <-]. simpl. repeat split; intros; (done || lia). }
  destruct (Z.ltb_spec off 0) as [Hneg|Hpos].
  { split; [split; [by left|done]|done]. }
  destruct (cs !! Z.to_nat off) as [s|] eqn:Hs.
  - apply lookup_lt_Some in Hs. split; [split; [done|lia]|].
    intros r c' [= <- <-]. simpl. repeat split; intros; (done || lia).
  - apply lookup_ge_None in Hs. split; [split; [lia|done]|done].
Qed.

(** X19. The lister that the [pub] command registers answers the bytes of
    its own context identifier with an iterator at the start of the
    contents, and any other context identifier with an error. *)
Theorem pubLister_own_context (ctxID : string) (cs : list string) :
  pubLister ctxID cs (String.list_byte_of_string ctxID) = Ok (mkContentsIter 0 cs) ∧
  (∀ contextID : bytes,
     contextID ≠ String.list_byte_of_string ctxID →
     ∃ er, pubLister ctxID cs contextID = Err er).
Proof.
  unfold pubLister. split.
  - by rewrite String.string_of_list_byte_of_string, decide_True.
  - intros contextID Hne. rewrite decide_False; [by eexists|].
    intros ->. by rewrite String.list_byte_of_string_of_list_byte in Hne.
Qed.
End contentsIter_properties.

(** ** The properties on the concrete engine *)

Module witnesses.
Import demo.

Lemma encode_never_fails : EncodeNeverFails (H2:=codecs).
Proof. intros ch. eexists. reflexivity. Defined.

Lemma put_never_fails : PutNeverFails (D:=gmap string slice).
Proof. intros d k v. reflexivity. Defined.

Lemma five_produced : produces (mkContentsIter 0 five) (Sum <$> five) EOF.
Proof.
  repeat (eapply produces_next; [reflexivity|]). eapply produces_end. reflexivity.
Defined.

Lemma five_nonempty : Sum <$> five ≠ [].
Proof. vm_compute. discriminate. Defined.

Lemma five_fuel : (length (Sum <$> five) < 6)%nat.
Proof. vm_compute. lia. Defined.

(** Five multihashes in chunks of two: three chunks, linked backwards. *)
Lemma generateChunks_writes_chain_witness :
  ∃ e' evs root,
    generateChunks 6 (mkContentsIter 0 five) (engine ∅ (lru 2) None 2 "ctx") =
      Return (Some root) e' ∧
    log e' = [] ++ evs ∧
    let ss := storedChunks evs in
    cachePuts evs = putAt <$> ss ∧
    Forall (λ s, s.2 = chunkLink s.1) ss ∧
    Z.of_nat (length ss) = (5 + 2 - 1) / 2 ∧
    (∀ ch lnk, head ss = Some (ch, lnk) → Next_ ch = None) ∧
    (∀ i ch lnk ch' lnk',
       ss !! i = Some (ch, lnk) → ss !! S i = Some (ch', lnk') →
       Next_ ch' = Some lnk) ∧
    (∃ ch, last ss = Some (ch, root)) ∧
    concat ((Entries ∘ fst) <$> ss) = Sum <$> five.
Proof.
  exact (generateChunks_writes_chain (mkContentsIter 0 five) (Sum <$> five) 6
           (engine ∅ (lru 2) None 2 "ctx") encode_never_fails I eq_refl
           five_nonempty five_produced five_fuel).
Defined.

Lemma five_leftover : Z.of_nat (length (Sum <$> five)) mod 2 ≠ 0.
Proof. vm_compute. discriminate. Defined.

(** Five multihashes in chunks of two: the chunk written last holds one. *)
Lemma generateChunks_leftover_last_witness :
  ∃ e' evs root,
    generateChunks 6 (mkContentsIter 0 five) (engine ∅ (lru 2) None 2 "ctx") =
      Return (Some root) e' ∧
    log e' = [] ++ evs ∧
    let ss := storedChunks evs in
    (∀ i ch lnk, ss !! i = Some (ch, lnk) →
       Z.of_nat (length (Entries ch)) =
         if decide (S i = length ss) then 1 else 2) ∧
    ((2:Z) = 2 → 5%nat = 5%nat →
       ∃ ch1 ch2 ch3 lnk1 lnk2,
         ss = [(ch1, lnk1); (ch2, lnk2); (ch3, root)] ∧
         length (Entries ch1) = 2%nat ∧ length (Entries ch2) = 2%nat ∧
         length (Entries ch3) = 1%nat ∧
         Next_ ch3 = Some lnk2 ∧ Next_ ch2 = Some lnk1 ∧ Next_ ch1 = None).
Proof.
  exact (generateChunks_leftover_last (mkContentsIter 0 five) (Sum <$> five) 6
           (engine ∅ (lru 2) None 2 "ctx") encode_never_fails I eq_refl
           five_leftover five_produced five_fuel).
Defined.

(** What the generator does where the specification expects sizes 1, 2, 2: the
    chunks are written with sizes 2, 2, 1, the first one holding two
    multihashes and not the remainder of 5 by 2. *)
Lemma generateChunks_leftover_first_counterexample :
  ∃ root e',
    generateChunks 6 (mkContentsIter 0 five) (engine ∅ (lru 2) None 2 "ctx") =
      Return root e' ∧
    (length ∘ Entries ∘ fst) <$> storedChunks (log e') = [2; 2; 1]%nat ∧
    (length ∘ Entries ∘ fst) <$> storedChunks (log e') ≠ [1; 2; 2]%nat.
Proof.
  eexists. eexists. split; [vm_compute; reflexivity|].
  split; [vm_compute; reflexivity|]. vm_compute. discriminate.
Qed.

Lemma five_singles : length (batches 1 (Sum <$> five)) = 5%nat.
Proof. vm_compute. reflexivity. Defined.

Lemma five_keys_distinct :
  NoDup (fst ∘ putOf <$> linkChain None (batches 1 (Sum <$> five))).
Proof. refine (bool_decide_unpack _ _). vm_compute. exact I. Defined.

(** Five chunks of one multihash on an LRU cache of capacity 2. *)
Lemma generateChunks_cache_growth_shrink_witness :
  ∃ root e' evs ls' ch1 ch2 ch3 ch4 ch5,
    generateChunks 6 (mkContentsIter 0 five) (engine ∅ (lru 2) None 1 "ctx") =
      Return root e' ∧
    log e' = [] ++ evs ∧
    evs = writeEvents ch1 ++ writeEvents ch2 ++ [EvResize 4] ++
          writeEvents ch3 ++ writeEvents ch4 ++ [EvResize 8] ++
          writeEvents ch5 ++ [EvResize 5] ∧
    resizes evs = [4; 8; 5] ∧
    cache e' = CacheLRU ls' ∧ lrustore.Cap ls' = 5 ∧ lrustore.Len ls' = 5.
Proof.
  exact (proj1 generateChunks_cache_growth_shrink (mkContentsIter 0 five)
           (Sum <$> five) 6%nat (engine ∅ (lru 2) None 1 "ctx") encode_never_fails
           eq_refl five_produced five_fuel eq_refl five_singles five_keys_distinct).
Defined.

(** Reading a stored advertisement returns its bytes, with or without a
    callback. *)
Example read_advertisement :
  ∃ e', StorageReadOpener mkLinkSystem 1 zz advertisementEngine =
          Return (String.list_byte_of_string docSigned) e'.
Proof. eexists. vm_compute. reflexivity. Qed.

(** Five multihashes in chunks of two on an LRU cache of capacity 2: the
    cache is doubled before the third chunk and shrunk to three entries. *)
Example three_chunks_resizes :
  ∃ root e',
    generateChunks 6 (mkContentsIter 0 five) (engine ∅ (lru 2) None 2 "ctx") =
      Return root e' ∧
    resizes (log e') = [4; 3].
Proof. eexists. eexists. split; vm_compute; reflexivity. Qed.

(** A map whose Signature is null is classified as an advertisement. *)
Lemma isAdvertisement_field_present_witness :
  isAdvertisement (NMap [("Signature", NNull)]) = true.
Proof.
  exact (proj2 (proj2 (isAdvertisement_field_present (NMap [("Signature", NNull)])))
           [("Signature", NNull)] eq_refl eq_refl).
Defined.

(** The specification expects false for a node whose Signature field is
    null. *)
Lemma isAdvertisement_null_counterexample :
  mapLookup [("Signature", NNull)] "Signature" = Some NNull ∧
  isAdvertisement (NMap [("Signature", NNull)]) ≠ false.
Proof. split; [reflexivity|]. vm_compute. discriminate. Qed.

Lemma read_non_advertisement_witness :
  StorageReadOpener mkLinkSystem 1 zz plainObjectEngine =
    mkLinkSystem_ingest 1 zz (withDs plainObjectEngine storeWithPlainObject) ∧
  (cb plainObjectEngine = None →
   StorageReadOpener mkLinkSystem 1 zz plainObjectEngine =
     Fail ErrNoCallback (withDs plainObjectEngine storeWithPlainObject)).
Proof.
  assert (len (Some (String.list_byte_of_string docEmpty)) ≠ 0) as Hlen
    by (vm_compute; discriminate).
  exact (read_non_advertisement 1 zz plainObjectEngine
           (Some (String.list_byte_of_string docEmpty)) storeWithPlainObject (NMap [])
           eq_refl Hlen eq_refl eq_refl).
Defined.

(** The specification expects the stored bytes back; the read fails
    instead. *)
Lemma read_non_advertisement_counterexample :
  (Get (ds plainObjectEngine) (cidKey zz)).1 =
    (Some (String.list_byte_of_string docEmpty), None) ∧
  (decodeIPLDNode (String.list_byte_of_string docEmpty) = Ok (NMap []) ∧
   isAdvertisement (NMap []) = false) ∧
  (∃ e', StorageReadOpener mkLinkSystem 1 zz plainObjectEngine =
           Fail ErrNoCallback e') ∧
  (∀ e', StorageReadOpener mkLinkSystem 1 zz plainObjectEngine ≠
           Return (String.list_byte_of_string docEmpty) e').
Proof.
  split_and!.
  - reflexivity.
  - reflexivity.
  - reflexivity.
  - eexists. vm_compute. reflexivity.
  - intros e' Hread. vm_compute in Hread. discriminate Hread.
Qed.

Lemma read_without_callback_witness :
  ∃ e', StorageReadOpener mkLinkSystem 1 zz (engine ∅ (lru 2) None 2 "ctx") =
          Fail ErrNoCallback e' ∧
        cache e' = lru 2 ∧ log e' = [].
Proof.
  exact (read_without_callback 1 zz (engine ∅ (lru 2) None 2 "ctx") ∅ eq_refl eq_refl).
Defined.

(** The lister of the [pub] command is registered, the chunks of its five
    contents are generated, and none of them is stored under [zz]. *)
Lemma read_not_found_after_generation_witness :
  ∃ e4,
    StorageReadOpener mkLinkSystem 6 zz
      (engine ∅ (lru 2) (Some (pubLister "ctx" five)) 2 "ctx") =
    Fail ErrNotFound e4.
Proof.
  eexists.
  eapply (read_not_found_after_generation 6 zz
            (engine ∅ (lru 2) (Some (pubLister "ctx" five)) 2 "ctx") ∅
            (pubLister "ctx" five)).
  - reflexivity.
  - reflexivity.
  - reflexivity.
  - reflexivity.
  - reflexivity.
  - vm_compute. reflexivity.
  - vm_compute. reflexivity.
Defined.

Lemma three_then_boom :
  produces (Iter:=scripted)
    [Ok (Sum "a"); Ok (Sum "b"); Ok (Sum "c"); Err boom]
    [Sum "a"; Sum "b"; Sum "c"] boom.
Proof.
  repeat (eapply produces_next; [reflexivity|]). eapply produces_end. reflexivity.
Defined.

(** Three multihashes and then a failure, in chunks of two: one chunk is
    stored, the third multihash is dropped, the error comes back. *)
Lemma generateChunks_iterator_error_witness :
  ∃ ws r,
    generateChunks 4 [Ok (Sum "a"); Ok (Sum "b"); Ok (Sum "c"); Err boom]
      (scriptedEngine (lru 2) 2) =
      Fail boom (afterEvents (chainEvents (lru 2) ws) (scriptedEngine (lru 2) 2)) ∧
    storedChunks (chainEvents (lru 2) ws) = stored <$> ws ∧
    cachePuts (chainEvents (lru 2) ws) = putOf <$> ws ∧
    Z.of_nat (length ws) = 3 / 2 ∧
    Forall (λ ch, Z.of_nat (length (Entries ch)) = 2) ws ∧
    concat (Entries <$> ws) ++ r = [Sum "a"; Sum "b"; Sum "c"] ∧
    (∀ i ch ch', ws !! i = Some ch → ws !! S i = Some ch' →
                 Next_ ch' = Some (chunkLink ch)) ∧
    (∀ ls,
       lru 2 = CacheLRU ls →
       0 < lrustore.Cap ls → lrustore.Len ls ≤ lrustore.Cap ls →
       3 * lrustore.Cap ls + 2 * 3 < 2 ^ 62 →
       ∃ ls',
         cache (afterEvents (chainEvents (lru 2) ws) (scriptedEngine (lru 2) 2)) =
           CacheLRU ls' ∧
         (∀ ch, ch ∈ ws →
                is_Some (lrustore.find (putOf ch).1 (lrustore.entries ls'))) ∧
         (∀ key, is_Some (lrustore.find key (lrustore.entries ls)) →
                 is_Some (lrustore.find key (lrustore.entries ls')))).
Proof.
  assert (boom ≠ EOF) as Hboom by discriminate.
  assert (length [Sum "a"; Sum "b"; Sum "c"] < 4)%nat as Hfuel by (simpl; lia).
  exact (generateChunks_iterator_error
           [Ok (Sum "a"); Ok (Sum "b"); Ok (Sum "c"); Err boom]
           [Sum "a"; Sum "b"; Sum "c"] boom 4 (scriptedEngine (lru 2) 2)
           encode_never_fails I eq_refl three_then_boom Hboom Hfuel).
Defined.

Lemma read_empty_value_witness :
  ∃ e4,
    StorageReadOpener mkLinkSystem 6 zz emptyValueEngine = Fail ErrNotFound e4.
Proof.
  assert (Get (ds emptyValueEngine) (cidKey zz) =
            ((Some [], None), storeWithEmptyValue) ∨
          Get (ds emptyValueEngine) (cidKey zz) =
            ((Some [], Some ErrNotFound), storeWithEmptyValue))
    as Hget by (left; reflexivity).
  destruct (read_empty_value 6 zz emptyValueEngine storeWithEmptyValue (Some [])
              eq_refl Hget)
    as (_ & _ & Hserve).
  eexists. eapply Hserve.
  - reflexivity.
  - vm_compute. reflexivity.
  - vm_compute. reflexivity.
  - reflexivity.
Defined.

(** The same five multihashes on a map datastore and on an LRU cache. *)
Lemma generateChunks_resizes_only_LRU_witness :
  (∀ e', engineOf (generateChunks 6 (mkContentsIter 0 five)
                     (engine ∅ other None 2 "ctx")) = Some e' →
         ∃ evs d', log e' = [] ++ evs ∧ resizes evs = [] ∧ cache e' = CacheOther d') ∧
  (∃ root eL' eO' evsL evsO,
     generateChunks 6 (mkContentsIter 0 five) (engine ∅ (lru 2) None 2 "ctx") =
       Return root eL' ∧
     generateChunks 6 (mkContentsIter 0 five) (engine ∅ other None 2 "ctx") =
       Return root eO' ∧
     log eL' = [] ++ evsL ∧ log eO' = [] ++ evsO ∧
     storedChunks evsO = storedChunks evsL ∧
     cachePuts evsO = cachePuts evsL ∧
     resizes evsO = []).
Proof.
  split.
  - intros e'.
    exact (proj1 generateChunks_resizes_only_LRU (mkContentsIter 0 five) 6%nat
             (engine ∅ other None 2 "ctx") ∅ e' eq_refl).
  - assert (0 ≤ 2) as Hk by lia.
    exact (proj2 generateChunks_resizes_only_LRU (mkContentsIter 0 five)
             (Sum <$> five) 6%nat (engine ∅ (lru 2) None 2 "ctx")
             (engine ∅ other None 2 "ctx") (lrustore.mkLRU 2 []) ∅
             encode_never_fails put_never_fails eq_refl eq_refl eq_refl Hk
             five_produced five_fuel).
Defined.
End witnesses.

(** ** Instances of the further properties *)

Module more_witnesses.
Import demo witnesses.

Lemma five_run :
  engineOf (generateChunks 6 (mkContentsIter 0 five) fiveEngine) = Some afterFive.
Proof. vm_compute. reflexivity. Defined.

Lemma first_read :
  StorageReadOpener mkLinkSystem 6 (chunkLink firstOfFive) pubEngine =
    Return (chunkBytes firstOfFive) afterRead.
Proof. vm_compute. reflexivity. Defined.

Lemma first_read_engine :
  engineOf (StorageReadOpener mkLinkSystem 6 (chunkLink firstOfFive) pubEngine) =
    Some afterRead.
Proof. vm_compute. reflexivity. Defined.

Lemma map_get_after_put : GetAfterPut (gmap string slice).
Proof. intros d d' k v [= <-]. simpl. by rewrite lookup_insert_eq. Defined.

(** The run over the five contents in chunks of two. *)
Lemma generateChunks_stored_chain_witness :
  ∃ evs, afterFive = afterEvents evs fiveEngine ∧
         Forall (λ ev, generatorEvent ev = true) evs ∧
         (putAt <$> storedChunks evs) `prefix_of` cachePuts evs.
Proof.
  destruct (generateChunks_stored_chain 6 (mkContentsIter 0 five) fiveEngine afterFive
              five_run) as (evs & H1 & H2 & H3 & _).
  exists evs. split; [exact H1|]. split; [exact H2|exact H3].
Defined.

Lemma generateChunks_chunk_bounds_witness :
  Forall (λ s, 1 ≤ Z.of_nat (length (Entries s.1)) ≤ Z.max (linkedChunkSize fiveEngine) 1)
    (storedChunks (log afterFive)).
Proof.
  exact (generateChunks_chunk_bounds 6 (mkContentsIter 0 five) fiveEngine afterFive
           (log afterFive) five_run eq_refl).
Defined.

(** The first read of the link of the first chunk, through the lister of the
    [pub] command. *)
Lemma read_leaves_store_witness :
  ds afterRead = (Get (ds pubEngine) (cidKey (chunkLink firstOfFive))).2 ∧
  cb afterRead = cb pubEngine ∧ linkedChunkSize afterRead = linkedChunkSize pubEngine ∧
  contextIDs afterRead = contextIDs pubEngine ∧
  sameKind (cache pubEngine) (cache afterRead) ∧
  ∃ evs, log afterRead = log pubEngine ++ evs ∧
         cache afterRead = replay evs (cache pubEngine).
Proof.
  exact (read_leaves_store 6 (chunkLink firstOfFive) pubEngine afterRead first_read_engine).
Defined.

Lemma read_calls_witness :
  (length (cacheGets (log afterRead)) ≤ 2)%nat ∧
  Forall (λ key, key = cidKey (chunkLink firstOfFive)) (cacheGets (log afterRead)) ∧
  (length (callbacks (log afterRead)) ≤ 1)%nat ∧
  (log afterRead ≠ [] →
     head (log afterRead) = Some (EvCacheGet (cidKey (chunkLink firstOfFive)))) ∧
  (callbacks (log afterRead) = [] →
     cachePuts (log afterRead) = [] ∧ resizes (log afterRead) = [] ∧
     storedChunks (log afterRead) = []).
Proof.
  exact (read_calls 6 (chunkLink firstOfFive) pubEngine afterRead (log afterRead)
           first_read_engine eq_refl).
Defined.

Lemma read_never_empty_witness :
  StorageReadOpener mkLinkSystem 6 (chunkLink firstOfFive) pubEngine =
    Return (chunkBytes firstOfFive) afterRead ∧
  chunkBytes firstOfFive ≠ [].
Proof.
  split; [exact first_read|].
  exact (read_never_empty 6 (chunkLink firstOfFive) pubEngine (chunkBytes firstOfFive)
           afterRead first_read).
Defined.

(** Bytes in the persistent store that do not decode. *)
Lemma read_store_errors_witness :
  StorageReadOpener mkLinkSystem 1 zz garbageEngine =
    Fail (ErrOther "unsupported document") (withDs garbageEngine (ds garbageEngine)).
Proof.
  assert (len (Some zz) ≠ 0) as Hlen by (vm_compute; discriminate).
  assert (dagjsonDecode (NewBuffer (Some zz)) = Err (ErrOther "unsupported document"))
    as Hdec by (vm_compute; reflexivity).
  exact (proj2 (read_store_errors 1 zz garbageEngine (Some zz) None (ds garbageEngine)
                  eq_refl)
           (ErrOther "unsupported document") (or_introl eq_refl) Hlen Hdec).
Defined.

(** A context identifier that the lister does not serve. *)
Lemma read_miss_without_iterator_witness :
  StorageReadOpener mkLinkSystem 6 zz strangerEngine =
    Fail (ErrOther "no content for context id")
      (afterEvents [EvCacheGet (cidKey zz); EvCallback (String.list_byte_of_string "nope")]
         (withDs strangerEngine ∅)).
Proof.
  exact (proj2 (read_miss_without_iterator 6 zz strangerEngine ∅ (pubLister "ctx" five)
                  None (Some ErrNotFound) eq_refl eq_refl eq_refl)
           (or_introl eq_refl) (ErrOther "no content for context id") eq_refl).
Defined.

(** A link that the cache holds. *)
Lemma read_cache_hit_witness :
  StorageReadOpener mkLinkSystem 0 zz cachedEngine =
    Return zz (afterEvents [EvCacheGet (cidKey zz); EvCacheGet (cidKey zz)]
                 (withDs cachedEngine ∅)).
Proof.
  exact (proj2 (read_cache_hit 0 zz cachedEngine ∅ (pubLister "ctx" five) zz
                  eq_refl eq_refl eq_refl)
           (lrustore.mkLRU 2 [(cidKey zz, Some zz)]) eq_refl).
Defined.

Lemma five_pairs_keys_distinct :
  NoDup (fst ∘ putOf <$> linkChain None (batches 2 (Sum <$> five))).
Proof. refine (bool_decide_unpack _ _). vm_compute. exact I. Defined.

Lemma firstOfFive_in_chain : firstOfFive ∈ linkChain None (batches 2 (Sum <$> five)).
Proof. vm_compute. constructor. Defined.

Lemma firstOfFive_bytes : chunkBytes firstOfFive ≠ [].
Proof. vm_compute. discriminate. Defined.

Lemma room_for_five : 3 * lrustore.Cap (lrustore.mkLRU (Key:=string) 2 []) +
                      2 * Z.of_nat (length (Sum <$> five)) < 2 ^ 62.
Proof. vm_compute. reflexivity. Defined.

Lemma read_generates_and_serves_witness :
  ∃ e',
    StorageReadOpener mkLinkSystem 6 (chunkLink firstOfFive) pubEngine =
      Return (chunkBytes firstOfFive) e' ∧
    ds e' = ∅ ∧
    log e' = log pubEngine ++
               [EvCacheGet (cidKey (chunkLink firstOfFive));
                EvCallback (String.list_byte_of_string "ctx")] ++
               runEvents (CacheLRU (lrustore.mkLRU 2 [])) (linkedChunkSize pubEngine)
                 (Sum <$> five) ++
               [EvCacheGet (cidKey (chunkLink firstOfFive))].
Proof.
  assert (0 ≤ linkedChunkSize pubEngine) as Hk by (vm_compute; discriminate).
  assert (0 < lrustore.Cap (lrustore.mkLRU (Key:=string) 2 [])) as Hpos
    by (vm_compute; reflexivity).
  assert (lrustore.Len (lrustore.mkLRU (Key:=string) 2 []) ≤
          lrustore.Cap (lrustore.mkLRU (Key:=string) 2 [])) as Hlen
    by (vm_compute; discriminate).
  exact (read_generates_and_serves 6 (mkContentsIter 0 five) (Sum <$> five) pubEngine ∅
           (pubLister "ctx" five) (String.list_byte_of_string "ctx")
           (lrustore.mkLRU 2 []) firstOfFive
           encode_never_fails eq_refl eq_refl eq_refl eq_refl five_produced five_fuel
           Hk eq_refl Hpos Hlen room_for_five five_pairs_keys_distinct
           firstOfFive_in_chain eq_refl firstOfFive_bytes).
Defined.

Lemma read_twice_witness :
  ∃ e' e'',
    StorageReadOpener mkLinkSystem 6 (chunkLink firstOfFive) pubEngine =
      Return (chunkBytes firstOfFive) e' ∧
    StorageReadOpener mkLinkSystem 0 (chunkLink firstOfFive) e' =
      Return (chunkBytes firstOfFive) e'' ∧
    log e'' = log e' ++ [EvCacheGet (cidKey (chunkLink firstOfFive));
                         EvCacheGet (cidKey (chunkLink firstOfFive))].
Proof.
  assert (0 ≤ linkedChunkSize pubEngine) as Hk by (vm_compute; discriminate).
  assert (0 < lrustore.Cap (lrustore.mkLRU (Key:=string) 2 [])) as Hpos
    by (vm_compute; reflexivity).
  assert (lrustore.Len (lrustore.mkLRU (Key:=string) 2 []) ≤
          lrustore.Cap (lrustore.mkLRU (Key:=string) 2 [])) as Hlen
    by (vm_compute; discriminate).
  exact (read_twice 6 0 (mkContentsIter 0 five) (Sum <$> five) pubEngine ∅ ∅
           (pubLister "ctx" five) (String.list_byte_of_string "ctx")
           (lrustore.mkLRU 2 []) firstOfFive
           encode_never_fails eq_refl eq_refl eq_refl eq_refl eq_refl five_produced
           five_fuel Hk eq_refl Hpos Hlen room_for_five five_pairs_keys_distinct
           firstOfFive_in_chain eq_refl firstOfFive_bytes).
Defined.

(** The five contents in chunks of one. *)
Lemma generateChunks_one_per_multihash_witness :
  ∃ root e' evs,
    generateChunks 6 (mkContentsIter 0 five) singlesEngine = Return root e' ∧
    log e' = log singlesEngine ++ evs ∧
    (Entries ∘ fst) <$> storedChunks evs = (λ mh, [mh]) <$> (Sum <$> five) ∧
    length (cachePuts evs) = length (Sum <$> five).
Proof.
  assert (0 ≤ linkedChunkSize singlesEngine ≤ 1) as Hk by (vm_compute; split; discriminate).
  exact (generateChunks_one_per_multihash (mkContentsIter 0 five) (Sum <$> five) 6
           singlesEngine encode_never_fails I Hk five_produced five_fuel).
Defined.

(** Bytes written through the vanilla link system and read back. *)
Lemma vanilla_write_then_read_witness :
  ∃ e2,
    StorageReadOpener vanillaLinkSystem 0 zz
      (withDs fiveEngine {[ cidKey zz := Some zz ]}) = Return zz e2 ∧
    cache e2 = cache fiveEngine ∧ log e2 = log fiveEngine.
Proof.
  assert (StorageWriteOpener vanillaLinkSystem zz zz fiveEngine =
            Return tt (withDs fiveEngine {[ cidKey zz := Some zz ]})) as Hw
    by reflexivity.
  exact (vanilla_write_then_read 0 zz zz fiveEngine _ map_get_after_put Hw).
Defined.

(** A signed document written through the main link system and read back. *)
Lemma advertisement_write_then_read_witness :
  ∃ e2,
    StorageReadOpener mkLinkSystem 0 zz
      (withDs fiveEngine {[ cidKey zz := Some (String.list_byte_of_string docSigned) ]}) =
      Return (String.list_byte_of_string docSigned) e2 ∧
    cache e2 = cache fiveEngine ∧ log e2 = log fiveEngine.
Proof.
  assert (StorageWriteOpener mkLinkSystem (String.list_byte_of_string docSigned) zz
            fiveEngine =
          Return tt (withDs fiveEngine
                       {[ cidKey zz := Some (String.list_byte_of_string docSigned) ]}))
    as Hw by reflexivity.
  assert (String.list_byte_of_string docSigned ≠ []) as Hbuf by (vm_compute; discriminate).
  assert (dagjsonDecode (String.list_byte_of_string docSigned) =
          Ok (NMap [("Signature", NString "sig")])) as Hdec by (vm_compute; reflexivity).
  exact (advertisement_write_then_read 0 zz (String.list_byte_of_string docSigned)
           (NMap [("Signature", NString "sig")]) fiveEngine _ map_get_after_put Hw Hbuf
           Hdec eq_refl).
Defined.

(** Bytes written through the cache link system and read back. *)
Lemma cache_write_then_read_witness :
  ∃ e2,
    StorageReadOpener cacheLinkSystem 0 zz
      (default fiveEngine (engineOf (StorageWriteOpener cacheLinkSystem zz zz fiveEngine))) =
      Return zz e2 ∧
    log e2 = log fiveEngine ++ [EvCachePut (cidKey zz) (Buffer_Bytes zz);
                                EvCacheGet (cidKey zz)].
Proof.
  assert (StorageWriteOpener cacheLinkSystem zz zz fiveEngine =
          Return tt (default fiveEngine
                       (engineOf (StorageWriteOpener cacheLinkSystem zz zz fiveEngine))))
    as Hw by (vm_compute; reflexivity).
  assert (0 < lrustore.Cap (lrustore.mkLRU (Key:=string) 2 [])) as Hpos
    by (vm_compute; reflexivity).
  exact (cache_write_then_read 0 zz zz fiveEngine _ Hpos Hw).
Defined.

Lemma five_links_injective :
  ∀ s s' : EntryChunk bytes bytes * bytes,
    s ∈ storedChunks (log afterFive) → s' ∈ storedChunks (log afterFive) →
    s.2 = s'.2 → s.1 = s'.1.
Proof.
  intros s s' Hs Hs' Heq. vm_compute in Hs, Hs'.
  repeat match goal with
         | H : list_elem_of _ (_ :: _) |- _ => apply elem_of_cons in H as [->|H]
         | H : _ ∈ _ :: _ |- _ => apply elem_of_cons in H as [->|H]
         | H : _ ∈ [] |- _ => by apply elem_of_nil in H
         end;
    solve [reflexivity | vm_compute in Heq; discriminate].
Defined.

(** The three chunks of the five contents have three different links. *)
Lemma generateChunks_links_distinct_witness :
  NoDup (snd <$> storedChunks (log afterFive)).
Proof.
  exact (generateChunks_links_distinct 6 (mkContentsIter 0 five) fiveEngine afterFive
           (log afterFive) five_run eq_refl five_links_injective).
Defined.
End more_witnesses.
